(** * imageCop: the duplicate-image finder, embedded and verified

    The development follows [image_comparator.py] (the function
    [find_similar_images]) and the worker thread of [main.py]
    ([ScanWorker]).

    - Paths and file names are byte strings (the UTF-8 form of the Python
      [str]); byte-wise lexicographic order on UTF-8 coincides with
      Python's code-point order on [str].
    - Python integers are [Z]; [len] is [Z.of_nat (length _)].
    - The file system, the image decoder and the perceptual hash are the
      environment: a record [World] of oracles.
    - [print] writes to the console only and is left out.
    - Every call of [Image.open], every hash subtraction and every call of
      the progress callback is logged, in program order, in a list of
      [Action]s returned next to the result. *)

From Equations Require Import Equations.
From Stdlib Require Import ZArith NArith Ascii String List Lia.
From stdpp Require Import gmap strings list fin_maps sorting relations.

Local Open Scope Z_scope.

(** ** Strings: the Python operations used on paths *)

(** [str.lower] on one byte. Python lowers every cased code point; the
    only code points whose lower case produces one of the ASCII letters of
    the supported extensions are the ASCII capitals themselves, so on the
    test [endswith] below the byte-wise version agrees with Python's. *)
Definition lower_ascii (c : ascii) : ascii :=
  let n := N_of_ascii c in
  if ((65 <=? n) && (n <=? 90))%N then ascii_of_N (n + 32) else c.

Fixpoint lower (s : string) : string :=
  match s with
  | EmptyString => EmptyString
  | String c s' => String (lower_ascii c) (lower s')
  end.

Fixpoint string_drop (n : nat) (s : string) : string :=
  match n, s with
  | O, _ => s
  | S n', EmptyString => EmptyString
  | S n', String _ s' => string_drop n' s'
  end.

(** [s.endswith(suffix)] for one suffix. *)
Definition endswith (s suffix : string) : bool :=
  (String.length suffix <=? String.length s)%nat
  && String.eqb (string_drop (String.length s - String.length suffix) s) suffix.

(** [s.startswith(prefix)]. *)
Definition startswith (s pre : string) : bool := String.prefix pre s.

(** [s.endswith(t)] for a tuple [t] of suffixes. *)
Definition endswith_any (s : string) (suffixes : list string) : bool :=
  existsb (endswith s) suffixes.

(** [os.path.join(a, b)] of [posixpath]. *)
Definition os_path_join (a b : string) : string :=
  if startswith b "/" then b
  else if (String.eqb a "" || endswith a "/")%bool then a +:+ b
  else a +:+ "/" +:+ b.

(** [min(l)] on a list of strings: the first element that no later one is
    strictly below. Python raises [ValueError] on the empty list; the one
    call site passes a list of length at least two. *)
Definition py_min (l : list string) : string :=
  match l with
  | [] => ""%string
  | x :: xs => foldl (fun m y => if String.ltb y m then y else m) x xs
  end.

(** [sorted(l)] on a list of strings. *)
Definition sorted (l : list string) : list string := merge_sort String.le l.

(** ** Fingerprints

    [imagehash] is a third-party library. Its [phash] returns an
    [ImageHash] that holds [hash_size * hash_size] bits, and [h1 - h2]
    counts the positions at which two bit patterns of the same shape
    differ. All hashes of one run are made with the same [hash_size], so a
    fingerprint is kept as the number that has those bits. *)
Definition ImageHash : Type := N.

Fixpoint popcount_pos (p : positive) : nat :=
  match p with
  | xH => 1%nat
  | xO p' => popcount_pos p'
  | xI p' => S (popcount_pos p')
  end.

Definition popcount (n : N) : nat :=
  match n with
  | N0 => 0%nat
  | Npos p => popcount_pos p
  end.

(** [ImageHash.__sub__]. *)
Definition hash_sub (h1 h2 : ImageHash) : Z := Z.of_nat (popcount (N.lxor h1 h2)).

(** ** The dict [hashes]

    [list(hashes.keys())] depends on the insertion order of the dict, so it
    is an association list in insertion order; assigning to a key already
    present replaces the value and keeps the position. *)
Definition Dict : Type := list (string * ImageHash).

Fixpoint dict_set (d : Dict) (k : string) (v : ImageHash) : Dict :=
  match d with
  | [] => [(k, v)]
  | (k', v') :: d' =>
      if String.eqb k' k then (k', v) :: d' else (k', v') :: dict_set d' k v
  end.

(** [d[k]]; the code only reads keys taken from [d.keys()]. *)
Fixpoint dict_get (d : Dict) (k : string) : ImageHash :=
  match d with
  | [] => 0%N
  | (k', v') :: d' => if String.eqb k' k then v' else dict_get d' k
  end.

Definition dict_keys (d : Dict) : list string := map fst d.

(** [bool(d)] negated: [not hashes]. *)
Definition dict_is_empty (d : Dict) : bool :=
  match d with [] => true | _ => false end.

(** ** The adjacency [defaultdict(list)] *)

(** [adj[k].append(v)]: creates the entry when it is missing. *)
Definition adj_append (adj : gmap string (list string)) (k v : string)
  : gmap string (list string) :=
  <[k := default [] (adj !! k) ++ [v]]> adj.

(** [adj[u]] under the guard [u in adj]; nothing is created. *)
Definition adj_get (adj : gmap string (list string)) (u : string) : list string :=
  default [] (adj !! u).

(** ** The environment *)

Inductive Listing : Type :=
| ListOk (names : list string)
| ListOSError (e : string).

Record World : Type := {
  (** [os.path.isdir] *)
  os_path_isdir : string -> bool;
  (** [os.listdir]; the entries in the order the system yields them *)
  os_listdir : string -> Listing;
  (** [Image.open], the mode conversion and [imagehash.phash] at a given
      [hash_size]; [None] when any of them raises *)
  image_phash : string -> Z -> option ImageHash
}.

(** ** Progress messages and the action log *)

Inductive Message : Type :=
| MsgFolderNotFound (folder_path : string)
    (* "Erro: Pasta nao encontrada em {folder_path}" *)
| MsgListError (e : string)
    (* "Erro ao listar diretorio: {e}" *)
| MsgNoSupported
    (* "Nenhum arquivo de imagem suportado encontrado." *)
| MsgHashStart (total_images : Z)
    (* "Calculando hashes para {total_images} imagens..." *)
| MsgHashing (processed_count total_images : Z)
    (* "Calculando hash: {processed_count}/{total_images}" *)
| MsgNoneProcessed
    (* "Nenhuma imagem pode ser processada." *)
| MsgComparing (comparison_count total_comparisons_possible : Z)
    (* "Comparando pares: {comparison_count}/{total_comparisons_possible}" *)
| MsgDone (groups : Z).
    (* "Concluido. Encontrados {groups} grupos de imagens similares." *)

Inductive Action : Type :=
| Open (img_path : string)
    (* one per-image attempt: Image.open(img_path) ... phash *)
| Sub (a b : string)
    (* one per-pair comparison: hashes[a] - hashes[b] *)
| Progress (current total : Z) (message : Message).
    (* progress_callback(current, total, message) *)

(** [if progress_callback: progress_callback(current, total, message)];
    [cb] tells whether a callback was passed. *)
Definition notify (cb : bool) (current total : Z) (message : Message) : list Action :=
  if cb then [Progress current total message] else [].

(** ** [find_similar_images] *)

Definition supported_formats : list string :=
  [".png"; ".jpg"; ".jpeg"; ".bmp"; ".gif"; ".tiff"; ".webp"]%string.

Definition is_candidate (filename : string) : bool :=
  endswith_any (lower filename) supported_formats.

(** The loop over [all_files]. *)
Definition collect_image_files (folder_path : string) (all_files : list string)
  : list string :=
  foldl (fun image_files filename =>
           if is_candidate filename
           then image_files ++ [os_path_join folder_path filename]
           else image_files)
        [] all_files.

(** One round of the hashing loop: the [try] body, the [except] branch
    (the dict is left as it was) and the [finally] block. *)
Definition hash_step (w : World) (hash_size : Z) (cb : bool) (total_images : Z)
  (st : Dict * Z * list Action) (img_path : string) : Dict * Z * list Action :=
  let '(hashes, processed_count, tr) := st in
  let hashes :=
    match image_phash w img_path hash_size with
    | Some hash_val => dict_set hashes img_path hash_val
    | None => hashes
    end in
  let processed_count := processed_count + 1 in
  (hashes, processed_count,
   tr ++ Open img_path
      :: notify cb processed_count (total_images * 2)
           (MsgHashing processed_count total_images)).

Definition hash_images (w : World) (hash_size : Z) (cb : bool) (total_images : Z)
  (image_files : list string) : Dict * Z * list Action :=
  foldl (hash_step w hash_size cb total_images) ([], 0, []) image_files.

(** The body of the inner loop of the graph builder, at indices [i], [j].
    Both indices are below [len(img_paths)], so the subscripts never
    raise; the total lookup [!!!] is only used in range. *)
Definition compare_pair (hashes : Dict) (img_paths : list string)
  (similarity_threshold : Z) (i : nat)
  (st : gmap string (list string) * Z * list Action) (j : nat)
  : gmap string (list string) * Z * list Action :=
  let '(adj, comparison_count, tr) := st in
  let a := img_paths !!! i in
  let b := img_paths !!! j in
  let distance := hash_sub (dict_get hashes a) (dict_get hashes b) in
  let adj :=
    if distance <=? similarity_threshold
    then adj_append (adj_append adj a b) b a
    else adj in
  (adj, comparison_count + 1, tr ++ [Sub a b]).

(** The body of the outer loop, at index [i]: the progress report, then
    [for j in range(i + 1, num_hashed_images)]. *)
Definition compare_row (hashes : Dict) (img_paths : list string)
  (similarity_threshold : Z) (cb : bool)
  (total_images total_comparisons_possible total_steps_overall : Z)
  (st : gmap string (list string) * Z * list Action) (i : nat)
  : gmap string (list string) * Z * list Action :=
  let '(adj, comparison_count, tr) := st in
  let current_progress_step := total_images + comparison_count in
  let tr :=
    tr ++ notify cb current_progress_step total_steps_overall
            (MsgComparing comparison_count total_comparisons_possible) in
  let num_hashed_images := length img_paths in
  foldl (compare_pair hashes img_paths similarity_threshold i)
        (adj, comparison_count, tr)
        (seq (i + 1) (num_hashed_images - (i + 1))).

Definition build_graph (hashes : Dict) (img_paths : list string)
  (similarity_threshold : Z) (cb : bool)
  (total_images total_comparisons_possible total_steps_overall : Z)
  : gmap string (list string) * Z * list Action :=
  foldl (compare_row hashes img_paths similarity_threshold cb
           total_images total_comparisons_possible total_steps_overall)
        (∅, 0, []) (seq 0 (length img_paths)).

(** [for v in adj[u]: if v not in visited: visited.add(v); q.append(v)] *)
Fixpoint visit_neighbors (vs : list string) (visited : gset string)
  (q : list string) : gset string * list string :=
  match vs with
  | [] => (visited, q)
  | v :: vs' =>
      if bool_decide (v ∉ visited)
      then visit_neighbors vs' ({[v]} ∪ visited) (q ++ [v])
      else visit_neighbors vs' visited q
  end.

(** Every name that occurs in an adjacency list. *)
Definition adj_nodes (adj : gmap string (list string)) : gset string :=
  map_fold (fun _ vs acc => list_to_set vs ∪ acc) ∅ adj.

(** What is left to do for the traversal: the nodes not yet marked, and
    the queue. Each round of the [while] lowers it by one. *)
Definition bfs_measure (adj : gmap string (list string)) (visited : gset string)
  (q : list string) : nat :=
  (size (adj_nodes adj ∖ visited) + length q)%nat.

(** *** Termination of the traversal *)

Lemma adj_nodes_spec (adj : gmap string (list string)) (u v : string) :
  v ∈ adj_get adj u -> v ∈ adj_nodes adj.
Proof.
  unfold adj_nodes, adj_get.
  apply (map_fold_weak_ind (fun acc m => v ∈ default [] (m !! u) -> v ∈ acc)).
  - rewrite lookup_empty. simpl. intros Hv. inversion Hv.
  - intros k vs m acc _ IH. rewrite lookup_insert.
    case_decide; simpl; intros Hv; apply elem_of_union.
    + left. now apply elem_of_list_to_set.
    + right. now apply IH.
Qed.

Lemma visit_neighbors_measure (U : gset string) (vs : list string)
  (visited : gset string) (q : list string) :
  (forall v, v ∈ vs -> v ∈ U) ->
  (size (U ∖ (visit_neighbors vs visited q).1)
   + length (visit_neighbors vs visited q).2
   = size (U ∖ visited) + length q)%nat.
Proof.
  revert visited q.
  induction vs as [|v vs IH]; intros visited q HU; simpl; [reflexivity|].
  assert (HUvs : forall x, x ∈ vs -> x ∈ U) by (intros x Hx; apply HU; now right).
  case_bool_decide as Hv; [|now apply IH].
  rewrite IH by exact HUvs. rewrite length_app. simpl.
  assert (Hsplit : U ∖ visited = {[v]} ∪ U ∖ ({[v]} ∪ visited)).
  { apply set_eq. intros x.
    rewrite elem_of_union, !elem_of_difference, elem_of_union, elem_of_singleton.
    split.
    - intros [HxU Hx]. destruct (decide (x = v)) as [->|Hne]; [now left|].
      right. split; [exact HxU|]. intros [?|?]; contradiction.
    - intros [->|[HxU Hx]].
      + split; [apply HU; now left|exact Hv].
      + split; [exact HxU|]. intros ?. apply Hx. now right. }
  rewrite Hsplit.
  rewrite (size_union {[v]} (U ∖ ({[v]} ∪ visited))).
  - rewrite size_singleton. lia.
  - intros x Hx1 Hx2. apply elem_of_singleton in Hx1. subst x.
    apply elem_of_difference in Hx2. destruct Hx2 as [_ Hx2].
    apply Hx2. apply elem_of_union. left. now apply elem_of_singleton.
Qed.

(** [while q: u = q.pop(0); current_group.append(u); ...] *)
Equations? bfs (adj : gmap string (list string)) (visited : gset string)
  (q : list string) (current_group : list string) : gset string * list string
  by wf (bfs_measure adj visited q) lt :=
bfs adj visited [] current_group := (visited, current_group);
bfs adj visited (u :: q') current_group :=
  bfs adj (visit_neighbors (adj_get adj u) visited q').1
          (visit_neighbors (adj_get adj u) visited q').2
          (current_group ++ [u]).
Proof.
  unfold bfs_measure. rewrite visit_neighbors_measure.
  - simpl. lia.
  - intros v. apply adj_nodes_spec.
Qed.

(** One round of [for img_path in img_paths] of the component search. *)
Definition group_step (adj : gmap string (list string))
  (st : gset string * gmap string (list string)) (img_path : string)
  : gset string * gmap string (list string) :=
  let '(visited, similar_groups_final) := st in
  if bool_decide (img_path ∉ visited) && bool_decide (is_Some (adj !! img_path))
  then
    let '(visited, current_group) :=
      bfs adj ({[img_path]} ∪ visited) [img_path] [] in
    if (1 <? length current_group)%nat
    then (visited,
          <[py_min current_group := sorted current_group]> similar_groups_final)
    else (visited, similar_groups_final)
  else if bool_decide (img_path ∉ visited)
  then ({[img_path]} ∪ visited, similar_groups_final)
  else (visited, similar_groups_final).

Definition extract_groups (adj : gmap string (list string))
  (img_paths : list string) : gmap string (list string) :=
  (foldl (group_step adj) (∅, ∅) img_paths).2.

(** The whole function. The result is [None] for Python's [None] and
    [Some m] for a returned dict [m]. *)
Definition find_similar_images (w : World) (folder_path : string)
  (hash_size similarity_threshold : Z) (cb : bool)
  : list Action * option (gmap string (list string)) :=
  if negb (os_path_isdir w folder_path)
  then (notify cb 0 1 (MsgFolderNotFound folder_path), None)
  else
    match os_listdir w folder_path with
    | ListOSError e => (notify cb 0 1 (MsgListError e), None)
    | ListOk all_files =>
        let image_files := collect_image_files folder_path all_files in
        match image_files with
        | [] => (notify cb 1 1 MsgNoSupported, Some ∅)
        | _ :: _ =>
            let total_images := Z.of_nat (length image_files) in
            let tr0 :=
              notify cb 0 (total_images * 2) (MsgHashStart total_images) in
            let '(hashes, _, tr1) :=
              hash_images w hash_size cb total_images image_files in
            if dict_is_empty hashes
            then (tr0 ++ tr1
                      ++ notify cb (total_images * 2) (total_images * 2)
                           MsgNoneProcessed,
                  Some ∅)
            else
              let img_paths := dict_keys hashes in
              let num_hashed_images := Z.of_nat (length img_paths) in
              let total_comparisons_possible :=
                (num_hashed_images * (num_hashed_images - 1)) `div` 2 in
              let total_steps_overall :=
                total_images + total_comparisons_possible in
              let '(adj, _, tr2) :=
                build_graph hashes img_paths similarity_threshold cb
                  total_images total_comparisons_possible total_steps_overall in
              let similar_groups_final := extract_groups adj img_paths in
              let final_message :=
                MsgDone (Z.of_nat (size similar_groups_final)) in
              (tr0 ++ tr1 ++ tr2
                   ++ notify cb total_steps_overall total_steps_overall
                        final_message,
               Some similar_groups_final)
        end
    end.

(** ** [ScanWorker]

    [stop()] runs on the GUI thread and only clears [_is_running]; the flag
    never goes back to [True]. The worker thread reads the flag at each call
    of [report_progress], once after [find_similar_images] has returned and
    once in the [finally] block. A schedule [stop_at] places the call of
    [stop()] among the worker's steps: the steps are the actions of
    [find_similar_images], numbered from 0, followed by the test guarding the
    results and the test guarding [finished]; [Some t] clears the flag just
    before step [t], [None] never does. *)

Inductive Signal : Type :=
| SigProgress (current total : Z) (message : Message)
| SigResults (similar_groups : gmap string (list string))
| SigFinished.

(** What the worker thread does, in order: work inside
    [find_similar_images] and signals emitted to the GUI. *)
Inductive WorkerEvent : Type :=
| Work (a : Action)
| Emit (s : Signal).

Definition is_running (stop_at : option nat) (now : nat) : bool :=
  match stop_at with
  | None => true
  | Some t => (now <? t)%nat
  end.

(** [report_progress] and the work of the comparator, step by step. *)
Fixpoint worker_steps (stop_at : option nat) (now : nat) (tr : list Action)
  : list WorkerEvent :=
  match tr with
  | [] => []
  | Progress current total message :: tr' =>
      (if is_running stop_at now
       then [Emit (SigProgress current total message)] else [])
      ++ worker_steps stop_at (S now) tr'
  | a :: tr' => Work a :: worker_steps stop_at (S now) tr'
  end.

(** [ScanWorker.run]. The embedding of [find_similar_images] raises
    nothing, so the [except] branch is not taken. *)
Definition ScanWorker_run (w : World) (folder_path : string)
  (hash_size similarity_threshold : Z) (stop_at : option nat)
  : list WorkerEvent :=
  let '(tr, similar_groups) :=
    find_similar_images w folder_path hash_size similarity_threshold true in
  let n := length tr in
  worker_steps stop_at 0 tr
  ++ (if is_running stop_at n
      then match similar_groups with
           | Some g => [Emit (SigResults g)]
           | None => []
           end
      else [])
  ++ (if is_running stop_at (S n) then [Emit SigFinished] else []).

(** * Properties *)

(** ** The operations on concrete inputs *)

Example is_candidate_upper : is_candidate "Holiday.JPeG" = true.
Proof. reflexivity. Qed.

Example is_candidate_text : is_candidate "notes.txt" = false.
Proof. reflexivity. Qed.

Example is_candidate_no_dot : is_candidate "png" = false.
Proof. reflexivity. Qed.

Example os_path_join_plain : os_path_join "d" "a.png" = "d/a.png"%string.
Proof. reflexivity. Qed.

Example os_path_join_slash : os_path_join "d/" "a.png" = "d/a.png"%string.
Proof. reflexivity. Qed.

Example hash_sub_two_bits : hash_sub 5%N 6%N = 2.
Proof. reflexivity. Qed.

Example py_min_first_least : py_min ["b"; "a"; "c"; "a"]%string = "a"%string.
Proof. reflexivity. Qed.

Example sorted_paths :
  sorted ["d/c.PNG"; "d/b.jpg"; "d/a.png"]%string
  = ["d/a.png"; "d/b.jpg"; "d/c.PNG"]%string.
Proof. vm_compute. reflexivity. Qed.

Example dict_set_keeps_position :
  dict_keys (dict_set (dict_set (dict_set [] "x" 1%N) "y" 2%N) "x" 3%N)
  = ["x"; "y"]%string.
Proof. reflexivity. Qed.

Example bfs_path_graph :
  (bfs (adj_append (adj_append (adj_append (adj_append ∅ "a" "b") "b" "a")
                      "b" "c") "c" "b")
       {["a"%string]} ["a"%string] []).2
  = ["a"; "b"; "c"]%string.
Proof. vm_compute. reflexivity. Qed.

(** ** The order on paths, [min] and [sorted] *)

Lemma ltb_true_le (a b : string) : String.ltb a b = true -> String.le a b.
Proof.
  unfold String.ltb, String.le, String.leb.
  destruct (String.compare a b); simpl; intros H; try discriminate; exact I.
Qed.

Lemma ltb_false_le (a b : string) : String.ltb a b = false -> String.le b a.
Proof.
  unfold String.ltb, String.le, String.leb.
  rewrite (String.compare_antisym b a).
  destruct (String.compare a b); simpl; intros H; try discriminate; exact I.
Qed.

Lemma foldl_min_spec (xs : list string) (x : string) :
  let m := foldl (fun m y => if String.ltb y m then y else m) x xs in
  m ∈ x :: xs /\ forall y, y ∈ x :: xs -> String.le m y.
Proof.
  revert x. induction xs as [|z xs IH]; intros x; simpl.
  - split; [now left|]. intros y Hy. apply list_elem_of_singleton in Hy.
    subst y. reflexivity.
  - destruct (String.ltb z x) eqn:Hlt.
    + destruct (IH z) as [Hin Hle]. split.
      * right. exact Hin.
      * intros y Hy. apply elem_of_cons in Hy. destruct Hy as [->|Hy].
        -- etransitivity; [apply Hle; now left|]. now apply ltb_true_le.
        -- now apply Hle.
    + destruct (IH x) as [Hin Hle]. split.
      * apply elem_of_cons in Hin. destruct Hin as [Hin|Hin].
        -- rewrite Hin. now left.
        -- right. now right.
      * intros y Hy. apply elem_of_cons in Hy. destruct Hy as [->|Hy].
        -- apply Hle. now left.
        -- apply elem_of_cons in Hy. destruct Hy as [->|Hy].
           ++ etransitivity; [apply Hle; now left|]. now apply ltb_false_le.
           ++ apply Hle. now right.
Qed.

Lemma py_min_in (l : list string) : l <> [] -> py_min l ∈ l.
Proof.
  destruct l as [|x xs]; [congruence|]. intros _.
  apply (foldl_min_spec xs x).
Qed.

Lemma py_min_le (l : list string) (y : string) : y ∈ l -> String.le (py_min l) y.
Proof.
  destruct l as [|x xs]; [intros Hy; inversion Hy|].
  apply (foldl_min_spec xs x).
Qed.

Lemma sorted_perm (l : list string) : sorted l ≡ₚ l.
Proof. apply merge_sort_Permutation. Qed.

Lemma sorted_elem_of (l : list string) (x : string) : x ∈ sorted l <-> x ∈ l.
Proof. now rewrite sorted_perm. Qed.

Lemma sorted_strongly (l : list string) : StronglySorted String.le (sorted l).
Proof. apply StronglySorted_merge_sort; apply _. Qed.

Lemma sorted_NoDup (l : list string) : NoDup l -> NoDup (sorted l).
Proof. intros H. now rewrite sorted_perm. Qed.

(** ** The traversal computes connected components *)

Lemma visit_neighbors_spec (vs : list string) (visited : gset string)
  (q : list string) :
  exists new : list string,
    (visit_neighbors vs visited q).2 = q ++ new
    /\ (visit_neighbors vs visited q).1 = list_to_set new ∪ visited
    /\ NoDup new
    /\ (forall x, x ∈ new -> x ∈ vs /\ x ∉ visited)
    /\ (forall x, x ∈ vs -> x ∈ (visit_neighbors vs visited q).1).
Proof.
  revert visited q.
  induction vs as [|v vs IH]; intros visited q; simpl.
  - exists []. rewrite app_nil_r.
    split; [reflexivity|]. split; [set_solver|]. split; [constructor|].
    split; intros x Hx; inversion Hx.
  - case_bool_decide as Hv.
    + destruct (IH ({[v]} ∪ visited) (q ++ [v]))
        as (new & Hq & Hvis & Hnd & Hnew & Hall).
      exists (v :: new). rewrite Hq, Hvis.
      split; [now rewrite <- app_assoc|]. split; [set_solver|].
      split; [|split].
      * constructor; [|exact Hnd]. intros Hin.
        destruct (Hnew _ Hin) as [_ Hno]. set_solver.
      * intros x Hx. apply elem_of_cons in Hx. destruct Hx as [->|Hin].
        -- split; [now left|exact Hv].
        -- destruct (Hnew _ Hin) as [Hxs Hno]. split; [now right|set_solver].
      * intros x Hx. apply elem_of_cons in Hx. destruct Hx as [->|Hx].
        -- set_solver.
        -- rewrite <- Hvis. now apply Hall.
    + destruct (IH visited q) as (new & Hq & Hvis & Hnd & Hnew & Hall).
      exists new.
      split; [exact Hq|]. split; [exact Hvis|]. split; [exact Hnd|]. split.
      * intros x Hx. destruct (Hnew _ Hx) as [Hxs Hno].
        split; [now right|exact Hno].
      * intros x Hx. apply elem_of_cons in Hx. destruct Hx as [->|Hx].
        -- rewrite Hvis. set_solver.
        -- now apply Hall.
Qed.

Section Traversal.

Variable adj : gmap string (list string).

(** [v] is in the adjacency list of [u]. *)
Definition edge (u v : string) : Prop := v ∈ adj_get adj u.

(** The state of one traversal started at [s] with [visited0] marked
    before: the marked nodes are the old ones, the collected ones and the
    queued ones; nothing is collected or queued twice; everything
    collected or queued is reachable from [s]; the neighbours of a
    collected node are all marked. *)
Definition bfs_inv (visited0 : gset string) (s : string)
  (visited : gset string) (q current_group : list string) : Prop :=
  visited = list_to_set (current_group ++ q) ∪ visited0
  /\ NoDup (current_group ++ q)
  /\ (forall x, x ∈ current_group ++ q -> (x ∉ visited0) /\ rtc edge s x)
  /\ (forall u v, u ∈ current_group -> edge u v -> v ∈ visited).

Lemma bfs_inv_step visited0 s visited u q' current_group :
  bfs_inv visited0 s visited (u :: q') current_group ->
  bfs_inv visited0 s
    (visit_neighbors (adj_get adj u) visited q').1
    (visit_neighbors (adj_get adj u) visited q').2
    (current_group ++ [u]).
Proof.
  intros (Hvis & Hnd & Hreach & Hclosed).
  destruct (visit_neighbors_spec (adj_get adj u) visited q')
    as (new & Hq & Hv & Hndn & Hnew & Hall).
  rewrite Hq, Hv. unfold bfs_inv.
  assert (Heq : (current_group ++ [u]) ++ q' ++ new
                = (current_group ++ u :: q') ++ new).
  { now rewrite <- !app_assoc. }
  rewrite Heq. split; [|split; [|split]].
  - rewrite Hvis. rewrite list_to_set_app_L. set_solver.
  - apply NoDup_app. split; [exact Hnd|]. split; [|exact Hndn].
    intros x Hx Hxn. destruct (Hnew _ Hxn) as [_ Hno].
    apply Hno. rewrite Hvis. apply elem_of_union. left.
    now apply elem_of_list_to_set.
  - intros x Hx. apply elem_of_app in Hx. destruct Hx as [Hx|Hx].
    + now apply Hreach.
    + destruct (Hnew _ Hx) as [Hxu Hno]. split.
      * intros Hx0. apply Hno. rewrite Hvis. set_solver.
      * apply rtc_r with u; [|exact Hxu].
        apply Hreach. apply elem_of_app. right. now left.
  - intros a b Ha Hab. apply elem_of_app in Ha. destruct Ha as [Ha|Ha].
    + apply elem_of_union. right. now apply (Hclosed a).
    + apply list_elem_of_singleton in Ha. subst a.
      rewrite <- Hv. now apply Hall.
Qed.

Lemma bfs_spec visited0 s visited q current_group :
  bfs_inv visited0 s visited q current_group ->
  bfs_inv visited0 s
    (bfs adj visited q current_group).1 []
    (bfs adj visited q current_group).2
  /\ visited ⊆ (bfs adj visited q current_group).1.
Proof.
  revert visited0 s.
  apply (bfs_elim
    (fun adj' visited q current_group r =>
       adj' = adj ->
       forall visited0 s,
       bfs_inv visited0 s visited q current_group ->
       bfs_inv visited0 s r.1 [] r.2 /\ visited ⊆ r.1)); [| |reflexivity].
  - intros adj' vis grp -> visited0 s Hinv. simpl. split; [exact Hinv|done].
  - intros adj' vis u q' grp IH -> visited0 s Hinv.
    destruct (IH eq_refl visited0 s (bfs_inv_step _ _ _ _ _ _ Hinv))
      as [Hfinal Hsub].
    split; [exact Hfinal|].
    etransitivity; [|exact Hsub].
    destruct (visit_neighbors_spec (adj_get adj u) vis q')
      as (new & _ & Hv & _). rewrite Hv. set_solver.
Qed.

End Traversal.

(** ** The component search over a symmetric adjacency *)

Section Components.

Variable adj : gmap string (list string).

Hypothesis adj_sym : forall u v, edge adj u v -> edge adj v u.
Hypothesis adj_nonempty :
  forall u, is_Some (adj !! u) -> exists v, edge adj u v /\ v <> u.

(** [g], keyed by [k], is the sorted list of the component of [k], and
    [k] is its least member. *)
Definition component_group (k : string) (g : list string) : Prop :=
  k ∈ g
  /\ (forall x, x ∈ g -> String.le k x)
  /\ StronglySorted String.le g
  /\ NoDup g
  /\ (2 <= length g)%nat
  /\ (forall x, x ∈ g <-> rtc (edge adj) k x).

Lemma edge_is_Some u v : edge adj u v -> is_Some (adj !! u).
Proof.
  unfold edge, adj_get. destruct (adj !! u); [eauto|].
  simpl. intros H. inversion H.
Qed.

Lemma connected_sym x y : rtc (edge adj) x y -> rtc (edge adj) y x.
Proof.
  induction 1 as [|x y z Hxy _ IH]; [reflexivity|].
  eapply rtc_r; [exact IH|]. now apply adj_sym.
Qed.

(** The outcome of one traversal from an unmarked node [s] when the
    marked set is closed under the adjacency. *)
Lemma bfs_component (visited0 : gset string) (s : string) :
  (forall u v, u ∈ visited0 -> edge adj u v -> v ∈ visited0) ->
  s ∉ visited0 ->
  let r := bfs adj ({[s]} ∪ visited0) [s] [] in
  r.1 = list_to_set r.2 ∪ visited0
  /\ NoDup r.2
  /\ (forall x, x ∈ r.2 -> x ∉ visited0)
  /\ (forall x, x ∈ r.2 <-> rtc (edge adj) s x).
Proof.
  intros Hclosed Hs r.
  assert (Hinit : bfs_inv adj visited0 s ({[s]} ∪ visited0) [s] []).
  { unfold bfs_inv. simpl. split; [set_solver|]. split.
    - apply NoDup_singleton.
    - split.
      + intros x Hx. apply list_elem_of_singleton in Hx. subst x.
        split; [exact Hs|reflexivity].
      + intros u v Hu. inversion Hu. }
  destruct (bfs_spec adj _ _ _ _ _ Hinit) as [(Hvis & Hnd & Hreach & Hcl) Hsub].
  fold r in Hvis, Hnd, Hreach, Hcl, Hsub.
  rewrite app_nil_r in Hvis, Hnd, Hreach.
  assert (Hdisj : forall x, x ∈ r.2 -> x ∉ visited0).
  { intros x Hx. now apply Hreach. }
  assert (Hclosed' : forall u v, u ∈ r.2 -> edge adj u v -> v ∈ r.2).
  { intros u v Hu Huv. pose proof (Hcl u v Hu Huv) as Hv.
    rewrite Hvis in Hv. apply elem_of_union in Hv. destruct Hv as [Hv|Hv].
    - now apply elem_of_list_to_set in Hv.
    - exfalso. apply (Hdisj u Hu). apply (Hclosed v u Hv). now apply adj_sym. }
  assert (Hsin : s ∈ r.2).
  { assert (Hs' : s ∈ r.1) by (apply Hsub; set_solver).
    rewrite Hvis in Hs'. apply elem_of_union in Hs'. destruct Hs' as [Hs'|Hs'].
    - now apply elem_of_list_to_set in Hs'.
    - contradiction. }
  split; [exact Hvis|]. split; [exact Hnd|]. split; [exact Hdisj|].
  intros x. split.
  - intros Hx. now apply Hreach.
  - intros Hsx.
    apply (rtc_ind_r (R := edge adj) (fun y => y ∈ r.2) s);
      [exact Hsin| |exact Hsx].
    intros y z _ Hyz Hy. now apply (Hclosed' y).
Qed.

Lemma two_distinct_length (l : list string) (a b : string) :
  a ∈ l -> b ∈ l -> a <> b -> (2 <= length l)%nat.
Proof.
  destruct l as [|x [|y l]]; simpl; intros Ha Hb Hne.
  - inversion Ha.
  - apply list_elem_of_singleton in Ha, Hb. congruence.
  - lia.
Qed.

(** The state of the loop over [img_paths]: the marked set is closed
    under the adjacency, every stored group is a component that lies
    inside the marked set, and every marked node that has an adjacency
    entry is in a stored group. *)
Definition groups_inv (visited : gset string)
  (groups : gmap string (list string)) : Prop :=
  (forall u v, u ∈ visited -> edge adj u v -> v ∈ visited)
  /\ (forall k g, groups !! k = Some g ->
        component_group k g /\ forall x, x ∈ g -> x ∈ visited)
  /\ (forall a, a ∈ visited -> is_Some (adj !! a) ->
        exists k g, groups !! k = Some g /\ a ∈ g).

Lemma group_step_inv visited groups s :
  groups_inv visited groups ->
  groups_inv (group_step adj (visited, groups) s).1
             (group_step adj (visited, groups) s).2
  /\ visited ⊆ (group_step adj (visited, groups) s).1
  /\ s ∈ (group_step adj (visited, groups) s).1.
Proof.
  intros (Hclosed & Hgroups & Hcover). unfold group_step.
  case_bool_decide as Hs; simpl.
  2:{ split; [|split; [done|exact Hs]]. now split. }
  case_bool_decide as Hadj; simpl.
  - pose proof (bfs_component visited s Hclosed Hs) as Hb. simpl in Hb.
    destruct (bfs adj ({[s]} ∪ visited) [s] []) as [visited' grp] eqn:Ebfs.
    simpl in Hb. destruct Hb as (Hvis & Hnd & Hdisj & Hcomp).
    assert (Hsin : s ∈ grp) by (apply Hcomp; reflexivity).
    destruct (adj_nonempty s Hadj) as (v & Hsv & Hne).
    assert (Hvin : v ∈ grp) by (apply Hcomp; now apply rtc_once).
    assert (Hlen : (2 <= length grp)%nat)
      by (apply (two_distinct_length grp v s); assumption).
    assert (Hnonnil : grp <> []) by (intros ->; inversion Hsin).
    assert (Hkin : py_min grp ∈ grp) by now apply py_min_in.
    assert (Hltb : (1 <? length grp)%nat = true) by (apply Nat.ltb_lt; lia).
    rewrite Hltb. simpl.
    assert (Hnew : component_group (py_min grp) (sorted grp)).
    { unfold component_group.
      split; [now apply sorted_elem_of|].
      split; [intros x Hx; apply py_min_le; now apply sorted_elem_of|].
      split; [apply sorted_strongly|].
      split; [now apply sorted_NoDup|].
      split; [now rewrite (Permutation_length (sorted_perm grp))|].
      intros x. rewrite sorted_elem_of, Hcomp.
      assert (Hsk : rtc (edge adj) s (py_min grp)) by now apply Hcomp.
      split; intros Hx.
      - etransitivity; [apply connected_sym; exact Hsk|exact Hx].
      - etransitivity; [exact Hsk|exact Hx]. }
    split; [split; [|split]|split].
    + intros a b Ha Hab. rewrite Hvis in Ha |- *.
      apply elem_of_union in Ha. apply elem_of_union.
      destruct Ha as [Ha|Ha].
      * left. apply elem_of_list_to_set. apply elem_of_list_to_set in Ha.
        apply Hcomp. apply rtc_r with a; [now apply Hcomp|exact Hab].
      * right. now apply (Hclosed a).
    + intros k g Hk. rewrite lookup_insert in Hk. case_decide as Hkk.
      * inversion Hk; subst k g. split; [exact Hnew|].
        intros x Hx. rewrite Hvis. apply elem_of_union. left.
        apply elem_of_list_to_set. now apply sorted_elem_of.
      * destruct (Hgroups k g Hk) as [Hcg Hin]. split; [exact Hcg|].
        intros x Hx. rewrite Hvis. apply elem_of_union. right. now apply Hin.
    + intros a Ha Haadj. rewrite Hvis in Ha. apply elem_of_union in Ha.
      destruct Ha as [Ha|Ha].
      * exists (py_min grp), (sorted grp). rewrite lookup_insert_eq.
        split; [reflexivity|]. apply sorted_elem_of.
        now apply elem_of_list_to_set in Ha.
      * destruct (Hcover a Ha Haadj) as (k & g & Hk & Hag).
        exists k, g. split; [|exact Hag].
        rewrite lookup_insert_ne; [exact Hk|].
        intros Heq. subst k. apply (Hdisj _ Hkin).
        destruct (Hgroups _ _ Hk) as [(Hkg & _) Hin]. now apply Hin.
    + rewrite Hvis. set_solver.
    + rewrite Hvis. apply elem_of_union. left. now apply elem_of_list_to_set.
  - split; [|split; [set_solver|set_solver]].
    split; [|split].
    + intros a b Ha Hab. apply elem_of_union in Ha. apply elem_of_union.
      destruct Ha as [Ha|Ha].
      * apply elem_of_singleton in Ha. subst a.
        exfalso. apply Hadj. now apply (edge_is_Some s b).
      * right. now apply (Hclosed a).
    + intros k g Hk. destruct (Hgroups k g Hk) as [Hcg Hin].
      split; [exact Hcg|]. intros x Hx. apply elem_of_union. right.
      now apply Hin.
    + intros a Ha Haadj. apply elem_of_union in Ha. destruct Ha as [Ha|Ha].
      * apply elem_of_singleton in Ha. subst a. contradiction.
      * now apply Hcover.
Qed.

Lemma foldl_group_step_inv (l : list string) visited groups :
  groups_inv visited groups ->
  groups_inv (foldl (group_step adj) (visited, groups) l).1
             (foldl (group_step adj) (visited, groups) l).2
  /\ visited ⊆ (foldl (group_step adj) (visited, groups) l).1
  /\ forall x, x ∈ l -> x ∈ (foldl (group_step adj) (visited, groups) l).1.
Proof.
  revert visited groups.
  induction l as [|s l IH]; intros visited groups Hinv; cbn [foldl].
  - split; [exact Hinv|]. split; [done|]. intros x Hx. inversion Hx.
  - destruct (group_step_inv visited groups s Hinv) as (Hinv' & Hsub & Hs).
    destruct (group_step adj (visited, groups) s) as [visited' groups'].
    cbn [fst snd] in *.
    destruct (IH visited' groups' Hinv') as (Hfin & Hsub' & Hall).
    split; [exact Hfin|]. split; [set_solver|].
    intros x Hx. apply elem_of_cons in Hx. destruct Hx as [->|Hx].
    + now apply Hsub'.
    + now apply Hall.
Qed.

(** What [extract_groups] returns. *)
Lemma extract_groups_spec (img_paths : list string) :
  (forall k g, extract_groups adj img_paths !! k = Some g ->
     component_group k g)
  /\ (forall a, a ∈ img_paths -> is_Some (adj !! a) ->
       exists k g, extract_groups adj img_paths !! k = Some g /\ a ∈ g).
Proof.
  unfold extract_groups.
  assert (Hinit : groups_inv ∅ ∅).
  { split; [|split].
    - intros u v Hu. set_solver.
    - intros k g Hk. rewrite lookup_empty in Hk. discriminate.
    - intros a Ha. set_solver. }
  destruct (foldl_group_step_inv img_paths ∅ ∅ Hinit)
    as ((_ & Hgroups & Hcover) & _ & Hall).
  split.
  - intros k g Hk. now apply Hgroups.
  - intros a Ha Hadj. apply Hcover; [now apply Hall|exact Hadj].
Qed.

End Components.

(** ** The loops over indices, as recursions over the list

    The pairs compared by the two nested [range] loops, in the order the
    loops meet them. *)
Fixpoint all_pairs (l : list string) : list (string * string) :=
  match l with
  | [] => []
  | x :: rest => map (pair x) rest ++ all_pairs rest
  end.

(** The two paths are within the threshold. *)
Definition close (hashes : Dict) (similarity_threshold : Z) (a b : string) : bool :=
  hash_sub (dict_get hashes a) (dict_get hashes b) <=? similarity_threshold.

(** The effect of one comparison on the adjacency. *)
Definition add_edge (hashes : Dict) (similarity_threshold : Z)
  (adj : gmap string (list string)) (p : string * string)
  : gmap string (list string) :=
  if close hashes similarity_threshold p.1 p.2
  then adj_append (adj_append adj p.1 p.2) p.2 p.1
  else adj.

Definition graph_of (hashes : Dict) (similarity_threshold : Z)
  : gmap string (list string) :=
  foldl (add_edge hashes similarity_threshold) ∅ (all_pairs (dict_keys hashes)).

Section GraphLoops.

Variables (hashes : Dict) (img_paths : list string) (T : Z) (cb : bool).
Variables (total_images total_comparisons_possible total_steps_overall : Z).

(** The log of the comparison phase from the row of [l]'s head on, when
    [cnt] comparisons were made before. *)
Fixpoint rows_trace (cnt : Z) (l : list string) : list Action :=
  match l with
  | [] => []
  | x :: rest =>
      notify cb (total_images + cnt) total_steps_overall
        (MsgComparing cnt total_comparisons_possible)
      ++ map (Sub x) rest
      ++ rows_trace (cnt + Z.of_nat (length rest)) rest
  end.

Lemma inner_loop_eq (i : nat) (x : string) (rest pre : list string)
  (adj : gmap string (list string)) (cnt : Z) (tr : list Action) :
  img_paths !!! i = x ->
  img_paths = pre ++ rest ->
  foldl (compare_pair hashes img_paths T i) (adj, cnt, tr)
        (seq (length pre) (length rest))
  = (foldl (add_edge hashes T) adj (map (pair x) rest),
     cnt + Z.of_nat (length rest),
     tr ++ map (Sub x) rest).
Proof.
  intros Hi. revert pre adj cnt tr.
  induction rest as [|y rest IH]; intros pre adj cnt tr Hl.
  - simpl. now rewrite Z.add_0_r, app_nil_r.
  - cbn [length seq foldl map].
    assert (Hj : img_paths !!! length pre = y).
    { apply list_lookup_total_correct. rewrite Hl.
      now apply list_lookup_middle. }
    unfold compare_pair at 2. rewrite Hi, Hj.
    specialize (IH (pre ++ [y])). rewrite length_app in IH. simpl in IH.
    rewrite Nat.add_1_r in IH.
    rewrite IH by (now rewrite <- app_assoc).
    unfold add_edge at 2, close. cbn [fst snd].
    f_equal; [f_equal; lia|]. now rewrite <- app_assoc.
Qed.

Lemma row_eq (x : string) (rest pre : list string)
  (adj : gmap string (list string)) (cnt : Z) (tr : list Action) :
  img_paths = pre ++ x :: rest ->
  compare_row hashes img_paths T cb total_images
    total_comparisons_possible total_steps_overall (adj, cnt, tr) (length pre)
  = (foldl (add_edge hashes T) adj (map (pair x) rest),
     cnt + Z.of_nat (length rest),
     (tr ++ notify cb (total_images + cnt) total_steps_overall
              (MsgComparing cnt total_comparisons_possible))
     ++ map (Sub x) rest).
Proof.
  intros Hl. unfold compare_row.
  assert (Hi : img_paths !!! length pre = x).
  { apply list_lookup_total_correct. rewrite Hl.
    now apply list_lookup_middle. }
  assert (Hlen : (length img_paths - (length pre + 1))%nat = length rest).
  { rewrite Hl, length_app. simpl. lia. }
  rewrite Hlen.
  pose proof (inner_loop_eq (length pre) x rest (pre ++ [x]) adj cnt
                (tr ++ notify cb (total_images + cnt) total_steps_overall
                        (MsgComparing cnt total_comparisons_possible)) Hi)
    as Hin.
  rewrite length_app in Hin. simpl in Hin.
  apply Hin. now rewrite <- app_assoc.
Qed.

Lemma outer_loop_eq (suf pre : list string)
  (adj : gmap string (list string)) (cnt : Z) (tr : list Action) :
  img_paths = pre ++ suf ->
  foldl (compare_row hashes img_paths T cb total_images
           total_comparisons_possible total_steps_overall)
        (adj, cnt, tr) (seq (length pre) (length suf))
  = (foldl (add_edge hashes T) adj (all_pairs suf),
     cnt + Z.of_nat (length (all_pairs suf)),
     tr ++ rows_trace cnt suf).
Proof.
  revert pre adj cnt tr.
  induction suf as [|x rest IH]; intros pre adj cnt tr Hl.
  - simpl. now rewrite Z.add_0_r, app_nil_r.
  - cbn [length seq foldl all_pairs rows_trace].
    rewrite (row_eq x rest pre adj cnt tr Hl).
    specialize (IH (pre ++ [x])). rewrite length_app in IH. simpl in IH.
    rewrite Nat.add_1_r in IH.
    rewrite IH by (now rewrite <- app_assoc).
    rewrite foldl_app, length_app, length_map, <- !app_assoc.
    f_equal. f_equal. lia.
Qed.

Lemma build_graph_eq :
  build_graph hashes img_paths T cb total_images
    total_comparisons_possible total_steps_overall
  = (foldl (add_edge hashes T) ∅ (all_pairs img_paths),
     Z.of_nat (length (all_pairs img_paths)),
     rows_trace 0 img_paths).
Proof.
  unfold build_graph.
  now rewrite (outer_loop_eq img_paths [] ∅ 0 [] eq_refl).
Qed.

End GraphLoops.

(** ** The pairs that are compared *)

Lemma all_pairs_elem_of (l : list string) (a b : string) :
  (a, b) ∈ all_pairs l -> a ∈ l /\ b ∈ l.
Proof.
  induction l as [|x rest IH]; simpl; intros H; [inversion H|].
  apply elem_of_app in H. destruct H as [H|H].
  - apply list_elem_of_fmap in H. destruct H as (y & Heq & Hy).
    inversion Heq; subst. split; [now left|now right].
  - destruct (IH H) as [Ha Hb]. split; now right.
Qed.

Lemma all_pairs_distinct (l : list string) (a b : string) :
  NoDup l -> (a, b) ∈ all_pairs l -> a <> b /\ (b, a) ∉ all_pairs l.
Proof.
  induction l as [|x rest IH]; simpl; intros Hnd H; [inversion H|].
  apply NoDup_cons in Hnd. destruct Hnd as [Hx Hnd].
  apply elem_of_app in H. destruct H as [H|H].
  - apply list_elem_of_fmap in H. destruct H as (y & Heq & Hy).
    inversion Heq; subst. split; [intros ->; contradiction|].
    intros Hba. apply elem_of_app in Hba. destruct Hba as [Hba|Hba].
    + apply list_elem_of_fmap in Hba. destruct Hba as (z & Heq' & _).
      inversion Heq'; subst. contradiction.
    + apply all_pairs_elem_of in Hba. now destruct Hba.
  - destruct (IH Hnd H) as [Hne Hnot]. split; [exact Hne|].
    intros Hba. apply elem_of_app in Hba. destruct Hba as [Hba|Hba].
    + apply list_elem_of_fmap in Hba. destruct Hba as (z & Heq' & _).
      inversion Heq'; subst. apply all_pairs_elem_of in H. now destruct H.
    + contradiction.
Qed.

Lemma all_pairs_total (l : list string) (a b : string) :
  a ∈ l -> b ∈ l -> a <> b -> (a, b) ∈ all_pairs l \/ (b, a) ∈ all_pairs l.
Proof.
  induction l as [|x rest IH]; simpl; intros Ha Hb Hne; [inversion Ha|].
  apply elem_of_cons in Ha, Hb.
  destruct Ha as [->|Ha], Hb as [->|Hb].
  - congruence.
  - left. apply elem_of_app. left. apply list_elem_of_fmap. now exists b.
  - right. apply elem_of_app. left. apply list_elem_of_fmap. now exists a.
  - destruct (IH Ha Hb Hne) as [H|H]; [left|right]; apply elem_of_app; now right.
Qed.

Lemma all_pairs_NoDup (l : list string) : NoDup l -> NoDup (all_pairs l).
Proof.
  induction l as [|x rest IH]; simpl; intros Hnd; [constructor|].
  apply NoDup_cons in Hnd. destruct Hnd as [Hx Hnd].
  apply NoDup_app. split; [|split].
  - apply NoDup_fmap_2; [|exact Hnd]. intros y z Hyz. now inversion Hyz.
  - intros [a b] Hab Hab'. apply list_elem_of_fmap in Hab.
    destruct Hab as (y & Heq & _). inversion Heq; subst.
    apply all_pairs_elem_of in Hab'. now destruct Hab'.
  - now apply IH.
Qed.

Lemma all_pairs_length (l : list string) :
  Z.of_nat (length (all_pairs l))
  = (Z.of_nat (length l) * (Z.of_nat (length l) - 1)) `div` 2.
Proof.
  assert (H : 2 * Z.of_nat (length (all_pairs l))
              = Z.of_nat (length l) * (Z.of_nat (length l) - 1)).
  { induction l as [|x rest IH]; [reflexivity|].
    cbn [all_pairs length]. rewrite length_app, length_map. lia. }
  rewrite <- H. rewrite Z.mul_comm. symmetry. apply Z.div_mul. lia.
Qed.

(** ** The adjacency that the comparisons build *)

Lemma hash_sub_sym (h1 h2 : ImageHash) : hash_sub h1 h2 = hash_sub h2 h1.
Proof. unfold hash_sub. now rewrite N.lxor_comm. Qed.

Lemma close_sym (hashes : Dict) (T : Z) (a b : string) :
  close hashes T a b = close hashes T b a.
Proof. unfold close. now rewrite hash_sub_sym. Qed.

Lemma adj_get_append (adj : gmap string (list string)) (k x u : string) :
  adj_get (adj_append adj k x) u
  = if decide (k = u) then adj_get adj k ++ [x] else adj_get adj u.
Proof.
  unfold adj_get, adj_append. rewrite lookup_insert.
  case_decide; [subst|]; reflexivity.
Qed.

(** Entries of the adjacency exist only where something was appended. *)
Definition adj_filled (adj : gmap string (list string)) : Prop :=
  forall u, is_Some (adj !! u) -> adj_get adj u <> [].

Lemma adj_append_filled adj k x : adj_filled adj -> adj_filled (adj_append adj k x).
Proof.
  intros Hf u Hu. rewrite adj_get_append. case_decide as Hk.
  - intros Heq. now apply app_eq_nil in Heq as [_ ?].
  - apply Hf. unfold adj_append in Hu. now rewrite lookup_insert_ne in Hu.
Qed.

Section Adjacency.

Variables (hashes : Dict) (T : Z).

Lemma add_edge_edge adj (p : string * string) (u v : string) :
  edge (add_edge hashes T adj p) u v
  <-> edge adj u v
      \/ (close hashes T p.1 p.2 = true
          /\ ((u = p.1 /\ v = p.2) \/ (u = p.2 /\ v = p.1))).
Proof.
  unfold add_edge, edge. destruct p as [a b]. cbn [fst snd].
  destruct (close hashes T a b); [|intuition discriminate].
  rewrite !adj_get_append.
  repeat case_decide; subst; rewrite ?elem_of_app, ?list_elem_of_singleton;
    intuition congruence.
Qed.

Lemma add_edge_filled adj p : adj_filled adj -> adj_filled (add_edge hashes T adj p).
Proof.
  intros Hf. unfold add_edge. destruct (close hashes T p.1 p.2); [|exact Hf].
  now do 2 apply adj_append_filled.
Qed.

Lemma foldl_add_edge_edge (ps : list (string * string)) adj (u v : string) :
  edge (foldl (add_edge hashes T) adj ps) u v
  <-> edge adj u v
      \/ exists a b, (a, b) ∈ ps /\ close hashes T a b = true
                     /\ ((u = a /\ v = b) \/ (u = b /\ v = a)).
Proof.
  revert adj. induction ps as [|[a b] ps IH]; intros adj; cbn [foldl].
  - split; [now left|]. intros [H|(a & b & H & _)]; [exact H|inversion H].
  - rewrite IH, add_edge_edge. cbn [fst snd]. split.
    + intros [[H|H]|(a' & b' & Hin & H)].
      * now left.
      * right. exists a, b. split; [now left|exact H].
      * right. exists a', b'. split; [now right|exact H].
    + intros [H|(a' & b' & Hin & H)]; [left; now left|].
      apply elem_of_cons in Hin. destruct Hin as [Heq|Hin].
      * inversion Heq; subst. left. now right.
      * right. now exists a', b'.
Qed.

Lemma foldl_add_edge_filled (ps : list (string * string)) adj :
  adj_filled adj -> adj_filled (foldl (add_edge hashes T) adj ps).
Proof.
  revert adj. induction ps as [|p ps IH]; intros adj Hf; cbn [foldl];
    [exact Hf|]. apply IH. now apply add_edge_filled.
Qed.

Hypothesis keys_NoDup : NoDup (dict_keys hashes).

(** The edges of the graph: the pairs of distinct fingerprinted paths
    within the threshold. *)
Lemma graph_of_edge (u v : string) :
  edge (graph_of hashes T) u v
  <-> u ∈ dict_keys hashes /\ v ∈ dict_keys hashes /\ u <> v
      /\ close hashes T u v = true.
Proof.
  unfold graph_of. rewrite foldl_add_edge_edge. split.
  - intros [H|(a & b & Hin & Hc & Hsel)].
    + unfold edge, adj_get in H. rewrite lookup_empty in H. inversion H.
    + destruct (all_pairs_elem_of _ _ _ Hin) as [Ha Hb].
      destruct (all_pairs_distinct _ _ _ keys_NoDup Hin) as [Hne _].
      destruct Hsel as [[-> ->]|[-> ->]].
      * now repeat split.
      * rewrite close_sym. repeat split; try assumption. congruence.
  - intros (Hu & Hv & Hne & Hc). right.
    destruct (all_pairs_total _ _ _ Hu Hv Hne) as [Hin|Hin].
    + exists u, v. split; [exact Hin|]. split; [exact Hc|]. now left.
    + exists v, u. split; [exact Hin|]. rewrite close_sym.
      split; [exact Hc|]. now right.
Qed.

Lemma graph_of_sym (u v : string) :
  edge (graph_of hashes T) u v -> edge (graph_of hashes T) v u.
Proof.
  rewrite !graph_of_edge. intros (Hu & Hv & Hne & Hc).
  rewrite close_sym. repeat split; try assumption. congruence.
Qed.

Lemma graph_of_nonempty (u : string) :
  is_Some (graph_of hashes T !! u) ->
  exists v, edge (graph_of hashes T) u v /\ v <> u.
Proof.
  intros Hu.
  assert (Hf : adj_filled (graph_of hashes T)).
  { apply foldl_add_edge_filled. intros x Hx.
    rewrite lookup_empty in Hx. now destruct Hx. }
  specialize (Hf u Hu).
  destruct (adj_get (graph_of hashes T) u) as [|v vs] eqn:E; [congruence|].
  assert (Hv : edge (graph_of hashes T) u v) by (unfold edge; rewrite E; now left).
  exists v. split; [exact Hv|].
  apply graph_of_edge in Hv. destruct Hv as (_ & _ & Hne & _). congruence.
Qed.

End Adjacency.

(** ** The dict of fingerprints *)

Lemma dict_keys_set (d : Dict) (k : string) (v : ImageHash) :
  dict_keys (dict_set d k v)
  = if decide (k ∈ dict_keys d) then dict_keys d else dict_keys d ++ [k].
Proof.
  induction d as [|[k' v'] d IH]; simpl.
  - reflexivity.
  - destruct (String.eqb_spec k' k) as [Heq|Hne]; [subst k'|]; simpl.
    + destruct (decide (k ∈ k :: dict_keys d)) as [H|H]; [reflexivity|].
      exfalso. apply H. now left.
    + rewrite IH. unfold dict_keys. simpl.
      destruct (decide (k ∈ map fst d)) as [Hin|Hnin];
        destruct (decide (k ∈ k' :: map fst d)) as [Hin'|Hnin'];
        try reflexivity.
      * exfalso. apply Hnin'. now right.
      * exfalso. apply elem_of_cons in Hin'. destruct Hin'; congruence.
Qed.

Lemma dict_get_set (d : Dict) (k k' : string) (v : ImageHash) :
  dict_get (dict_set d k v) k' = if decide (k = k') then v else dict_get d k'.
Proof.
  induction d as [|[k0 v0] d IH]; simpl.
  - destruct (String.eqb_spec k k'); case_decide; congruence.
  - destruct (String.eqb_spec k0 k) as [Heq|Hne]; [subst k0|]; simpl.
    + destruct (String.eqb_spec k k'); case_decide; congruence.
    + destruct (String.eqb_spec k0 k'); [|exact IH].
      case_decide; congruence.
Qed.

(** The dict the hashing loop leaves, apart from the counter and the log. *)
Definition store_hash (w : World) (hash_size : Z) (hashes : Dict)
  (img_path : string) : Dict :=
  match image_phash w img_path hash_size with
  | Some hash_val => dict_set hashes img_path hash_val
  | None => hashes
  end.

Definition hashes_of (w : World) (hash_size : Z) (image_files : list string) : Dict :=
  foldl (store_hash w hash_size) [] image_files.

(** The log of the hashing loop when [cnt] images were attempted before. *)
Fixpoint hash_trace (cb : bool) (total_images cnt : Z) (image_files : list string)
  : list Action :=
  match image_files with
  | [] => []
  | img_path :: rest =>
      Open img_path
      :: notify cb (cnt + 1) (total_images * 2) (MsgHashing (cnt + 1) total_images)
      ++ hash_trace cb total_images (cnt + 1) rest
  end.

Lemma foldl_hash_step (w : World) (hash_size : Z) (cb : bool) (total_images : Z)
  (image_files : list string) (d : Dict) (cnt : Z) (tr : list Action) :
  foldl (hash_step w hash_size cb total_images) (d, cnt, tr) image_files
  = (foldl (store_hash w hash_size) d image_files,
     cnt + Z.of_nat (length image_files),
     tr ++ hash_trace cb total_images cnt image_files).
Proof.
  revert d cnt tr.
  induction image_files as [|p rest IH]; intros d cnt tr; cbn [foldl].
  - simpl. now rewrite Z.add_0_r, app_nil_r.
  - unfold hash_step at 2. rewrite IH. cbn [length hash_trace].
    unfold store_hash at 2. rewrite <- app_assoc. simpl.
    f_equal. f_equal. lia.
Qed.

Lemma hash_images_eq (w : World) (hash_size : Z) (cb : bool) (total_images : Z)
  (image_files : list string) :
  hash_images w hash_size cb total_images image_files
  = (hashes_of w hash_size image_files,
     Z.of_nat (length image_files),
     hash_trace cb total_images 0 image_files).
Proof. unfold hash_images. now rewrite foldl_hash_step. Qed.

Section Fingerprints.

Variables (w : World) (hash_size : Z).

(** The dict holds, once each, exactly the paths met so far whose
    hashing succeeded, each with the hash the oracle gives. *)
Definition dict_ok (seen : list string) (d : Dict) : Prop :=
  NoDup (dict_keys d)
  /\ (forall p, p ∈ dict_keys d
                <-> p ∈ seen /\ is_Some (image_phash w p hash_size))
  /\ (forall p, p ∈ dict_keys d ->
                image_phash w p hash_size = Some (dict_get d p)).

Lemma store_hash_ok (seen : list string) (d : Dict) (p : string) :
  dict_ok seen d -> dict_ok (seen ++ [p]) (store_hash w hash_size d p).
Proof.
  intros (Hnd & Hkeys & Hval). unfold store_hash.
  destruct (image_phash w p hash_size) as [h|] eqn:Eh.
  - split; [|split].
    + rewrite dict_keys_set. case_decide as Hin; [exact Hnd|].
      apply NoDup_app. split; [exact Hnd|]. split; [|apply NoDup_singleton].
      intros x Hx Hx'. apply list_elem_of_singleton in Hx'. now subst.
    + intros x. rewrite dict_keys_set, elem_of_app, list_elem_of_singleton.
      case_decide as Hin.
      * rewrite Hkeys. split; [intros [? ?]; split; [now left|assumption]|].
        intros [[Hx| ->] Hs]; [now split|]. now apply Hkeys.
      * rewrite elem_of_app, list_elem_of_singleton, Hkeys. split.
        -- intros [[Hx Hs]| ->]; [split; [now left|exact Hs]|].
           split; [now right|]. rewrite Eh. eauto.
        -- intros [[Hx| ->] Hs]; [left; now split|now right].
    + intros x Hx. rewrite dict_get_set. case_decide as Hpx; [now subst|].
      apply Hval. rewrite dict_keys_set in Hx. case_decide; [exact Hx|].
      apply elem_of_app in Hx. destruct Hx as [Hx|Hx]; [exact Hx|].
      apply list_elem_of_singleton in Hx. congruence.
  - split; [exact Hnd|]. split; [|exact Hval].
    intros x. rewrite Hkeys, elem_of_app, list_elem_of_singleton. split.
    + intros [Hx Hs]. split; [now left|exact Hs].
    + intros [[Hx| ->] Hs]; [now split|]. rewrite Eh in Hs. now destruct Hs.
Qed.

Lemma foldl_store_hash_ok (files seen : list string) (d : Dict) :
  dict_ok seen d ->
  dict_ok (seen ++ files) (foldl (store_hash w hash_size) d files).
Proof.
  revert seen d. induction files as [|p rest IH]; intros seen d Hok;
    cbn [foldl].
  - now rewrite app_nil_r.
  - replace (seen ++ p :: rest) with ((seen ++ [p]) ++ rest)
      by (now rewrite <- app_assoc).
    apply IH. now apply store_hash_ok.
Qed.

Lemma hashes_of_ok (files : list string) :
  dict_ok files (hashes_of w hash_size files).
Proof.
  apply (foldl_store_hash_ok files [] []).
  split; [constructor|]. split.
  - intros p. split; [intros H; inversion H|intros [H _]; inversion H].
  - intros p H. inversion H.
Qed.

End Fingerprints.

(** ** The candidate files *)

Lemma collect_image_files_elem_of (folder_path : string)
  (all_files : list string) (p : string) :
  p ∈ collect_image_files folder_path all_files
  <-> exists filename, filename ∈ all_files /\ is_candidate filename = true
                       /\ p = os_path_join folder_path filename.
Proof.
  unfold collect_image_files.
  set (f := fun (image_files : list string) filename =>
              if is_candidate filename
              then image_files ++ [os_path_join folder_path filename]
              else image_files).
  assert (H : forall l acc,
            p ∈ foldl f acc l
            <-> p ∈ acc \/ exists filename,
                  filename ∈ l /\ is_candidate filename = true
                  /\ p = os_path_join folder_path filename).
  { induction l as [|n l IH]; intros acc; cbn [foldl].
    - split; [now left|]. intros [H|(n & H & _)]; [exact H|inversion H].
    - rewrite IH. unfold f. split.
      + intros [H|(n' & Hin & Hc & Hp)].
        * destruct (is_candidate n) eqn:Ec; [|now left].
          apply elem_of_app in H. destruct H as [H|H]; [now left|].
          apply list_elem_of_singleton in H. right. exists n.
          split; [now left|now split].
        * right. exists n'. split; [now right|now split].
      + intros [H|(n' & Hin & Hc & Hp)].
        * left. destruct (is_candidate n); [|exact H].
          apply elem_of_app. now left.
        * apply elem_of_cons in Hin. destruct Hin as [->|Hin].
          -- left. rewrite Hc. apply elem_of_app. right.
             now apply list_elem_of_singleton.
          -- right. now exists n'. }
  rewrite H. split; [|now right]. intros [Hp|Hp]; [inversion Hp|exact Hp].
Qed.

(** ** [find_similar_images], phase by phase *)

(** The groups returned for a listing [all_files]. *)
Definition groups_of (w : World) (folder_path : string)
  (hash_size similarity_threshold : Z) (all_files : list string)
  : gmap string (list string) :=
  let hashes := hashes_of w hash_size (collect_image_files folder_path all_files) in
  extract_groups (graph_of hashes similarity_threshold) (dict_keys hashes).

(** The log of a run that got past the listing. *)
Definition scan_trace (w : World) (folder_path : string)
  (hash_size similarity_threshold : Z) (cb : bool) (all_files : list string)
  : list Action :=
  let image_files := collect_image_files folder_path all_files in
  let total_images := Z.of_nat (length image_files) in
  let hashes := hashes_of w hash_size image_files in
  let img_paths := dict_keys hashes in
  let possible := Z.of_nat (length (all_pairs img_paths)) in
  let steps := total_images + possible in
  match image_files with
  | [] => notify cb 1 1 MsgNoSupported
  | _ :: _ =>
      notify cb 0 (total_images * 2) (MsgHashStart total_images)
      ++ hash_trace cb total_images 0 image_files
      ++ (if dict_is_empty hashes
          then notify cb (total_images * 2) (total_images * 2) MsgNoneProcessed
          else rows_trace cb total_images possible steps 0 img_paths
               ++ notify cb steps steps
                    (MsgDone (Z.of_nat (size (groups_of w folder_path hash_size
                                                similarity_threshold all_files)))))
  end.

Lemma find_similar_images_eq (w : World) (folder_path : string)
  (hash_size similarity_threshold : Z) (cb : bool) :
  find_similar_images w folder_path hash_size similarity_threshold cb
  = if negb (os_path_isdir w folder_path)
    then (notify cb 0 1 (MsgFolderNotFound folder_path), None)
    else match os_listdir w folder_path with
         | ListOSError e => (notify cb 0 1 (MsgListError e), None)
         | ListOk all_files =>
             (scan_trace w folder_path hash_size similarity_threshold cb all_files,
              Some (groups_of w folder_path hash_size similarity_threshold all_files))
         end.
Proof.
  unfold find_similar_images, scan_trace, groups_of.
  destruct (negb (os_path_isdir w folder_path)); [reflexivity|].
  destruct (os_listdir w folder_path) as [all_files|e]; [|reflexivity].
  destruct (collect_image_files folder_path all_files) as [|p files] eqn:Ef;
    [reflexivity|].
  rewrite hash_images_eq.
  destruct (hashes_of w hash_size (p :: files)) as [|kv hashes] eqn:Eh.
  - reflexivity.
  - cbn [dict_is_empty]. rewrite build_graph_eq, <- all_pairs_length.
    reflexivity.
Qed.

(** ** The similarity graph of a world *)

(** [p] is the path of a candidate entry of the listing whose hashing
    succeeds. *)
Definition fingerprinted (w : World) (folder_path : string) (hash_size : Z)
  (p : string) : Prop :=
  exists all_files filename,
    os_listdir w folder_path = ListOk all_files
    /\ filename ∈ all_files
    /\ is_candidate filename = true
    /\ p = os_path_join folder_path filename
    /\ is_Some (image_phash w p hash_size).

(** An edge of the similarity graph: two distinct fingerprinted images
    whose fingerprints are within the threshold. *)
Definition similar (w : World) (folder_path : string)
  (hash_size similarity_threshold : Z) (a b : string) : Prop :=
  fingerprinted w folder_path hash_size a
  /\ fingerprinted w folder_path hash_size b
  /\ a <> b
  /\ exists ha hb,
       image_phash w a hash_size = Some ha
       /\ image_phash w b hash_size = Some hb
       /\ hash_sub ha hb <= similarity_threshold.

(** Two paths are in the same connected component. *)
Definition connected (w : World) (folder_path : string)
  (hash_size similarity_threshold : Z) : relation string :=
  rtc (similar w folder_path hash_size similarity_threshold).

(** [g] is the sorted list of the members of the component of [k], which
    has at least two members, and [k] is the least of them. *)
Definition is_group (w : World) (folder_path : string)
  (hash_size similarity_threshold : Z) (k : string) (g : list string) : Prop :=
  k ∈ g
  /\ (forall x, x ∈ g -> String.le k x)
  /\ StronglySorted String.le g
  /\ NoDup g
  /\ (2 <= length g)%nat
  /\ (forall x, x ∈ g <-> connected w folder_path hash_size similarity_threshold k x).

Section Glue.

Variables (w : World) (folder_path : string) (hash_size T : Z).
Variable all_files : list string.
Hypothesis Hlist : os_listdir w folder_path = ListOk all_files.

Let hashes := hashes_of w hash_size (collect_image_files folder_path all_files).

Lemma keys_fingerprinted (p : string) :
  p ∈ dict_keys hashes <-> fingerprinted w folder_path hash_size p.
Proof.
  destruct (hashes_of_ok w hash_size (collect_image_files folder_path all_files))
    as (_ & Hkeys & _).
  fold hashes in Hkeys. rewrite Hkeys, collect_image_files_elem_of.
  unfold fingerprinted. rewrite Hlist. split.
  - intros [(n & Hn & Hc & Hp) Hs]. now exists all_files, n.
  - intros (l & n & Hl & Hn & Hc & Hp & Hs). inversion Hl; subst l.
    split; [now exists n|exact Hs].
Qed.

Lemma edge_similar (a b : string) :
  edge (graph_of hashes T) a b <-> similar w folder_path hash_size T a b.
Proof.
  destruct (hashes_of_ok w hash_size (collect_image_files folder_path all_files))
    as (Hnd & _ & Hval).
  fold hashes in Hnd, Hval.
  rewrite (graph_of_edge hashes T Hnd). unfold similar, close.
  rewrite !keys_fingerprinted. split.
  - intros (Ha & Hb & Hne & Hc).
    split; [exact Ha|]. split; [exact Hb|]. split; [exact Hne|].
    exists (dict_get hashes a), (dict_get hashes b).
    split; [apply Hval; now apply keys_fingerprinted|].
    split; [apply Hval; now apply keys_fingerprinted|].
    now apply Z.leb_le.
  - intros (Ha & Hb & Hne & ha & hb & Hha & Hhb & Hle).
    split; [exact Ha|]. split; [exact Hb|]. split; [exact Hne|].
    apply Z.leb_le.
    apply keys_fingerprinted, Hval in Ha. apply keys_fingerprinted, Hval in Hb.
    congruence.
Qed.

Lemma connected_edge (a b : string) :
  rtc (edge (graph_of hashes T)) a b
  <-> connected w folder_path hash_size T a b.
Proof.
  unfold connected.
  split; apply rtc_subrel; intros x y; apply edge_similar.
Qed.

Lemma groups_of_spec :
  (forall k g,
      groups_of w folder_path hash_size T all_files !! k = Some g ->
      is_group w folder_path hash_size T k g)
  /\ (forall a b,
        similar w folder_path hash_size T a b ->
        exists k g,
          groups_of w folder_path hash_size T all_files !! k = Some g
          /\ a ∈ g).
Proof.
  destruct (hashes_of_ok w hash_size (collect_image_files folder_path all_files))
    as (Hnd & _ & _).
  fold hashes in Hnd.
  destruct (extract_groups_spec (graph_of hashes T)
              (graph_of_sym hashes T Hnd) (graph_of_nonempty hashes T Hnd)
              (dict_keys hashes)) as [Hgroups Hcover].
  unfold groups_of. fold hashes. split.
  - intros k g Hk. destruct (Hgroups k g Hk) as (H1 & H2 & H3 & H4 & H5 & H6).
    unfold is_group. repeat (split; [assumption|]).
    intros x. rewrite H6. apply connected_edge.
  - intros a b Hab. apply edge_similar in Hab.
    apply Hcover.
    + apply (graph_of_edge hashes T Hnd) in Hab. now destruct Hab.
    + now apply (edge_is_Some _ a b).
Qed.

End Glue.

(** ** Groups and components of the similarity graph *)

Section Groups.

Variables (w : World) (folder_path : string) (hash_size T : Z).

#[local] Abbreviation similar' := (similar w folder_path hash_size T).
#[local] Abbreviation connected' := (connected w folder_path hash_size T).
#[local] Abbreviation is_group' := (is_group w folder_path hash_size T).

Lemma similar_sym (a b : string) : similar' a b -> similar' b a.
Proof.
  intros (Ha & Hb & Hne & ha & hb & Hha & Hhb & Hle).
  split; [exact Hb|]. split; [exact Ha|]. split; [congruence|].
  exists hb, ha. rewrite hash_sub_sym. now repeat split.
Qed.

Lemma connected_symm (a b : string) : connected' a b -> connected' b a.
Proof.
  unfold connected. induction 1 as [|x y z Hxy _ IH]; [reflexivity|].
  eapply rtc_r; [exact IH|]. now apply similar_sym.
Qed.

Lemma connected_trans (a b c : string) :
  connected' a b -> connected' b c -> connected' a c.
Proof. unfold connected. intros H1 H2. now transitivity b. Qed.

(** A component with a second member has an edge at each member. *)
Lemma connected_other_similar (a b : string) :
  connected' a b -> b <> a -> exists c, similar' a c.
Proof.
  intros Hab Hne. apply rtc_inv in Hab.
  destruct Hab as [->|(c & Hac & _)]; [congruence|]. now exists c.
Qed.

Lemma is_group_similar (k : string) (g : list string) :
  is_group' k g -> exists b, similar' k b.
Proof.
  intros (Hk & _ & _ & Hnd & Hlen & Hmem).
  assert (Hx : exists x, x ∈ g /\ x <> k).
  { destruct g as [|x [|y g]]; simpl in Hlen; try lia.
    destruct (decide (x = k)) as [->|Hxk].
    - exists y. split; [right; now left|].
      intros ->. apply NoDup_cons in Hnd. destruct Hnd as [Hnd _].
      apply Hnd. now left.
    - exists x. split; [now left|exact Hxk]. }
  destruct Hx as (x & Hx & Hxk).
  apply (connected_other_similar k x); [now apply Hmem|exact Hxk].
Qed.

Lemma is_group_fingerprinted (k : string) (g : list string) (x : string) :
  is_group' k g -> x ∈ g -> fingerprinted w folder_path hash_size x.
Proof.
  intros Hg Hx. destruct (is_group_similar k g Hg) as (b & Hkb).
  destruct Hg as (_ & _ & _ & _ & _ & Hmem).
  apply Hmem in Hx. apply rtc_inv_r in Hx.
  destruct Hx as [<-|(y & _ & Hyx)].
  - now destruct Hkb.
  - now destruct Hyx as (_ & Hx & _).
Qed.

(** Two groups that share a member are the same entry. *)
Lemma is_group_unique (k1 k2 : string) (g1 g2 : list string) (x : string) :
  is_group' k1 g1 -> is_group' k2 g2 -> x ∈ g1 -> x ∈ g2 ->
  k1 = k2 /\ g1 = g2.
Proof.
  intros (Hk1 & Hmin1 & Hs1 & Hnd1 & _ & Hmem1)
         (Hk2 & Hmin2 & Hs2 & Hnd2 & _ & Hmem2) Hx1 Hx2.
  apply Hmem1 in Hx1. apply Hmem2 in Hx2.
  assert (H12 : connected' k1 k2).
  { eapply connected_trans; [exact Hx1|]. now apply connected_symm. }
  assert (Hk : k1 = k2).
  { apply (anti_symm String.le).
    - apply Hmin1. now apply Hmem1.
    - apply Hmin2. apply Hmem2. now apply connected_symm. }
  split; [exact Hk|]. subst k2.
  apply (StronglySorted_unique String.le); [exact Hs1|exact Hs2|].
  apply NoDup_Permutation; [exact Hnd1|exact Hnd2|].
  intros y. now rewrite Hmem1, Hmem2.
Qed.

(** What a returned mapping holds. *)
Lemma result_groups (cb : bool) (tr : list Action)
  (m : gmap string (list string)) :
  find_similar_images w folder_path hash_size T cb = (tr, Some m) ->
  (forall k g, m !! k = Some g -> is_group' k g)
  /\ (forall a b, similar' a b -> exists k g, m !! k = Some g /\ a ∈ g).
Proof.
  rewrite find_similar_images_eq.
  destruct (negb (os_path_isdir w folder_path)); [discriminate|].
  destruct (os_listdir w folder_path) as [all_files|e] eqn:El; [|discriminate].
  intros Heq. inversion Heq; subst.
  now apply groups_of_spec.
Qed.

End Groups.

(** ** The components of the similarity graph (C1) *)

(** C1. For every run of [find_similar_images] that returns a mapping [m]:
    every entry of [m] is keyed by the lexicographically least member of a
    connected component of the similarity graph over the fingerprinted
    images, the component has at least two members, and the value is the
    sorted, duplicate-free list of all its members (the key included);
    every component with at least two members has exactly one entry; a
    component of size one has none. *)
Theorem find_similar_images_components (w : World) (folder_path : string)
  (hash_size similarity_threshold : Z) (cb : bool) (tr : list Action)
  (m : gmap string (list string)) :
  find_similar_images w folder_path hash_size similarity_threshold cb
  = (tr, Some m) ->
  (forall k g, m !! k = Some g ->
     is_group w folder_path hash_size similarity_threshold k g)
  /\ (forall a b,
        connected w folder_path hash_size similarity_threshold a b -> b <> a ->
        exists! k, exists g, m !! k = Some g /\ a ∈ g)
  /\ (forall a,
        (forall b, connected w folder_path hash_size similarity_threshold a b ->
                   b = a) ->
        forall k g, m !! k = Some g -> a ∉ g).
Proof.
  intros Hrun.
  destruct (result_groups _ _ _ _ _ _ _ Hrun) as [Hgroups Hcover].
  split; [exact Hgroups|]. split.
  - intros a b Hab Hne.
    destruct (connected_other_similar _ _ _ _ a b Hab Hne) as (c & Hac).
    destruct (Hcover a c Hac) as (k & g & Hk & Ha).
    exists k. split; [now exists g|].
    intros k' (g' & Hk' & Ha').
    now destruct (is_group_unique _ _ _ _ k k' g g' a
                    (Hgroups _ _ Hk) (Hgroups _ _ Hk') Ha Ha').
  - intros a Hsingle k g Hk Ha.
    pose proof (Hgroups _ _ Hk) as Hg.
    destruct (is_group_similar _ _ _ _ k g Hg) as (b & Hkb).
    destruct Hg as (_ & _ & _ & _ & _ & Hmem).
    apply Hmem in Ha.
    assert (Hka : k = a).
    { apply Hsingle. now apply connected_symm. }
    subst k. pose proof Hkb as (_ & _ & Hne & _).
    apply Hne. symmetry. apply Hsingle. unfold connected. now apply rtc_once.
Qed.

(** ** A small folder, used to exercise the statements

    The folder [d] lists six entries: four images that hash, one image that
    fails to open and a text file. [a.png] and [b.jpg] have the same
    fingerprint, [c.PNG] is at distance 2 from both, and [z.gif] is far from
    all of them. *)

Definition demo_phash (p : string) (hash_size : Z) : option ImageHash :=
  if String.eqb p "d/a.png" then Some 5%N
  else if String.eqb p "d/b.jpg" then Some 5%N
  else if String.eqb p "d/c.PNG" then Some 6%N
  else if String.eqb p "d/z.gif" then Some 255%N
  else None.

Definition demo_world : World :=
  {| os_path_isdir := fun p => String.eqb p "d";
     os_listdir := fun p =>
       if String.eqb p "d"
       then ListOk ["c.PNG"; "b.jpg"; "notes.txt"; "a.png"; "z.gif"; "bad.bmp"]%string
       else ListOSError "not found";
     image_phash := demo_phash |}.

(** The groups at threshold 2. *)
Definition demo_groups : gmap string (list string) :=
  {[ "d/a.png"%string := ["d/a.png"; "d/b.jpg"; "d/c.PNG"]%string ]}.

(** The groups at threshold 1. *)
Definition demo_groups_1 : gmap string (list string) :=
  {[ "d/a.png"%string := ["d/a.png"; "d/b.jpg"]%string ]}.

Definition demo_trace : list Action :=
  [Progress 0 10 (MsgHashStart 5);
   Open "d/c.PNG"; Progress 1 10 (MsgHashing 1 5);
   Open "d/b.jpg"; Progress 2 10 (MsgHashing 2 5);
   Open "d/a.png"; Progress 3 10 (MsgHashing 3 5);
   Open "d/z.gif"; Progress 4 10 (MsgHashing 4 5);
   Open "d/bad.bmp"; Progress 5 10 (MsgHashing 5 5);
   Progress 5 11 (MsgComparing 0 6);
   Sub "d/c.PNG" "d/b.jpg"; Sub "d/c.PNG" "d/a.png"; Sub "d/c.PNG" "d/z.gif";
   Progress 8 11 (MsgComparing 3 6);
   Sub "d/b.jpg" "d/a.png"; Sub "d/b.jpg" "d/z.gif";
   Progress 10 11 (MsgComparing 5 6);
   Sub "d/a.png" "d/z.gif";
   Progress 11 11 (MsgComparing 6 6);
   Progress 11 11 (MsgDone 1)]%string.

Lemma demo_run :
  find_similar_images demo_world "d" 8 2 true = (demo_trace, Some demo_groups).
Proof. vm_compute. reflexivity. Qed.

Lemma find_similar_images_components_witness :
  find_similar_images demo_world "d" 8 2 true = (demo_trace, Some demo_groups)
  /\ (forall k g, demo_groups !! k = Some g -> is_group demo_world "d" 8 2 k g).
Proof.
  split; [vm_compute; reflexivity|].
  apply (find_similar_images_components demo_world "d" 8 2 true demo_trace).
  vm_compute. reflexivity.
Defined.

(** ** The groups form a partition (C3) *)

(** C3. In every returned mapping no group has fewer than two members,
    every value list is sorted and free of duplicates, every path in a group
    is a fingerprinted image, and a path that occurs in the value lists of
    two keys forces the keys to be equal: the value lists of distinct keys
    are disjoint. *)
Theorem find_similar_images_partition (w : World) (folder_path : string)
  (hash_size similarity_threshold : Z) (cb : bool) (tr : list Action)
  (m : gmap string (list string)) :
  find_similar_images w folder_path hash_size similarity_threshold cb
  = (tr, Some m) ->
  (forall k g, m !! k = Some g ->
     (2 <= length g)%nat
     /\ StronglySorted String.le g
     /\ NoDup g
     /\ forall x, x ∈ g -> fingerprinted w folder_path hash_size x)
  /\ (forall k1 k2 g1 g2 x,
        m !! k1 = Some g1 -> m !! k2 = Some g2 -> x ∈ g1 -> x ∈ g2 -> k1 = k2).
Proof.
  intros Hrun.
  destruct (result_groups _ _ _ _ _ _ _ Hrun) as [Hgroups _].
  split.
  - intros k g Hk. pose proof (Hgroups _ _ Hk) as Hg.
    pose proof Hg as (_ & _ & Hs & Hnd & Hlen & _).
    split; [exact Hlen|]. split; [exact Hs|]. split; [exact Hnd|].
    intros x Hx. now apply (is_group_fingerprinted _ _ _ _ k g x Hg).
  - intros k1 k2 g1 g2 x Hk1 Hk2 Hx1 Hx2.
    now destruct (is_group_unique _ _ _ _ k1 k2 g1 g2 x
                    (Hgroups _ _ Hk1) (Hgroups _ _ Hk2) Hx1 Hx2).
Qed.

Lemma find_similar_images_partition_witness :
  find_similar_images demo_world "d" 8 2 true = (demo_trace, Some demo_groups)
  /\ (forall k1 k2 g1 g2 x,
        demo_groups !! k1 = Some g1 -> demo_groups !! k2 = Some g2 ->
        x ∈ g1 -> x ∈ g2 -> k1 = k2).
Proof.
  split; [vm_compute; reflexivity|].
  apply (find_similar_images_partition demo_world "d" 8 2 true demo_trace).
  vm_compute. reflexivity.
Defined.

(** ** Raising the threshold (C5) *)

Lemma similar_mono (w : World) (folder_path : string) (hash_size T1 T2 : Z)
  (a b : string) :
  T1 <= T2 ->
  similar w folder_path hash_size T1 a b -> similar w folder_path hash_size T2 a b.
Proof.
  intros HT (Ha & Hb & Hne & ha & hb & Hha & Hhb & Hle).
  split; [exact Ha|]. split; [exact Hb|]. split; [exact Hne|].
  exists ha, hb. split; [exact Hha|]. split; [exact Hhb|]. lia.
Qed.

(** C5. For a fixed folder and thresholds [T1 < T2], every group returned
    at [T1] is contained in a group returned at [T2], which is at least as
    long: raising the threshold merges groups or adds members, and never
    splits or shrinks a group. *)
Theorem threshold_monotone (w : World) (folder_path : string)
  (hash_size T1 T2 : Z) (cb1 cb2 : bool) (tr1 tr2 : list Action)
  (m1 m2 : gmap string (list string)) :
  T1 < T2 ->
  find_similar_images w folder_path hash_size T1 cb1 = (tr1, Some m1) ->
  find_similar_images w folder_path hash_size T2 cb2 = (tr2, Some m2) ->
  forall k g, m1 !! k = Some g ->
    exists k' g', m2 !! k' = Some g'
                  /\ (forall x, x ∈ g -> x ∈ g')
                  /\ (length g <= length g')%nat.
Proof.
  intros HT Hrun1 Hrun2 k g Hk.
  destruct (result_groups _ _ _ _ _ _ _ Hrun1) as [Hgroups1 _].
  destruct (result_groups _ _ _ _ _ _ _ Hrun2) as [Hgroups2 Hcover2].
  pose proof (Hgroups1 _ _ Hk) as Hg.
  destruct (is_group_similar _ _ _ _ k g Hg) as (b & Hkb).
  apply (similar_mono _ _ _ T1 T2) in Hkb; [|lia].
  destruct (Hcover2 k b Hkb) as (k' & g' & Hk' & Hkg').
  exists k', g'. split; [exact Hk'|].
  destruct Hg as (_ & _ & _ & Hnd & _ & Hmem).
  destruct (Hgroups2 _ _ Hk') as (_ & _ & _ & _ & _ & Hmem').
  assert (Hsub : forall x, x ∈ g -> x ∈ g').
  { intros x Hx. apply Hmem'. apply Hmem in Hx.
    apply (connected_trans _ _ _ _ k' k x); [now apply Hmem'|].
    unfold connected in *. eapply rtc_subrel; [|exact Hx].
    intros y z. apply similar_mono. lia. }
  split; [exact Hsub|].
  apply submseteq_length. now apply NoDup_submseteq.
Qed.

Lemma threshold_monotone_witness :
  1 < 2
  /\ exists k' g', demo_groups !! k' = Some g'
                   /\ (forall x, x ∈ ["d/a.png"; "d/b.jpg"]%string -> x ∈ g')
                   /\ (length ["d/a.png"; "d/b.jpg"]%string <= length g')%nat.
Proof.
  split; [lia|].
  apply (threshold_monotone demo_world "d" 8 1 2 true true
           demo_trace demo_trace
           demo_groups_1 demo_groups
           ltac:(lia) ltac:(vm_compute; reflexivity) ltac:(vm_compute; reflexivity)
           "d/a.png"%string).
  vm_compute. reflexivity.
Defined.

(** ** The order of enumeration (C4) *)

(** A mapping is determined by the similarity graph: two mappings that
    both hold the groups of the graph are equal. *)
Lemma groups_determined (w : World) (folder_path : string) (hash_size T : Z)
  (m1 m2 : gmap string (list string)) :
  (forall k g, m1 !! k = Some g -> is_group w folder_path hash_size T k g) ->
  (forall a b, similar w folder_path hash_size T a b ->
               exists k g, m1 !! k = Some g /\ a ∈ g) ->
  (forall k g, m2 !! k = Some g -> is_group w folder_path hash_size T k g) ->
  (forall a b, similar w folder_path hash_size T a b ->
               exists k g, m2 !! k = Some g /\ a ∈ g) ->
  m1 = m2.
Proof.
  intros Hg1 Hc1 Hg2 Hc2.
  assert (Hhalf : forall (ma mb : gmap string (list string)),
            (forall k g, ma !! k = Some g -> is_group w folder_path hash_size T k g) ->
            (forall k g, mb !! k = Some g -> is_group w folder_path hash_size T k g) ->
            (forall a b, similar w folder_path hash_size T a b ->
                         exists k g, mb !! k = Some g /\ a ∈ g) ->
            forall k g, ma !! k = Some g -> mb !! k = Some g).
  { intros ma mb Hga Hgb Hcb k g Hk.
    pose proof (Hga _ _ Hk) as Hg.
    destruct (is_group_similar _ _ _ _ k g Hg) as (b & Hkb).
    destruct (Hcb k b Hkb) as (k' & g' & Hk' & Hin).
    pose proof Hg as (Hkg & _).
    destruct (is_group_unique _ _ _ _ k k' g g' k Hg (Hgb _ _ Hk') Hkg Hin)
      as [-> ->].
    exact Hk'. }
  apply map_eq. intros k.
  destruct (m1 !! k) as [g|] eqn:E1.
  - symmetry. now apply (Hhalf m1 m2).
  - destruct (m2 !! k) as [g|] eqn:E2; [|reflexivity].
    rewrite <- E1. now apply (Hhalf m2 m1).
Qed.

Section TwoListings.

Variables (w1 w2 : World) (folder_path : string) (hash_size T : Z).
Variables (names1 names2 : list string).
Hypothesis Hhash : forall p, image_phash w1 p hash_size = image_phash w2 p hash_size.
Hypothesis Hlist1 : os_listdir w1 folder_path = ListOk names1.
Hypothesis Hlist2 : os_listdir w2 folder_path = ListOk names2.
Hypothesis Hperm : names1 ≡ₚ names2.

Lemma fingerprinted_perm (p : string) :
  fingerprinted w2 folder_path hash_size p
  -> fingerprinted w1 folder_path hash_size p.
Proof.
  intros (l & n & Hl & Hn & Hc & Hp & Hs).
  rewrite Hlist2 in Hl. inversion Hl; subst l.
  exists names1, n. split; [exact Hlist1|]. split; [now rewrite Hperm|].
  split; [exact Hc|]. split; [exact Hp|]. now rewrite Hhash.
Qed.

Lemma similar_perm (a b : string) :
  similar w2 folder_path hash_size T a b -> similar w1 folder_path hash_size T a b.
Proof.
  intros (Ha & Hb & Hne & ha & hb & Hha & Hhb & Hle).
  split; [now apply fingerprinted_perm|]. split; [now apply fingerprinted_perm|].
  split; [exact Hne|]. exists ha, hb. rewrite !Hhash. now repeat split.
Qed.

End TwoListings.

(** C4. Two runs over the same images, the directory entries being
    enumerated in two different orders, return the same mapping: the same
    keys, each with the same sorted list. *)
Theorem enumeration_order_irrelevant (w1 w2 : World) (folder_path : string)
  (hash_size similarity_threshold : Z) (cb1 cb2 : bool)
  (names1 names2 : list string) :
  os_path_isdir w1 folder_path = os_path_isdir w2 folder_path ->
  (forall p, image_phash w1 p hash_size = image_phash w2 p hash_size) ->
  os_listdir w1 folder_path = ListOk names1 ->
  os_listdir w2 folder_path = ListOk names2 ->
  names1 ≡ₚ names2 ->
  (find_similar_images w1 folder_path hash_size similarity_threshold cb1).2
  = (find_similar_images w2 folder_path hash_size similarity_threshold cb2).2.
Proof.
  intros Hdir Hhash Hl1 Hl2 Hperm.
  rewrite !find_similar_images_eq, Hdir, Hl1, Hl2.
  destruct (negb (os_path_isdir w2 folder_path)); [reflexivity|].
  cbn [snd]. f_equal.
  destruct (groups_of_spec w1 folder_path hash_size similarity_threshold
              names1 Hl1) as [Hg1 Hc1].
  destruct (groups_of_spec w2 folder_path hash_size similarity_threshold
              names2 Hl2) as [Hg2 Hc2].
  assert (Hsim12 : forall a b,
            similar w1 folder_path hash_size similarity_threshold a b ->
            similar w2 folder_path hash_size similarity_threshold a b).
  { intros a b. apply (similar_perm w2 w1 folder_path hash_size
                         similarity_threshold names2 names1);
      [intros p; symmetry; apply Hhash|exact Hl2|exact Hl1|now symmetry]. }
  assert (Hsim21 : forall a b,
            similar w2 folder_path hash_size similarity_threshold a b ->
            similar w1 folder_path hash_size similarity_threshold a b).
  { intros a b. now apply (similar_perm w1 w2 folder_path hash_size
                             similarity_threshold names1 names2). }
  apply (groups_determined w1 folder_path hash_size similarity_threshold);
    [exact Hg1|exact Hc1| |].
  - intros k g Hk. destruct (Hg2 _ _ Hk) as (H1 & H2 & H3 & H4 & H5 & H6).
    unfold is_group. repeat (split; [assumption|]).
    intros x. rewrite H6. unfold connected.
    split; apply rtc_subrel; assumption.
  - intros a b Hab. apply (Hc2 a b). now apply Hsim12.
Qed.

(** The folder [d] of [demo_world], listed in another order. *)
Definition demo_world_reordered : World :=
  {| os_path_isdir := os_path_isdir demo_world;
     os_listdir := fun p =>
       if String.eqb p "d"
       then ListOk ["z.gif"; "a.png"; "bad.bmp"; "notes.txt"; "b.jpg"; "c.PNG"]%string
       else ListOSError "not found";
     image_phash := demo_phash |}.

Lemma enumeration_order_irrelevant_witness :
  ["c.PNG"; "b.jpg"; "notes.txt"; "a.png"; "z.gif"; "bad.bmp"]%string
  ≡ₚ ["z.gif"; "a.png"; "bad.bmp"; "notes.txt"; "b.jpg"; "c.PNG"]%string
  /\ (find_similar_images demo_world "d" 8 2 true).2
     = (find_similar_images demo_world_reordered "d" 8 2 false).2.
Proof.
  assert (Hperm :
            ["c.PNG"; "b.jpg"; "notes.txt"; "a.png"; "z.gif"; "bad.bmp"]%string
            ≡ₚ ["z.gif"; "a.png"; "bad.bmp"; "notes.txt"; "b.jpg"; "c.PNG"]%string).
  { apply NoDup_Permutation.
    - apply (bool_decide_unpack _). vm_compute. exact I.
    - apply (bool_decide_unpack _). vm_compute. exact I.
    - intros x. rewrite !elem_of_cons. rewrite !elem_of_nil. tauto. }
  split; [exact Hperm|].
  apply (enumeration_order_irrelevant demo_world demo_world_reordered "d" 8 2
           true false _ _ eq_refl (fun p => eq_refl) eq_refl eq_refl Hperm).
Defined.

(** ** The failure value and the empty results (C6) *)

Lemma groups_of_empty (w : World) (folder_path : string) (hash_size T : Z)
  (all_files : list string) :
  os_listdir w folder_path = ListOk all_files ->
  (forall a b, ~ similar w folder_path hash_size T a b) ->
  groups_of w folder_path hash_size T all_files = ∅.
Proof.
  intros Hl Hnone.
  destruct (groups_of_spec w folder_path hash_size T all_files Hl) as [Hg _].
  apply map_empty. intros k.
  destruct (groups_of w folder_path hash_size T all_files !! k) as [g|] eqn:E;
    [|reflexivity].
  destruct (is_group_similar _ _ _ _ k g (Hg _ _ E)) as (b & Hkb).
  now destruct (Hnone k b).
Qed.

(** C6. [find_similar_images] returns [None] exactly when the folder is
    not a directory or listing it raises [OSError]. When the listing
    succeeds, each of the three empty cases (no candidate file, no
    fingerprinted image, no pair within the threshold) returns the empty
    mapping, which is not [None]. *)
Theorem failure_is_distinct (w : World) (folder_path : string)
  (hash_size similarity_threshold : Z) (cb : bool) :
  ((find_similar_images w folder_path hash_size similarity_threshold cb).2 = None
   <-> os_path_isdir w folder_path = false
       \/ exists e, os_listdir w folder_path = ListOSError e)
  /\ (forall all_files,
        os_path_isdir w folder_path = true ->
        os_listdir w folder_path = ListOk all_files ->
        ((forall n, n ∈ all_files -> is_candidate n = false) ->
         (find_similar_images w folder_path hash_size similarity_threshold cb).2
         = Some ∅)
        /\ ((forall p, ~ fingerprinted w folder_path hash_size p) ->
            (find_similar_images w folder_path hash_size similarity_threshold cb).2
            = Some ∅)
        /\ ((forall a b,
               ~ similar w folder_path hash_size similarity_threshold a b) ->
            (find_similar_images w folder_path hash_size similarity_threshold cb).2
            = Some ∅))
  /\ Some (∅ : gmap string (list string)) <> None.
Proof.
  rewrite find_similar_images_eq. split; [|split; [|discriminate]].
  - destruct (os_path_isdir w folder_path); cbn [negb].
    + destruct (os_listdir w folder_path) as [all_files|e]; cbn [snd].
      * split; [discriminate|]. intros [H|(e & H)]; discriminate.
      * split; [|reflexivity]. intros _. right. now exists e.
    + cbn [snd]. split; [now left|reflexivity].
  - intros all_files Hdir Hl. rewrite Hdir, Hl. cbn [negb snd].
    assert (Hempty : (forall a b,
                        ~ similar w folder_path hash_size similarity_threshold a b) ->
                     Some (groups_of w folder_path hash_size similarity_threshold
                             all_files) = Some ∅).
    { intros Hnone. f_equal. now apply groups_of_empty. }
    split; [|split].
    + intros Hnc. apply Hempty.
      intros a b ((l & n & Hl' & Hn & Hc & _) & _).
      rewrite Hl in Hl'. inversion Hl'; subst l.
      rewrite (Hnc n Hn) in Hc. discriminate.
    + intros Hnf. apply Hempty. intros a b (Ha & _). now apply (Hnf a).
    + exact Hempty.
Qed.

(** ** The fatal path (C10) *)

(** The two messages that start with "Erro". *)
Definition is_error_message (message : Message) : bool :=
  match message with
  | MsgFolderNotFound _ | MsgListError _ => true
  | _ => false
  end.

(** C10. On the fatal path (the folder is not a directory, or listing it
    raises [OSError]) a run with a progress callback calls it exactly once,
    with current 0, total 1 and an error message, and returns [None]: the
    log of the run holds that one call and nothing else. *)
Theorem fatal_path_reports_once (w : World) (folder_path : string)
  (hash_size similarity_threshold : Z) :
  os_path_isdir w folder_path = false
  \/ (exists e, os_listdir w folder_path = ListOSError e) ->
  exists message,
    is_error_message message = true
    /\ find_similar_images w folder_path hash_size similarity_threshold true
       = ([Progress 0 1 message], None).
Proof.
  intros Hfatal. unfold find_similar_images.
  destruct (os_path_isdir w folder_path) eqn:Hdir; cbn [negb].
  - destruct Hfatal as [Hf|(e & He)]; [discriminate|]. rewrite He.
    exists (MsgListError e). split; reflexivity.
  - exists (MsgFolderNotFound folder_path). split; reflexivity.
Qed.

(** A folder that exists and cannot be listed. *)
Definition locked_world : World :=
  {| os_path_isdir := fun _ => true;
     os_listdir := fun _ => ListOSError "Permission denied";
     image_phash := fun _ _ => None |}.

Lemma fatal_path_reports_once_witness :
  (os_path_isdir locked_world "d" = false
   \/ exists e, os_listdir locked_world "d" = ListOSError e)
  /\ exists message,
       is_error_message message = true
       /\ find_similar_images locked_world "d" 8 5 true
          = ([Progress 0 1 message], None).
Proof.
  assert (H : os_path_isdir locked_world "d" = false
              \/ exists e, os_listdir locked_world "d" = ListOSError e).
  { right. exists "Permission denied"%string. reflexivity. }
  split; [exact H|].
  exact (fatal_path_reports_once locked_world "d" 8 5 H).
Defined.

(** ** The progress events of a scan (C7) *)

(** The calls of the progress callback, in order. *)
Definition progress_events (tr : list Action) : list (Z * Z * Message) :=
  omap (fun a => match a with
                 | Progress current total message => Some (current, total, message)
                 | _ => None
                 end) tr.

Definition currents (tr : list Action) : list Z :=
  map (fun e : Z * Z * Message => e.1.1) (progress_events tr).

Inductive Phase : Type := HashingPhase | ComparisonPhase | NoPhase.

(** The phase a progress message belongs to; the closing messages and the
    error messages belong to none. *)
Definition phase_of (message : Message) : Phase :=
  match message with
  | MsgHashStart _ | MsgHashing _ _ => HashingPhase
  | MsgComparing _ _ => ComparisonPhase
  | _ => NoPhase
  end.

(** A list of numbers that never decreases and stays between two bounds. *)
Definition rising (lo hi : Z) (l : list Z) : Prop :=
  StronglySorted Z.le l /\ Forall (fun c => lo <= c <= hi) l.

Lemma rising_nil (lo hi : Z) : rising lo hi [].
Proof. split; constructor. Qed.

Lemma rising_singleton (lo hi c : Z) : lo <= c <= hi -> rising lo hi [c].
Proof.
  intros H. split; [repeat constructor|]. now repeat constructor.
Qed.

Lemma rising_app (lo mid hi : Z) (l1 l2 : list Z) :
  rising lo mid l1 -> rising mid hi l2 -> mid <= hi -> lo <= mid ->
  rising lo hi (l1 ++ l2).
Proof.
  intros [Hs1 Hb1] [Hs2 Hb2] Hmh Hlm. split.
  - apply StronglySorted_app_2; [|exact Hs1|exact Hs2].
    intros x y Hx Hy.
    rewrite Forall_forall in Hb1, Hb2.
    specialize (Hb1 x Hx). specialize (Hb2 y Hy). lia.
  - apply Forall_app. split.
    + eapply Forall_impl; [exact Hb1|]. intros c Hc. simpl in Hc. lia.
    + eapply Forall_impl; [exact Hb2|]. intros c Hc. simpl in Hc. lia.
Qed.

Lemma progress_events_app (tr1 tr2 : list Action) :
  progress_events (tr1 ++ tr2) = progress_events tr1 ++ progress_events tr2.
Proof. apply omap_app. Qed.

Lemma currents_app (tr1 tr2 : list Action) :
  currents (tr1 ++ tr2) = currents tr1 ++ currents tr2.
Proof. unfold currents. now rewrite progress_events_app, map_app. Qed.

Lemma progress_events_Progress (current total : Z) (message : Message)
  (tr : list Action) :
  progress_events (Progress current total message :: tr)
  = (current, total, message) :: progress_events tr.
Proof. reflexivity. Qed.

Lemma progress_events_single (current total : Z) (message : Message) :
  progress_events [Progress current total message]
  = [(current, total, message)].
Proof. reflexivity. Qed.

Lemma progress_events_Open (p : string) (tr : list Action) :
  progress_events (Open p :: tr) = progress_events tr.
Proof. reflexivity. Qed.

Lemma currents_Progress (current total : Z) (message : Message)
  (tr : list Action) :
  currents (Progress current total message :: tr) = current :: currents tr.
Proof. reflexivity. Qed.

Lemma currents_Open (p : string) (tr : list Action) :
  currents (Open p :: tr) = currents tr.
Proof. reflexivity. Qed.

Lemma progress_events_map_Sub (x : string) (l : list string) :
  progress_events (map (Sub x) l) = [].
Proof. induction l as [|y l IH]; [reflexivity|exact IH]. Qed.

Lemma currents_map_Sub (x : string) (l : list string) :
  currents (map (Sub x) l) = [].
Proof. unfold currents. now rewrite progress_events_map_Sub. Qed.

Lemma hash_trace_events (total_images : Z) (files : list string) (cnt : Z) :
  rising cnt (cnt + Z.of_nat (length files))
    (currents (hash_trace true total_images cnt files))
  /\ Forall (fun e : Z * Z * Message => phase_of e.2 = HashingPhase)
       (progress_events (hash_trace true total_images cnt files)).
Proof.
  revert cnt. induction files as [|p rest IH]; intros cnt.
  - split; [apply rising_nil|constructor].
  - destruct (IH (cnt + 1)) as [Hr Hp].
    cbn [hash_trace notify app length].
    split.
    + rewrite currents_Open, currents_Progress.
      apply (rising_app cnt (cnt + 1) _ [cnt + 1]);
        [apply rising_singleton; lia| |lia|lia].
      replace (cnt + Z.of_nat (S (length rest)))
        with (cnt + 1 + Z.of_nat (length rest)) by lia.
      exact Hr.
    + rewrite progress_events_Open, progress_events_Progress.
      constructor; [reflexivity|exact Hp].
Qed.

Lemma rows_trace_events (total_images possible steps : Z) (l : list string)
  (cnt : Z) :
  rising (total_images + cnt)
    (total_images + cnt + Z.of_nat (length (all_pairs l)))
    (currents (rows_trace true total_images possible steps cnt l))
  /\ Forall (fun e : Z * Z * Message => phase_of e.2 = ComparisonPhase)
       (progress_events (rows_trace true total_images possible steps cnt l)).
Proof.
  revert cnt. induction l as [|x rest IH]; intros cnt.
  - split; [apply rising_nil|constructor].
  - destruct (IH (cnt + Z.of_nat (length rest))) as [Hr Hp].
    cbn [rows_trace notify app all_pairs].
    rewrite length_app, length_map.
    split.
    + rewrite currents_Progress, currents_app, currents_map_Sub. cbn [app].
      apply (rising_app _ (total_images + (cnt + Z.of_nat (length rest))) _
               [total_images + cnt]);
        [apply rising_singleton; lia| |lia|lia].
      replace (total_images + cnt
               + Z.of_nat (length rest + length (all_pairs rest)))
        with (total_images + (cnt + Z.of_nat (length rest))
              + Z.of_nat (length (all_pairs rest))) by lia.
      exact Hr.
    + rewrite progress_events_Progress, progress_events_app,
        progress_events_map_Sub. cbn [app].
      constructor; [reflexivity|exact Hp].
Qed.

Lemma scan_trace_events (w : World) (folder_path : string) (hash_size T : Z)
  (all_files : list string) :
  let tr := scan_trace w folder_path hash_size T true all_files in
  StronglySorted Z.le (currents tr)
  /\ (exists hashing rest,
        progress_events tr = hashing ++ rest
        /\ Forall (fun e : Z * Z * Message => phase_of e.2 <> ComparisonPhase)
             hashing
        /\ Forall (fun e : Z * Z * Message => phase_of e.2 <> HashingPhase) rest)
  /\ exists c message, last (progress_events tr) = Some (c, c, message).
Proof.
  unfold scan_trace.
  destruct (collect_image_files folder_path all_files) as [|p files] eqn:Ef.
  - cbn [notify]. split; [repeat constructor|]. split.
    + exists [], [(1, 1, MsgNoSupported)]. split; [reflexivity|].
      split; repeat constructor. discriminate.
    + now exists 1, MsgNoSupported.
  - set (image_files := p :: files).
    set (N := Z.of_nat (length image_files)).
    set (hashes := hashes_of w hash_size image_files).
    set (P := Z.of_nat (length (all_pairs (dict_keys hashes)))).
    assert (HN : 0 <= N) by (unfold N; lia).
    assert (HP : 0 <= P) by (unfold P; lia).
    destruct (hash_trace_events N image_files 0) as [[HsH HbH] HpH].
    destruct (rows_trace_events N P (N + P) (dict_keys hashes) 0) as [[HsC HbC] HpC].
    fold P in HsC, HbC. fold N in HsH, HbH. cbn [notify].
    set (H := hash_trace true N 0 image_files) in *.
    set (C := rows_trace true N P (N + P) 0 (dict_keys hashes)) in *.
    set (fin := Progress (N + P) (N + P)
                  (MsgDone (Z.of_nat (size (groups_of w folder_path hash_size T
                                              all_files))))).
    set (tail := if dict_is_empty hashes
                 then [Progress (N * 2) (N * 2) MsgNoneProcessed]
                 else C ++ [fin]).
    clearbody N P.
    assert (Htail : rising N (N * 2 + P) (currents tail)
                    /\ Forall (fun e : Z * Z * Message => phase_of e.2 <> HashingPhase)
                         (progress_events tail)
                    /\ exists c message,
                         last (progress_events tail) = Some (c, c, message)).
    { unfold tail. destruct (dict_is_empty hashes).
      - split; [apply rising_singleton; simpl; lia|]. split.
        + repeat constructor. discriminate.
        + now exists (N * 2), MsgNoneProcessed.
      - split; [|split].
        + rewrite currents_app.
          apply (rising_app N (N + P)); [| |lia|lia].
          * split; [exact HsC|]. eapply Forall_impl; [exact HbC|].
            intros c Hc. simpl in Hc. lia.
          * apply rising_singleton. unfold fin. simpl. lia.
        + rewrite progress_events_app. apply Forall_app. split.
          * eapply Forall_impl; [exact HpC|]. intros e He. simpl in He.
            rewrite He. discriminate.
          * repeat constructor. discriminate.
        + rewrite progress_events_app. unfold fin.
          rewrite progress_events_single, last_snoc. now eexists _, _. }
    destruct Htail as ([HsT HbT] & HpT & HlT).
    change (Progress 0 (N * 2) (MsgHashStart N) :: H ++ tail)
      with ([Progress 0 (N * 2) (MsgHashStart N)] ++ H ++ tail).
    split; [|split].
    + rewrite !currents_app.
      apply StronglySorted_app_2; [|repeat constructor|].
      * intros x y Hx Hy. apply list_elem_of_singleton in Hx. cbn in Hx.
        subst x.
        apply elem_of_app in Hy. rewrite Forall_forall in HbH, HbT.
        destruct Hy as [Hy|Hy]; [specialize (HbH y Hy)|specialize (HbT y Hy)];
          lia.
      * apply StronglySorted_app_2; [|exact HsH|exact HsT].
        intros x y Hx Hy. rewrite Forall_forall in HbH, HbT.
        specialize (HbH x Hx). specialize (HbT y Hy). lia.
    + exists ((0, N * 2, MsgHashStart N) :: progress_events H),
             (progress_events tail).
      split; [now rewrite !progress_events_app|]. split; [|exact HpT].
      constructor; [discriminate|].
      eapply Forall_impl; [exact HpH|]. intros e He. simpl in He.
      rewrite He. discriminate.
    + destruct HlT as (c & message & Hlast). exists c, message.
      rewrite !progress_events_app.
      destruct (progress_events tail) as [|e es] eqn:Et using rev_ind;
        [discriminate|].
      rewrite last_snoc in Hlast. rewrite !app_assoc. now rewrite last_snoc.
Qed.

(** C7. In a run with a progress callback the [current] values of the
    events never decrease; the events split into a first part without
    comparison-phase events and a second part without hashing-phase events,
    so every hashing-phase event comes before every comparison-phase event;
    and when the scan completes (a mapping is returned) the last event has
    [current = total]. *)
Theorem progress_ordered (w : World) (folder_path : string)
  (hash_size similarity_threshold : Z) :
  StronglySorted Z.le
    (currents (find_similar_images w folder_path hash_size
                 similarity_threshold true).1)
  /\ (exists hashing rest,
        progress_events (find_similar_images w folder_path hash_size
                           similarity_threshold true).1
        = hashing ++ rest
        /\ Forall (fun e : Z * Z * Message => phase_of e.2 <> ComparisonPhase)
             hashing
        /\ Forall (fun e : Z * Z * Message => phase_of e.2 <> HashingPhase) rest)
  /\ ((find_similar_images w folder_path hash_size similarity_threshold true).2
      <> None ->
      exists c message,
        last (progress_events (find_similar_images w folder_path hash_size
                                 similarity_threshold true).1)
        = Some (c, c, message)).
Proof.
  rewrite find_similar_images_eq.
  assert (Hfatal : forall message,
            is_error_message message = true ->
            StronglySorted Z.le (currents [Progress 0 1 message])
            /\ exists hashing rest,
                 progress_events [Progress 0 1 message] = hashing ++ rest
                 /\ Forall (fun e : Z * Z * Message =>
                              phase_of e.2 <> ComparisonPhase) hashing
                 /\ Forall (fun e : Z * Z * Message =>
                              phase_of e.2 <> HashingPhase) rest).
  { intros message Herr. split; [repeat constructor|].
    exists [], [(0, 1, message)]. split; [reflexivity|].
    split; [constructor|]. repeat constructor.
    destruct message; try discriminate Herr; discriminate. }
  destruct (negb (os_path_isdir w folder_path)).
  - cbn [fst snd notify].
    destruct (Hfatal (MsgFolderNotFound folder_path) eq_refl) as [Hs Hp].
    split; [exact Hs|]. split; [exact Hp|]. congruence.
  - destruct (os_listdir w folder_path) as [all_files|e]; cbn [fst snd].
    + destruct (scan_trace_events w folder_path hash_size similarity_threshold
                  all_files) as (Hs & Hp & Hl).
      split; [exact Hs|]. split; [exact Hp|]. intros _. exact Hl.
    + cbn [notify]. destruct (Hfatal (MsgListError e) eq_refl) as [Hs Hp].
      split; [exact Hs|]. split; [exact Hp|]. congruence.
Qed.

(** ** What the log holds: images opened and pairs compared *)

(** The paths handed to [Image.open], in order. *)
Definition opens_of (tr : list Action) : list string :=
  omap (fun a => match a with Open p => Some p | _ => None end) tr.

(** The pairs whose hashes were subtracted, in order. *)
Definition comparisons_of (tr : list Action) : list (string * string) :=
  omap (fun a => match a with Sub a b => Some (a, b) | _ => None end) tr.

Lemma opens_of_elem_of (tr : list Action) (p : string) :
  p ∈ opens_of tr <-> Open p ∈ tr.
Proof.
  unfold opens_of. rewrite list_elem_of_omap. split.
  - intros (a & Ha & Hp). destruct a; try discriminate.
    simpl in Hp. injection Hp as ->. exact Ha.
  - intros H. now exists (Open p).
Qed.

Lemma comparisons_of_elem_of (tr : list Action) (a b : string) :
  (a, b) ∈ comparisons_of tr <-> Sub a b ∈ tr.
Proof.
  unfold comparisons_of. rewrite list_elem_of_omap. split.
  - intros (x & Hx & Hp). destruct x; try discriminate.
    simpl in Hp. injection Hp as -> ->. exact Hx.
  - intros H. now exists (Sub a b).
Qed.

Lemma opens_of_app (tr1 tr2 : list Action) :
  opens_of (tr1 ++ tr2) = opens_of tr1 ++ opens_of tr2.
Proof. apply omap_app. Qed.

Lemma comparisons_of_app (tr1 tr2 : list Action) :
  comparisons_of (tr1 ++ tr2) = comparisons_of tr1 ++ comparisons_of tr2.
Proof. apply omap_app. Qed.

Lemma notify_elem_of (cb : bool) (c t : Z) (m : Message) (a : Action) :
  a ∈ notify cb c t m -> a = Progress c t m.
Proof.
  destruct cb; simpl; intros H; [|inversion H].
  now apply list_elem_of_singleton in H.
Qed.

Lemma opens_of_notify (cb : bool) (c t : Z) (m : Message) :
  opens_of (notify cb c t m) = [].
Proof. now destruct cb. Qed.

Lemma comparisons_of_notify (cb : bool) (c t : Z) (m : Message) :
  comparisons_of (notify cb c t m) = [].
Proof. now destruct cb. Qed.

Lemma hash_trace_log (cb : bool) (total_images : Z) (files : list string)
  (cnt : Z) :
  opens_of (hash_trace cb total_images cnt files) = files
  /\ comparisons_of (hash_trace cb total_images cnt files) = [].
Proof.
  revert cnt. induction files as [|p rest IH]; intros cnt; [now split|].
  destruct (IH (cnt + 1)) as [Ho Hc]. cbn [hash_trace]. split.
  - change (opens_of (Open p :: ?l)) with (p :: opens_of l).
    now rewrite opens_of_app, opens_of_notify, Ho.
  - change (comparisons_of (Open p :: ?l)) with (comparisons_of l).
    now rewrite comparisons_of_app, comparisons_of_notify, Hc.
Qed.

Lemma map_Sub_log (x : string) (l : list string) :
  opens_of (map (Sub x) l) = []
  /\ comparisons_of (map (Sub x) l) = map (pair x) l.
Proof.
  induction l as [|y l [IHo IHc]]; [now split|]. split.
  - exact IHo.
  - cbn [map]. change (comparisons_of (Sub x y :: ?t)) with ((x, y) :: comparisons_of t).
    now rewrite IHc.
Qed.

Lemma rows_trace_log (cb : bool) (total_images possible steps : Z)
  (l : list string) (cnt : Z) :
  opens_of (rows_trace cb total_images possible steps cnt l) = []
  /\ comparisons_of (rows_trace cb total_images possible steps cnt l)
     = all_pairs l.
Proof.
  revert cnt. induction l as [|x rest IH]; intros cnt; [now split|].
  destruct (IH (cnt + Z.of_nat (length rest))) as [Ho Hc].
  destruct (map_Sub_log x rest) as [Hmo Hmc].
  cbn [rows_trace all_pairs]. split.
  - now rewrite !opens_of_app, opens_of_notify, Hmo, Ho.
  - now rewrite !comparisons_of_app, comparisons_of_notify, Hmc, Hc.
Qed.

Lemma scan_trace_log (w : World) (folder_path : string) (hash_size T : Z)
  (cb : bool) (all_files : list string) :
  opens_of (scan_trace w folder_path hash_size T cb all_files)
  = collect_image_files folder_path all_files
  /\ comparisons_of (scan_trace w folder_path hash_size T cb all_files)
     = all_pairs (dict_keys (hashes_of w hash_size
                               (collect_image_files folder_path all_files))).
Proof.
  unfold scan_trace.
  destruct (collect_image_files folder_path all_files) as [|p files] eqn:Ef.
  - rewrite opens_of_notify, comparisons_of_notify. now split.
  - set (image_files := p :: files).
    set (N := Z.of_nat (length image_files)).
    destruct (hash_trace_log cb N image_files 0) as [Ho Hc].
    rewrite !opens_of_app, !comparisons_of_app, Ho, Hc,
      opens_of_notify, comparisons_of_notify.
    destruct (hashes_of w hash_size image_files) as [|kv d] eqn:Eh.
    + cbn [dict_is_empty]. rewrite opens_of_notify, comparisons_of_notify.
      rewrite app_nil_r. now split.
    + cbn [dict_is_empty].
      destruct (rows_trace_log cb N
                  (Z.of_nat (length (all_pairs (dict_keys (kv :: d)))))
                  (N + Z.of_nat (length (all_pairs (dict_keys (kv :: d)))))
                  (dict_keys (kv :: d)) 0) as [Hro Hrc].
      rewrite !opens_of_app, !comparisons_of_app, Hro, Hrc,
        opens_of_notify, comparisons_of_notify.
      rewrite !app_nil_r. now split.
Qed.

(** ** Candidate files (C9) *)

Lemma str_length_app (a b : string) :
  String.length (a +:+ b) = (String.length a + String.length b)%nat.
Proof. induction a as [|c a IH]; simpl; [reflexivity|now rewrite IH]. Qed.

Lemma string_drop_app (pre suf : string) :
  string_drop (String.length pre) (pre +:+ suf) = suf.
Proof. induction pre as [|c pre IH]; simpl; [reflexivity|exact IH]. Qed.

Lemma string_drop_split (n : nat) (s : string) :
  (n <= String.length s)%nat -> exists pre, s = pre +:+ string_drop n s.
Proof.
  revert s. induction n as [|n IH]; intros s Hn.
  - now exists ""%string.
  - destruct s as [|c s]; simpl in Hn; [lia|].
    destruct (IH s) as (pre & Hpre); [lia|].
    exists (String c pre).
    change (String c s = String c (pre +:+ string_drop n s)). now f_equal.
Qed.

Lemma endswith_spec (s suffix : string) :
  endswith s suffix = true <-> exists pre, s = pre +:+ suffix.
Proof.
  unfold endswith. rewrite andb_true_iff, Nat.leb_le, String.eqb_eq. split.
  - intros [Hlen Heq].
    destruct (string_drop_split (String.length s - String.length suffix) s)
      as (pre & Hpre); [lia|].
    exists pre. now rewrite Heq in Hpre.
  - intros (pre & ->). rewrite str_length_app. split; [lia|].
    replace (String.length pre + String.length suffix - String.length suffix)%nat
      with (String.length pre) by lia.
    apply string_drop_app.
Qed.

Lemma lower_app (a b : string) : lower (a +:+ b) = lower a +:+ lower b.
Proof. induction a as [|c a IH]; simpl; [reflexivity|now rewrite IH]. Qed.

Lemma lower_split (s a b : string) :
  lower s = a +:+ b ->
  exists a' b', s = a' +:+ b' /\ lower a' = a /\ lower b' = b.
Proof.
  revert s. induction a as [|c a IH]; intros s Hs.
  - exists ""%string, s. now repeat split.
  - destruct s as [|c' s]; [discriminate|].
    simpl in Hs. injection Hs as Hc Hrest.
    destruct (IH s Hrest) as (a' & b' & -> & Ha & Hb).
    exists (String c' a'), b'. simpl. rewrite Ha, Hc. now repeat split.
Qed.

(** The words of the contract, written without [lower]: the capitals,
    the small letters, and each capital paired with its small letter. *)
Definition capital_letters : string := "ABCDEFGHIJKLMNOPQRSTUVWXYZ".

Definition small_letters : string := "abcdefghijklmnopqrstuvwxyz".

Definition letter_pairs : list (ascii * ascii) :=
  zip (list_ascii_of_string capital_letters)
      (list_ascii_of_string small_letters).

Definition is_letter_pair (a b : ascii) : bool :=
  existsb (fun p => Ascii.eqb a p.1 && Ascii.eqb b p.2) letter_pairs.

(** Two characters are the same, letter case aside: they are equal, or
    one is a capital and the other its small letter. *)
Definition same_letter (a b : ascii) : bool :=
  Ascii.eqb a b || is_letter_pair a b || is_letter_pair b a.

(** Two strings are the same, letter case aside. *)
Fixpoint caseless_eq (s t : string) : bool :=
  match s, t with
  | EmptyString, EmptyString => true
  | String a s', String b t' => same_letter a b && caseless_eq s' t'
  | _, _ => false
  end.

(** The name ends in [ext], letter case aside: it splits into a prefix
    and a suffix that is [ext] up to letter case. *)
Definition ends_with_caseless (filename ext : string) : Prop :=
  exists pre suf, filename = pre +:+ suf /\ caseless_eq suf ext = true.

(** The name of a candidate image, in the words of the contract. *)
Definition image_name (filename : string) : Prop :=
  exists ext,
    ext ∈ [".png"; ".jpg"; ".jpeg"; ".bmp"; ".gif"; ".tiff"; ".webp"]%string
    /\ ends_with_caseless filename ext.

(** [p] is the joined path of an entry of the listing whose name is that
    of a candidate image. *)
Definition image_entry (w : World) (folder_path : string) (p : string) : Prop :=
  exists all_files filename,
    os_listdir w folder_path = ListOk all_files
    /\ filename ∈ all_files
    /\ image_name filename
    /\ p = os_path_join folder_path filename.

(** [p] is the joined path of an entry of the listing whose name passes
    the extension test of the code. *)
Definition candidate_path (w : World) (folder_path : string) (p : string) : Prop :=
  exists all_files filename,
    os_listdir w folder_path = ListOk all_files
    /\ filename ∈ all_files
    /\ is_candidate filename = true
    /\ p = os_path_join folder_path filename.

Definition all_ascii : list ascii := map ascii_of_nat (seq 0 256).

Lemma all_ascii_in (a : ascii) : List.In a all_ascii.
Proof.
  unfold all_ascii. apply in_map_iff. exists (nat_of_ascii a).
  split; [apply ascii_nat_embedding|].
  apply in_seq. pose proof (nat_ascii_bounded a). lia.
Qed.

Lemma same_letter_lower (a b : ascii) :
  same_letter a b = Ascii.eqb (lower_ascii a) (lower_ascii b).
Proof.
  assert (Hall :
            forallb (fun x =>
              forallb (fun y =>
                Bool.eqb (same_letter x y)
                         (Ascii.eqb (lower_ascii x) (lower_ascii y)))
                all_ascii) all_ascii = true)
    by (vm_compute; reflexivity).
  rewrite forallb_forall in Hall. specialize (Hall a (all_ascii_in a)).
  rewrite forallb_forall in Hall. specialize (Hall b (all_ascii_in b)).
  now apply Bool.eqb_prop in Hall.
Qed.

Lemma caseless_eq_lower (s t : string) :
  caseless_eq s t = true <-> lower s = lower t.
Proof.
  revert t. induction s as [|a s IH]; intros [|b t]; cbn [caseless_eq lower];
    try (split; [discriminate|discriminate]); [tauto|].
  rewrite andb_true_iff, same_letter_lower, Ascii.eqb_eq, IH. split.
  - intros [-> ->]. reflexivity.
  - intros H. injection H as H1 H2. now split.
Qed.

Lemma supported_formats_lower (ext : string) :
  ext ∈ supported_formats -> lower ext = ext.
Proof.
  unfold supported_formats. rewrite !elem_of_cons, elem_of_nil.
  intros [->|[->|[->|[->|[->|[->|[->|[]]]]]]]]; reflexivity.
Qed.

Lemma is_candidate_spec (filename : string) :
  is_candidate filename = true <-> image_name filename.
Proof.
  unfold is_candidate, endswith_any, image_name. rewrite existsb_exists.
  change [".png"; ".jpg"; ".jpeg"; ".bmp"; ".gif"; ".tiff"; ".webp"]%string
    with supported_formats.
  split.
  - intros (ext & Hin & Hend). apply list_elem_of_In in Hin.
    exists ext. split; [exact Hin|].
    apply endswith_spec in Hend. destruct Hend as (pre & Hpre).
    destruct (lower_split _ _ _ Hpre) as (a' & b' & Hs & _ & Hb).
    exists a', b'. split; [exact Hs|].
    apply caseless_eq_lower. now rewrite (supported_formats_lower ext Hin).
  - intros (ext & Hin & pre & suf & -> & Hsuf).
    apply caseless_eq_lower in Hsuf.
    exists ext. split; [now apply list_elem_of_In|].
    apply endswith_spec. exists (lower pre).
    rewrite lower_app, Hsuf. now rewrite (supported_formats_lower ext Hin).
Qed.

Lemma candidate_path_image_entry (w : World) (folder_path p : string) :
  candidate_path w folder_path p <-> image_entry w folder_path p.
Proof.
  unfold candidate_path, image_entry. split.
  - intros (l & n & Hl & Hn & Hc & Hp). exists l, n.
    now rewrite <- is_candidate_spec.
  - intros (l & n & Hl & Hn & Hc & Hp). exists l, n.
    now rewrite is_candidate_spec.
Qed.

Lemma fingerprinted_candidate (w : World) (folder_path : string)
  (hash_size : Z) (p : string) :
  fingerprinted w folder_path hash_size p -> candidate_path w folder_path p.
Proof.
  intros (l & n & Hl & Hn & Hc & Hp & _). now exists l, n.
Qed.

(** C9. A directory entry is a candidate exactly when its name ends,
    letter case aside, in one of [.png .jpg .jpeg .bmp .gif .tiff .webp].
    Only candidates go further: every path that is opened for
    fingerprinting, every path that takes part in a comparison and every
    path in a returned group is the joined path of an entry with such a
    name; and when the folder is a directory every such entry is
    opened. *)
Theorem candidates_only (w : World) (folder_path : string)
  (hash_size similarity_threshold : Z) (cb : bool) :
  (forall filename,
      is_candidate filename = true
      <-> exists ext,
            ext ∈ [".png"; ".jpg"; ".jpeg"; ".bmp"; ".gif"; ".tiff";
                   ".webp"]%string
            /\ ends_with_caseless filename ext)
  /\ (forall p,
        Open p ∈ (find_similar_images w folder_path hash_size
                    similarity_threshold cb).1 ->
        image_entry w folder_path p)
  /\ (os_path_isdir w folder_path = true ->
      forall p, image_entry w folder_path p ->
                Open p ∈ (find_similar_images w folder_path hash_size
                            similarity_threshold cb).1)
  /\ (forall a b,
        Sub a b ∈ (find_similar_images w folder_path hash_size
                     similarity_threshold cb).1 ->
        image_entry w folder_path a /\ image_entry w folder_path b)
  /\ (forall m k g x,
        (find_similar_images w folder_path hash_size
           similarity_threshold cb).2 = Some m ->
        m !! k = Some g -> x ∈ g -> image_entry w folder_path x).
Proof.
  split; [exact is_candidate_spec|].
  setoid_rewrite <- candidate_path_image_entry.
  rewrite find_similar_images_eq.
  destruct (os_path_isdir w folder_path); cbn [negb].
  2:{ cbn [fst snd]. split; [|split; [discriminate|split; [|discriminate]]].
      - intros p Hp. apply notify_elem_of in Hp. discriminate.
      - intros a b Hp. apply notify_elem_of in Hp. discriminate. }
  destruct (os_listdir w folder_path) as [all_files|e] eqn:El; cbn [fst snd].
  2:{ split; [|split; [|split; [|discriminate]]].
      - intros p Hp. apply notify_elem_of in Hp. discriminate.
      - intros _ p (l & n & Hl & _). congruence.
      - intros a b Hp. apply notify_elem_of in Hp. discriminate. }
  destruct (scan_trace_log w folder_path hash_size similarity_threshold cb
              all_files) as [Ho Hc].
  assert (Hcand : forall p,
            p ∈ collect_image_files folder_path all_files
            <-> candidate_path w folder_path p).
  { intros p. rewrite collect_image_files_elem_of. unfold candidate_path.
    rewrite El. split.
    - intros (n & Hn & Hcn & Hp). now exists all_files, n.
    - intros (l & n & Hl & Hn & Hcn & Hp). inversion Hl; subst l. now exists n. }
  assert (Hkey : forall p,
            p ∈ dict_keys (hashes_of w hash_size
                             (collect_image_files folder_path all_files)) ->
            candidate_path w folder_path p).
  { intros p Hp. apply (keys_fingerprinted w folder_path hash_size all_files El) in Hp.
    now apply fingerprinted_candidate in Hp. }
  split; [|split; [|split]].
  - intros p Hp. apply opens_of_elem_of in Hp. rewrite Ho in Hp.
    now apply Hcand.
  - intros _ p Hp. apply opens_of_elem_of. rewrite Ho. now apply Hcand.
  - intros a b Hab. apply comparisons_of_elem_of in Hab. rewrite Hc in Hab.
    apply all_pairs_elem_of in Hab. destruct Hab as [Ha Hb].
    split; now apply Hkey.
  - intros m k g x Hm Hk Hx. inversion Hm; subst m.
    destruct (groups_of_spec w folder_path hash_size similarity_threshold
                all_files El) as [Hg _].
    apply (fingerprinted_candidate w folder_path hash_size).
    now apply (is_group_fingerprinted w folder_path hash_size
                 similarity_threshold k g x (Hg _ _ Hk)).
Qed.

(** In the folder of [demo_world]: a name with mixed letter case ends in
    [.jpeg] and is a candidate, [notes.txt] ends in none of the seven, and
    the opened [d/c.PNG] is the path of an entry with an image name. *)
Lemma candidates_only_witness :
  is_candidate "Holiday.JPeG" = true
  /\ ~ (exists ext,
          ext ∈ [".png"; ".jpg"; ".jpeg"; ".bmp"; ".gif"; ".tiff";
                 ".webp"]%string
          /\ ends_with_caseless "notes.txt" ext)
  /\ image_entry demo_world "d" "d/c.PNG".
Proof.
  destruct (candidates_only demo_world "d" 8 2 true) as (Hname & Hopen & _).
  split.
  { apply Hname. exists ".jpeg"%string. split.
    - rewrite !elem_of_cons. right. right. left. reflexivity.
    - exists "Holiday"%string, ".JPeG"%string. split; reflexivity. }
  split.
  { intros H. apply Hname in H. discriminate H. }
  apply Hopen. rewrite demo_run. cbn [fst]. unfold demo_trace.
  rewrite !elem_of_cons. right. left. reflexivity.
Defined.

(** ** The graph builder (C2) *)

(** C2. Run on the dict left by the hashing loop, the graph builder
    subtracts hashes once for every unordered pair of fingerprinted images
    and for nothing else: no comparison is repeated, a pair is never
    compared in both orders, and every two distinct fingerprinted images
    are compared. A path [b] is in the adjacency list of [a] exactly when
    the two are distinct fingerprinted images whose fingerprints are at
    Hamming distance at most the threshold; the adjacency is symmetric. *)
Theorem build_graph_pairs (w : World) (hash_size similarity_threshold : Z)
  (cb : bool) (total_images possible steps : Z) (image_files : list string) :
  let hashes := (hash_images w hash_size cb total_images image_files).1.1 in
  let img_paths := dict_keys hashes in
  let adj := (build_graph hashes img_paths similarity_threshold cb
                total_images possible steps).1.1 in
  let compared := comparisons_of
                    (build_graph hashes img_paths similarity_threshold cb
                       total_images possible steps).2 in
  (forall p, p ∈ img_paths
             <-> p ∈ image_files /\ is_Some (image_phash w p hash_size))
  /\ (forall p, p ∈ img_paths ->
                image_phash w p hash_size = Some (dict_get hashes p))
  /\ NoDup compared
  /\ (forall a b, (a, b) ∈ compared ->
                  a ∈ img_paths /\ b ∈ img_paths /\ a <> b /\ (b, a) ∉ compared)
  /\ (forall a b, a ∈ img_paths -> b ∈ img_paths -> a <> b ->
                  (a, b) ∈ compared \/ (b, a) ∈ compared)
  /\ (forall a b,
        b ∈ adj_get adj a
        <-> a ∈ img_paths /\ b ∈ img_paths /\ a <> b
            /\ hash_sub (dict_get hashes a) (dict_get hashes b)
               <= similarity_threshold)
  /\ (forall a b, b ∈ adj_get adj a -> a ∈ adj_get adj b).
Proof.
  rewrite hash_images_eq. cbn [fst snd].
  set (hashes := hashes_of w hash_size image_files).
  rewrite build_graph_eq. cbn [fst snd].
  destruct (rows_trace_log cb total_images possible steps (dict_keys hashes) 0)
    as [_ Hc].
  rewrite Hc.
  destruct (hashes_of_ok w hash_size image_files) as (Hnd & Hkeys & Hval).
  fold hashes in Hnd, Hkeys, Hval.
  split; [exact Hkeys|]. split; [exact Hval|].
  split; [now apply all_pairs_NoDup|].
  split; [|split; [|split]].
  - intros a b Hab. destruct (all_pairs_elem_of _ _ _ Hab) as [Ha Hb].
    destruct (all_pairs_distinct _ _ _ Hnd Hab) as [Hne Hnot].
    now repeat split.
  - intros a b. apply all_pairs_total.
  - intros a b.
    change (foldl (add_edge hashes similarity_threshold) ∅
              (all_pairs (dict_keys hashes)))
      with (graph_of hashes similarity_threshold).
    change (b ∈ adj_get (graph_of hashes similarity_threshold) a)
      with (edge (graph_of hashes similarity_threshold) a b).
    rewrite (graph_of_edge hashes similarity_threshold Hnd).
    unfold close. now rewrite Z.leb_le.
  - intros a b.
    change (foldl (add_edge hashes similarity_threshold) ∅
              (all_pairs (dict_keys hashes)))
      with (graph_of hashes similarity_threshold).
    apply (graph_of_sym hashes similarity_threshold Hnd).
Qed.

(** ** Cancellation (C8) *)

(** Per-image and per-pair work, as opposed to progress reports. *)
Definition is_work (a : Action) : bool :=
  match a with
  | Open _ | Sub _ _ => true
  | Progress _ _ _ => false
  end.

Definition work_of (run : list WorkerEvent) : list Action :=
  omap (fun e => match e with Work a => Some a | Emit _ => None end) run.

Definition signals_of (run : list WorkerEvent) : list Signal :=
  omap (fun e => match e with Emit s => Some s | Work _ => None end) run.

(** The progress signals that an unstopped worker forwards for a log. *)
Definition progress_signals (tr : list Action) : list Signal :=
  omap (fun a => match a with
                 | Progress current total message =>
                     Some (SigProgress current total message)
                 | _ => None
                 end) tr.

(** The cancellation contract in the words of the specification, for a
    stop request that lands just before step [t] of the scan: no
    per-image or per-pair work is started from step [t] on, the results
    are not delivered, and the completion of the attempt is signalled. *)
Definition cooperative_cancellation (w : World) (folder_path : string)
  (hash_size similarity_threshold : Z) (t : nat) : Prop :=
  let tr := (find_similar_images w folder_path hash_size
               similarity_threshold true).1 in
  let run := ScanWorker_run w folder_path hash_size similarity_threshold
               (Some t) in
  (forall a, a ∈ drop t tr -> is_work a = false)
  /\ (forall g, SigResults g ∉ signals_of run)
  /\ SigFinished ∈ signals_of run.

(** The worker of [demo_world], stopped after the first image was hashed:
    the remaining four images are still opened and all six pairs are still
    compared, and nothing is emitted after the second progress signal. *)
Lemma demo_cancelled_run :
  ScanWorker_run demo_world "d" 8 2 (Some 3%nat)
  = [Emit (SigProgress 0 10 (MsgHashStart 5));
     Work (Open "d/c.PNG");
     Emit (SigProgress 1 10 (MsgHashing 1 5));
     Work (Open "d/b.jpg"); Work (Open "d/a.png"); Work (Open "d/z.gif");
     Work (Open "d/bad.bmp");
     Work (Sub "d/c.PNG" "d/b.jpg"); Work (Sub "d/c.PNG" "d/a.png");
     Work (Sub "d/c.PNG" "d/z.gif"); Work (Sub "d/b.jpg" "d/a.png");
     Work (Sub "d/b.jpg" "d/z.gif"); Work (Sub "d/a.png" "d/z.gif")]%string.
Proof. vm_compute. reflexivity. Qed.

Lemma demo_cancelled_no_finished :
  SigFinished ∉ signals_of (ScanWorker_run demo_world "d" 8 2 (Some 3%nat)).
Proof.
  rewrite demo_cancelled_run.
  intros H. apply list_elem_of_omap in H. destruct H as (e & He & Hs).
  destruct e as [a|sg]; [discriminate|]. injection Hs as ->.
  rewrite !elem_of_cons, elem_of_nil in He.
  repeat (destruct He as [He|He]; [discriminate|]). exact He.
Qed.

(** C8, as stated, fails: in [demo_world], with the stop request landing
    before step 3, the image [d/b.jpg] is opened at step 3 and no
    [finished] signal is emitted. *)
Lemma cancellation_counterexample :
  ~ cooperative_cancellation demo_world "d" 8 2 3.
Proof.
  unfold cooperative_cancellation. intros (Hwork & _ & _).
  specialize (Hwork (Open "d/b.jpg")).
  assert (Hin : Open "d/b.jpg"
                  ∈ drop 3 (find_similar_images demo_world "d" 8 2 true).1).
  { rewrite demo_run. cbn [fst demo_trace drop]. now left. }
  specialize (Hwork Hin). discriminate.
Qed.

Lemma worker_steps_work (stop_at : option nat) (tr : list Action) (now : nat) :
  work_of (worker_steps stop_at now tr) = filter (fun a => is_work a) tr.
Proof.
  revert now. induction tr as [|a tr IH]; intros now; [reflexivity|].
  destruct a as [p|a b|c t m]; cbn [worker_steps].
  - rewrite filter_cons_True by exact I.
    change (work_of (Work (Open p) :: ?l)) with (Open p :: work_of l).
    now rewrite IH.
  - rewrite filter_cons_True by exact I.
    change (work_of (Work (Sub a b) :: ?l)) with (Sub a b :: work_of l).
    now rewrite IH.
  - rewrite filter_cons_False by (intros H; exact H).
    unfold work_of. rewrite omap_app. fold work_of. rewrite IH.
    now destruct (is_running stop_at now).
Qed.

Lemma worker_steps_signals (t : nat) (tr : list Action) (now : nat) :
  signals_of (worker_steps (Some t) now tr) = progress_signals (take (t - now) tr).
Proof.
  revert now. induction tr as [|a tr IH]; intros now.
  - now rewrite take_nil.
  - assert (Hstep : forall l,
              (now < t)%nat -> take (t - now) (a :: l) = a :: take (t - S now) l).
    { intros l Hlt. replace (t - now)%nat with (S (t - S now)) by lia.
      reflexivity. }
    destruct a as [p|a b|c tot m]; cbn [worker_steps].
    + change (signals_of (Work (Open p) :: ?l)) with (signals_of l).
      rewrite IH. destruct (decide (now < t)%nat) as [Hlt|Hge].
      * now rewrite Hstep.
      * replace (t - now)%nat with 0%nat by lia.
        replace (t - S now)%nat with 0%nat by lia. reflexivity.
    + change (signals_of (Work (Sub a b) :: ?l)) with (signals_of l).
      rewrite IH. destruct (decide (now < t)%nat) as [Hlt|Hge].
      * now rewrite Hstep.
      * replace (t - now)%nat with 0%nat by lia.
        replace (t - S now)%nat with 0%nat by lia. reflexivity.
    + unfold signals_of. rewrite omap_app. fold signals_of. rewrite IH.
      unfold is_running. destruct (decide (now < t)%nat) as [Hlt|Hge].
      * rewrite Hstep by exact Hlt.
        apply Nat.ltb_lt in Hlt. rewrite Hlt. reflexivity.
      * replace (t - now)%nat with 0%nat by lia.
        replace (t - S now)%nat with 0%nat by lia.
        apply Nat.ltb_nlt in Hge. rewrite Hge. reflexivity.
Qed.

(** C8, amended. When the stop request lands while the scan is running
    (before step [t], [t] at most the number of steps of the scan), the
    scan is not interrupted: every per-image and per-pair step of
    [find_similar_images] is still carried out. What stops is the
    reporting: the worker forwards the progress events of the first [t]
    steps and emits nothing else, neither the results nor [finished]. *)
Theorem stop_silences_worker (w : World) (folder_path : string)
  (hash_size similarity_threshold : Z) (t : nat) :
  (t <= length (find_similar_images w folder_path hash_size
                  similarity_threshold true).1)%nat ->
  work_of (ScanWorker_run w folder_path hash_size similarity_threshold (Some t))
  = filter (fun a => is_work a)
      (find_similar_images w folder_path hash_size similarity_threshold true).1
  /\ signals_of (ScanWorker_run w folder_path hash_size similarity_threshold
                   (Some t))
     = progress_signals
         (take t (find_similar_images w folder_path hash_size
                    similarity_threshold true).1).
Proof.
  unfold ScanWorker_run.
  destruct (find_similar_images w folder_path hash_size similarity_threshold
              true) as [tr res].
  cbn [fst]. intros Ht.
  assert (H1 : is_running (Some t) (length tr) = false).
  { unfold is_running. apply Nat.ltb_nlt. lia. }
  assert (H2 : is_running (Some t) (S (length tr)) = false).
  { unfold is_running. apply Nat.ltb_nlt. lia. }
  rewrite H1, H2, !app_nil_r. split.
  - apply worker_steps_work.
  - rewrite worker_steps_signals. now rewrite Nat.sub_0_r.
Qed.

Lemma stop_silences_worker_witness :
  (3 <= length (find_similar_images demo_world "d" 8 2 true).1)%nat
  /\ signals_of (ScanWorker_run demo_world "d" 8 2 (Some 3%nat))
     = progress_signals (take 3 (find_similar_images demo_world "d" 8 2 true).1).
Proof.
  assert (H : (3 <= length (find_similar_images demo_world "d" 8 2 true).1)%nat).
  { apply Nat.leb_le. vm_compute. reflexivity. }
  split; [exact H|].
  exact (proj2 (stop_silences_worker demo_world "d" 8 2 3 H)).
Defined.

(** * Further properties of [find_similar_images] *)

(** ** Every progress event is within its total *)

Definition event_in_range (e : Z * Z * Message) : Prop :=
  1 <= e.1.2 /\ 0 <= e.1.1 <= e.1.2.

Lemma progress_events_notify (cb : bool) (c t : Z) (m : Message)
  (P : Z * Z * Message -> Prop) :
  P (c, t, m) -> Forall P (progress_events (notify cb c t m)).
Proof. intros H. destruct cb; simpl; repeat constructor. exact H. Qed.

Lemma hash_trace_range (cb : bool) (total_images : Z) (files : list string)
  (cnt : Z) :
  Forall (fun e : Z * Z * Message =>
            e.1.2 = total_images * 2
            /\ cnt + 1 <= e.1.1 <= cnt + Z.of_nat (length files))
    (progress_events (hash_trace cb total_images cnt files)).
Proof.
  revert cnt. induction files as [|p rest IH]; intros cnt; [constructor|].
  cbn [hash_trace length]. rewrite progress_events_Open, progress_events_app.
  apply Forall_app. split.
  - apply progress_events_notify. cbn [fst snd]. lia.
  - eapply Forall_impl; [apply (IH (cnt + 1))|].
    intros e He. cbn beta in He. lia.
Qed.

Lemma rows_trace_range (cb : bool) (total_images possible steps : Z)
  (l : list string) (cnt : Z) :
  Forall (fun e : Z * Z * Message =>
            e.1.2 = steps
            /\ total_images + cnt <= e.1.1
               <= total_images + cnt + Z.of_nat (length (all_pairs l)))
    (progress_events (rows_trace cb total_images possible steps cnt l)).
Proof.
  revert cnt. induction l as [|x rest IH]; intros cnt; [constructor|].
  cbn [rows_trace all_pairs].
  rewrite !progress_events_app, progress_events_map_Sub, length_app, length_map.
  cbn [app]. apply Forall_app. split.
  - apply progress_events_notify. cbn [fst snd]. lia.
  - eapply Forall_impl; [apply (IH (cnt + Z.of_nat (length rest)))|].
    intros e He. cbn beta in He. lia.
Qed.

Lemma scan_trace_range (w : World) (folder_path : string) (hash_size T : Z)
  (cb : bool) (all_files : list string) :
  Forall event_in_range
    (progress_events (scan_trace w folder_path hash_size T cb all_files)).
Proof.
  unfold scan_trace.
  destruct (collect_image_files folder_path all_files) as [|p files] eqn:Ef.
  - apply progress_events_notify. unfold event_in_range. cbn [fst snd]. lia.
  - set (image_files := p :: files).
    set (hashes := hashes_of w hash_size image_files).
    assert (HN : 1 <= Z.of_nat (length image_files))
      by (cbn [image_files length]; lia).
    pose proof (hash_trace_range cb (Z.of_nat (length image_files))
                  image_files 0) as HH.
    pose proof (rows_trace_range cb (Z.of_nat (length image_files))
                  (Z.of_nat (length (all_pairs (dict_keys hashes))))
                  (Z.of_nat (length image_files)
                   + Z.of_nat (length (all_pairs (dict_keys hashes))))
                  (dict_keys hashes) 0) as HR.
    assert (HP : 0 <= Z.of_nat (length (all_pairs (dict_keys hashes)))) by lia.
    set (N := Z.of_nat (length image_files)) in *.
    set (P := Z.of_nat (length (all_pairs (dict_keys hashes)))) in *.
    clearbody N P.
    rewrite !progress_events_app. apply Forall_app.
    split; [|apply Forall_app; split].
    + apply progress_events_notify. unfold event_in_range. cbn [fst snd]. lia.
    + eapply Forall_impl; [exact HH|].
      intros e He. cbn beta in He. unfold event_in_range. lia.
    + destruct (dict_is_empty hashes).
      * apply progress_events_notify. unfold event_in_range. cbn [fst snd]. lia.
      * rewrite progress_events_app. apply Forall_app. split.
        -- eapply Forall_impl; [exact HR|].
           intros e He. cbn beta in He. unfold event_in_range. lia.
        -- apply progress_events_notify. unfold event_in_range.
           cbn [fst snd]. lia.
Qed.

(** Every call of the progress callback has a total of at least 1 and a
    [current] between 0 and the total, on every path of the function. *)
Theorem progress_events_in_range (w : World) (folder_path : string)
  (hash_size similarity_threshold : Z) (cb : bool) :
  Forall event_in_range
    (progress_events (find_similar_images w folder_path hash_size
                        similarity_threshold cb).1).
Proof.
  rewrite find_similar_images_eq.
  destruct (negb (os_path_isdir w folder_path)); cbn [fst].
  - apply progress_events_notify. unfold event_in_range. cbn [fst snd]. lia.
  - destruct (os_listdir w folder_path) as [all_files|e]; cbn [fst].
    + apply scan_trace_range.
    + apply progress_events_notify. unfold event_in_range. cbn [fst snd]. lia.
Qed.

(** ** [current] counts the work done so far *)

(** Each progress event of the log reports as [current] the number of
    per-image and per-pair steps logged before it, [done] steps having been
    made before the log starts. *)
Fixpoint counts_work (done : Z) (tr : list Action) : Prop :=
  match tr with
  | [] => True
  | Progress current _ _ :: tr' => current = done /\ counts_work done tr'
  | _ :: tr' => counts_work (done + 1) tr'
  end.

Definition work_count (tr : list Action) : Z :=
  Z.of_nat (length (filter (fun a => is_work a) tr)).

Lemma work_count_app (tr1 tr2 : list Action) :
  work_count (tr1 ++ tr2) = work_count tr1 + work_count tr2.
Proof. unfold work_count. rewrite filter_app, length_app. lia. Qed.

Lemma work_count_notify (cb : bool) (c t : Z) (m : Message) :
  work_count (notify cb c t m) = 0.
Proof. now destruct cb. Qed.

Lemma work_count_map_Sub (x : string) (l : list string) :
  work_count (map (Sub x) l) = Z.of_nat (length l).
Proof.
  unfold work_count. induction l as [|y l IH]; [reflexivity|].
  cbn [map]. rewrite filter_cons_True by exact I. cbn [length]. lia.
Qed.

Lemma counts_work_app (tr1 tr2 : list Action) (done : Z) :
  counts_work done (tr1 ++ tr2)
  <-> counts_work done tr1 /\ counts_work (done + work_count tr1) tr2.
Proof.
  revert done. induction tr1 as [|a tr1 IH]; intros done.
  - cbn [app counts_work]. unfold work_count. cbn. rewrite Z.add_0_r. tauto.
  - destruct a as [p|x y|c t m]; cbn [app counts_work].
    + rewrite IH. unfold work_count. rewrite filter_cons_True by exact I.
      cbn [length]. replace (done + 1 + Z.of_nat (length
        (filter (fun a => is_work a) tr1))) with
        (done + Z.of_nat (S (length (filter (fun a => is_work a) tr1))))
        by lia. tauto.
    + rewrite IH. unfold work_count. rewrite filter_cons_True by exact I.
      cbn [length]. replace (done + 1 + Z.of_nat (length
        (filter (fun a => is_work a) tr1))) with
        (done + Z.of_nat (S (length (filter (fun a => is_work a) tr1))))
        by lia. tauto.
    + rewrite IH. unfold work_count.
      rewrite filter_cons_False by (intros H; exact H). tauto.
Qed.

Lemma counts_work_notify (cb : bool) (c t : Z) (m : Message) :
  counts_work c (notify cb c t m).
Proof. destruct cb; simpl; tauto. Qed.

Lemma counts_work_map_Sub (x : string) (l : list string) (done : Z) :
  counts_work done (map (Sub x) l).
Proof.
  revert done. induction l as [|y l IH]; intros done; [exact I|]. apply IH.
Qed.

Lemma hash_trace_counts (cb : bool) (total_images : Z) (files : list string)
  (cnt : Z) :
  counts_work cnt (hash_trace cb total_images cnt files)
  /\ work_count (hash_trace cb total_images cnt files)
     = Z.of_nat (length files).
Proof.
  revert cnt. induction files as [|p rest IH]; intros cnt; [now split|].
  destruct (IH (cnt + 1)) as [Hc Hw]. cbn [hash_trace]. split.
  - cbn [counts_work]. apply counts_work_app. split.
    + apply counts_work_notify.
    + now rewrite work_count_notify, Z.add_0_r.
  - change (Open p :: ?l) with ([Open p] ++ l).
    rewrite !work_count_app, work_count_notify, Hw. cbn [length].
    change (work_count [Open p]) with 1. lia.
Qed.

Lemma rows_trace_counts (cb : bool) (total_images possible steps : Z)
  (l : list string) (cnt : Z) :
  counts_work (total_images + cnt)
    (rows_trace cb total_images possible steps cnt l)
  /\ work_count (rows_trace cb total_images possible steps cnt l)
     = Z.of_nat (length (all_pairs l)).
Proof.
  revert cnt. induction l as [|x rest IH]; intros cnt; [now split|].
  destruct (IH (cnt + Z.of_nat (length rest))) as [Hc Hw].
  cbn [rows_trace all_pairs]. split.
  - apply counts_work_app. split; [apply counts_work_notify|].
    rewrite work_count_notify, Z.add_0_r.
    apply counts_work_app. split; [apply counts_work_map_Sub|].
    rewrite work_count_map_Sub.
    now replace (total_images + cnt + Z.of_nat (length rest))
      with (total_images + (cnt + Z.of_nat (length rest))) by lia.
  - rewrite !work_count_app, work_count_notify, work_count_map_Sub, Hw.
    rewrite length_app, length_map. lia.
Qed.

(** When at least one image is fingerprinted, the [current] of every
    progress event is the number of images opened plus the number of pairs
    compared before the event. *)
Theorem current_counts_work (w : World) (folder_path : string)
  (hash_size similarity_threshold : Z) (cb : bool) (p : string) :
  fingerprinted w folder_path hash_size p ->
  counts_work 0 (find_similar_images w folder_path hash_size
                   similarity_threshold cb).1.
Proof.
  intros Hp. rewrite find_similar_images_eq.
  destruct (negb (os_path_isdir w folder_path)); cbn [fst];
    [apply counts_work_notify|].
  destruct (os_listdir w folder_path) as [all_files|e] eqn:El; cbn [fst];
    [|apply counts_work_notify].
  apply (keys_fingerprinted w folder_path hash_size all_files El) in Hp.
  unfold scan_trace.
  destruct (collect_image_files folder_path all_files) as [|q files] eqn:Ef;
    [inversion Hp|].
  set (image_files := q :: files) in *.
  destruct (hashes_of w hash_size image_files) as [|kv d] eqn:Eh;
    [inversion Hp|].
  cbn [dict_is_empty].
  destruct (hash_trace_counts cb (Z.of_nat (length image_files)) image_files 0)
    as [Hhc Hhw].
  destruct (rows_trace_counts cb (Z.of_nat (length image_files))
              (Z.of_nat (length (all_pairs (dict_keys (kv :: d)))))
              (Z.of_nat (length image_files)
               + Z.of_nat (length (all_pairs (dict_keys (kv :: d)))))
              (dict_keys (kv :: d)) 0) as [Hrc Hrw].
  apply counts_work_app. split; [apply counts_work_notify|].
  rewrite work_count_notify.
  apply counts_work_app. split; [exact Hhc|].
  rewrite Hhw. apply counts_work_app. split.
  - now rewrite Z.add_0_r in Hrc.
  - rewrite Hrw.
    replace (0 + 0 + Z.of_nat (length image_files)
             + Z.of_nat (length (all_pairs (dict_keys (kv :: d)))))
      with (Z.of_nat (length image_files)
            + Z.of_nat (length (all_pairs (dict_keys (kv :: d))))) by lia.
    apply counts_work_notify.
Qed.

Lemma demo_fingerprinted : fingerprinted demo_world "d" 8 "d/a.png".
Proof.
  exists ["c.PNG"; "b.jpg"; "notes.txt"; "a.png"; "z.gif"; "bad.bmp"]%string,
         "a.png"%string.
  split; [reflexivity|]. split; [do 3 right; now left|].
  split; [reflexivity|]. split; [reflexivity|]. now exists 5%N.
Qed.

Lemma current_counts_work_witness :
  fingerprinted demo_world "d" 8 "d/a.png"
  /\ counts_work 0 (find_similar_images demo_world "d" 8 2 true).1.
Proof.
  split; [exact demo_fingerprinted|].
  exact (current_counts_work demo_world "d" 8 2 true "d/a.png"
           demo_fingerprinted).
Defined.

(** ** The progress callback does not influence the scan *)

Lemma filter_work_notify (cb : bool) (c t : Z) (m : Message) :
  filter (fun a => is_work a) (notify cb c t m) = [].
Proof. now destruct cb. Qed.

Lemma filter_work_map_Sub (x : string) (l : list string) :
  filter (fun a => is_work a) (map (Sub x) l) = map (Sub x) l.
Proof.
  induction l as [|y l IH]; [reflexivity|].
  cbn [map]. rewrite filter_cons_True by exact I. now rewrite IH.
Qed.

Lemma hash_trace_silent (cb : bool) (total_images : Z) (files : list string)
  (cnt : Z) :
  filter (fun a => is_work a) (hash_trace cb total_images cnt files)
  = hash_trace false total_images cnt files.
Proof.
  revert cnt. induction files as [|p rest IH]; intros cnt; [reflexivity|].
  cbn [hash_trace notify app]. rewrite filter_cons_True by exact I.
  now rewrite filter_app, filter_work_notify, IH.
Qed.

Lemma rows_trace_silent (cb : bool) (total_images possible steps : Z)
  (l : list string) (cnt : Z) :
  filter (fun a => is_work a) (rows_trace cb total_images possible steps cnt l)
  = rows_trace false total_images possible steps cnt l.
Proof.
  revert cnt. induction l as [|x rest IH]; intros cnt; [reflexivity|].
  cbn [rows_trace notify app].
  now rewrite !filter_app, filter_work_notify, filter_work_map_Sub, IH.
Qed.

(** A run without a progress callback returns the same value as a run
    with one, and its log is the log of that run with the callback calls
    taken out: the same images are opened and the same pairs compared, in
    the same order. *)
Theorem callback_is_passive (w : World) (folder_path : string)
  (hash_size similarity_threshold : Z) :
  (find_similar_images w folder_path hash_size similarity_threshold false).2
  = (find_similar_images w folder_path hash_size similarity_threshold true).2
  /\ (find_similar_images w folder_path hash_size similarity_threshold false).1
     = filter (fun a => is_work a)
         (find_similar_images w folder_path hash_size similarity_threshold
            true).1.
Proof.
  rewrite !find_similar_images_eq.
  destruct (negb (os_path_isdir w folder_path)); [now split|].
  destruct (os_listdir w folder_path) as [all_files|e]; [|now split].
  cbn [fst snd]. split; [reflexivity|].
  unfold scan_trace.
  destruct (collect_image_files folder_path all_files) as [|p files];
    [reflexivity|].
  rewrite !filter_app, hash_trace_silent.
  destruct (dict_is_empty (hashes_of w hash_size (p :: files)));
    [reflexivity|].
  rewrite filter_app, rows_trace_silent. reflexivity.
Qed.

(** ** Every candidate is attempted once, in the order of the listing *)

Lemma collect_image_files_eq (folder_path : string) (all_files : list string) :
  collect_image_files folder_path all_files
  = map (os_path_join folder_path) (List.filter is_candidate all_files).
Proof.
  unfold collect_image_files.
  assert (H : forall l acc,
            foldl (fun image_files filename =>
                     if is_candidate filename
                     then image_files ++ [os_path_join folder_path filename]
                     else image_files) acc l
            = acc ++ map (os_path_join folder_path) (List.filter is_candidate l)).
  { induction l as [|n l IH]; intros acc; cbn [foldl List.filter].
    - now rewrite app_nil_r.
    - rewrite IH. destruct (is_candidate n); [|reflexivity].
      cbn [map]. now rewrite <- app_assoc. }
  apply (H all_files []).
Qed.

(** When the folder can be listed, the images handed to [Image.open] are
    the joined paths of the entries that pass the extension test, each
    once and in the order of the listing; an image that fails to open or
    hash does not end the loop. *)
Theorem every_candidate_opened_once (w : World) (folder_path : string)
  (hash_size similarity_threshold : Z) (cb : bool) (all_files : list string) :
  os_path_isdir w folder_path = true ->
  os_listdir w folder_path = ListOk all_files ->
  opens_of (find_similar_images w folder_path hash_size similarity_threshold
              cb).1
  = map (os_path_join folder_path) (List.filter is_candidate all_files).
Proof.
  intros Hdir Hl. rewrite find_similar_images_eq, Hdir, Hl. cbn [negb fst].
  destruct (scan_trace_log w folder_path hash_size similarity_threshold cb
              all_files) as [Ho _].
  now rewrite Ho, collect_image_files_eq.
Qed.

Lemma every_candidate_opened_once_witness :
  os_path_isdir demo_world "d" = true
  /\ opens_of (find_similar_images demo_world "d" 8 2 true).1
     = ["d/c.PNG"; "d/b.jpg"; "d/a.png"; "d/z.gif"; "d/bad.bmp"]%string.
Proof.
  split; [reflexivity|].
  exact (every_candidate_opened_once demo_world "d" 8 2 true _ eq_refl eq_refl).
Defined.

(** ** The representative heads its list *)

(** In a returned mapping every key is the first element of its value. *)
Theorem representative_is_head (w : World) (folder_path : string)
  (hash_size similarity_threshold : Z) (cb : bool) (tr : list Action)
  (m : gmap string (list string)) (k : string) (g : list string) :
  find_similar_images w folder_path hash_size similarity_threshold cb
  = (tr, Some m) ->
  m !! k = Some g ->
  head g = Some k.
Proof.
  intros Hrun Hk.
  destruct (result_groups _ _ _ _ _ _ _ Hrun) as [Hgroups _].
  destruct (Hgroups _ _ Hk) as (Hin & Hmin & Hs & _).
  destruct g as [|x g]; [inversion Hin|]. cbn [head]. f_equal.
  apply (anti_symm String.le).
  - apply StronglySorted_cons in Hs. destruct Hs as [Hall _].
    apply elem_of_cons in Hin. destruct Hin as [->|Hin]; [reflexivity|].
    rewrite Forall_forall in Hall. now apply Hall.
  - apply Hmin. now left.
Qed.

Lemma representative_is_head_witness :
  demo_groups !! "d/a.png"%string
  = Some ["d/a.png"; "d/b.jpg"; "d/c.PNG"]%string
  /\ head ["d/a.png"; "d/b.jpg"; "d/c.PNG"]%string = Some "d/a.png"%string.
Proof.
  assert (H : demo_groups !! "d/a.png"%string
              = Some ["d/a.png"; "d/b.jpg"; "d/c.PNG"]%string)
    by (vm_compute; reflexivity).
  split; [exact H|].
  exact (representative_is_head demo_world "d" 8 2 true demo_trace demo_groups
           _ _ demo_run H).
Defined.

(** ** Extreme thresholds *)

Lemma popcount_pos_positive (p : positive) : (1 <= popcount_pos p)%nat.
Proof. induction p; simpl; lia. Qed.

Lemma hash_sub_nonneg (h1 h2 : ImageHash) : 0 <= hash_sub h1 h2.
Proof. unfold hash_sub. lia. Qed.

Lemma hash_sub_zero (h1 h2 : ImageHash) : hash_sub h1 h2 <= 0 <-> h1 = h2.
Proof.
  unfold hash_sub. split.
  - intros H. apply N.lxor_eq.
    destruct (N.lxor h1 h2) as [|p]; [reflexivity|].
    pose proof (popcount_pos_positive p). simpl in H. lia.
  - intros ->. now rewrite N.lxor_nilpotent.
Qed.

(** With a negative threshold no pair is similar and the returned mapping
    is empty. *)
Theorem negative_threshold_no_groups (w : World) (folder_path : string)
  (hash_size similarity_threshold : Z) (cb : bool) (tr : list Action)
  (m : gmap string (list string)) :
  similarity_threshold < 0 ->
  find_similar_images w folder_path hash_size similarity_threshold cb
  = (tr, Some m) ->
  m = ∅.
Proof.
  intros HT Hrun.
  destruct (result_groups _ _ _ _ _ _ _ Hrun) as [Hgroups _].
  apply map_empty. intros k. destruct (m !! k) as [g|] eqn:E; [|reflexivity].
  destruct (is_group_similar _ _ _ _ k g (Hgroups _ _ E))
    as (b & _ & _ & _ & ha & hb & _ & _ & Hle).
  pose proof (hash_sub_nonneg ha hb). lia.
Qed.

Lemma negative_threshold_no_groups_witness :
  -1 < 0
  /\ (find_similar_images demo_world "d" 8 (-1) true).2 = Some ∅.
Proof.
  split; [lia|].
  destruct (find_similar_images demo_world "d" 8 (-1) true) as [tr [m|]] eqn:E.
  - cbn [snd]. f_equal.
    exact (negative_threshold_no_groups demo_world "d" 8 (-1) true tr m
             ltac:(lia) E).
  - exfalso. revert E. vm_compute. discriminate.
Defined.

Lemma connected_zero_same_hash (w : World) (folder_path : string)
  (hash_size : Z) (a b : string) :
  connected w folder_path hash_size 0 a b ->
  image_phash w a hash_size = image_phash w b hash_size.
Proof.
  unfold connected. induction 1 as [|x y z Hxy _ IH]; [reflexivity|].
  rewrite <- IH.
  destruct Hxy as (_ & _ & _ & ha & hb & Hha & Hhb & Hle).
  apply hash_sub_zero in Hle. congruence.
Qed.

(** At threshold 0 the groups are the sets of images with one and the same
    fingerprint: the members of a group all have the same fingerprint, and
    two distinct fingerprinted images with the same fingerprint are in one
    group. *)
Theorem threshold_zero_exact_duplicates (w : World) (folder_path : string)
  (hash_size : Z) (cb : bool) (tr : list Action)
  (m : gmap string (list string)) :
  find_similar_images w folder_path hash_size 0 cb = (tr, Some m) ->
  (forall k g x y,
      m !! k = Some g -> x ∈ g -> y ∈ g ->
      image_phash w x hash_size = image_phash w y hash_size)
  /\ (forall a b,
        fingerprinted w folder_path hash_size a ->
        fingerprinted w folder_path hash_size b ->
        a <> b ->
        image_phash w a hash_size = image_phash w b hash_size ->
        exists k g, m !! k = Some g /\ a ∈ g /\ b ∈ g).
Proof.
  intros Hrun.
  destruct (result_groups _ _ _ _ _ _ _ Hrun) as [Hgroups Hcover].
  split.
  - intros k g x y Hk Hx Hy.
    destruct (Hgroups _ _ Hk) as (_ & _ & _ & _ & _ & Hmem).
    apply Hmem, connected_zero_same_hash in Hx.
    apply Hmem, connected_zero_same_hash in Hy. congruence.
  - intros a b Ha Hb Hne Hsame.
    assert (Hab : similar w folder_path hash_size 0 a b).
    { split; [exact Ha|]. split; [exact Hb|]. split; [exact Hne|].
      pose proof Ha as (? & ? & _ & _ & _ & _ & [ha Hha]).
      exists ha, ha. split; [exact Hha|]. split; [congruence|].
      now apply hash_sub_zero. }
    destruct (Hcover a b Hab) as (k & g & Hk & Hag).
    exists k, g. split; [exact Hk|]. split; [exact Hag|].
    destruct (Hgroups _ _ Hk) as (_ & _ & _ & _ & _ & Hmem).
    apply Hmem. apply (connected_trans _ _ _ _ k a b); [now apply Hmem|].
    unfold connected. now apply rtc_once.
Qed.

Lemma threshold_zero_exact_duplicates_witness :
  find_similar_images demo_world "d" 8 0 true = (demo_trace, Some demo_groups_1)
  /\ (forall k g x y,
        demo_groups_1 !! k = Some g -> x ∈ g -> y ∈ g ->
        image_phash demo_world x 8 = image_phash demo_world y 8).
Proof.
  assert (H : find_similar_images demo_world "d" 8 0 true
              = (demo_trace, Some demo_groups_1)) by (vm_compute; reflexivity).
  split; [exact H|].
  exact (proj1 (threshold_zero_exact_duplicates demo_world "d" 8 true
                  demo_trace demo_groups_1 H)).
Defined.





(** ** The total changes between the two phases *)

Lemma hash_trace_app (cb : bool) (total_images : Z) (l1 l2 : list string)
  (cnt : Z) :
  hash_trace cb total_images cnt (l1 ++ l2)
  = hash_trace cb total_images cnt l1
    ++ hash_trace cb total_images (cnt + Z.of_nat (length l1)) l2.
Proof.
  revert cnt. induction l1 as [|p l1 IH]; intros cnt.
  - cbn. now rewrite Z.add_0_r.
  - cbn [app hash_trace length]. rewrite IH, <- app_assoc.
    now replace (cnt + 1 + Z.of_nat (length l1))
      with (cnt + Z.of_nat (S (length l1))) by lia.
Qed.

Lemma hash_trace_last_event (total_images : Z) (files : list string) :
  files <> [] ->
  exists pre,
    progress_events (hash_trace true total_images 0 files)
    = pre ++ [(Z.of_nat (length files), total_images * 2,
               MsgHashing (Z.of_nat (length files)) total_images)].
Proof.
  intros Hne. destruct files as [|p rest] using rev_ind; [congruence|].
  clear IHrest Hne. rewrite hash_trace_app, progress_events_app.
  exists (progress_events (hash_trace true total_images 0 rest)).
  f_equal. cbn [hash_trace notify app].
  rewrite progress_events_Open, progress_events_single, length_app.
  cbn [length]. repeat f_equal; lia.
Qed.

(** In a run with a callback that makes more comparisons than it opens
    images, two consecutive progress events carry the same positive
    [current] while the total grows: the last event of the hashing loop
    reports [N] of [2 * N], the first event of the comparison loop reports
    [N] of a larger total, so the completed fraction falls. *)
Theorem progress_fraction_drops (w : World) (folder_path : string)
  (hash_size similarity_threshold : Z) :
  (length (opens_of (find_similar_images w folder_path hash_size
                       similarity_threshold true).1)
   < length (comparisons_of (find_similar_images w folder_path hash_size
                               similarity_threshold true).1))%nat ->
  exists pre post c t1 t2 m1 m2,
    progress_events (find_similar_images w folder_path hash_size
                       similarity_threshold true).1
    = pre ++ (c, t1, m1) :: (c, t2, m2) :: post
    /\ 0 < c /\ t1 < t2.
Proof.
  rewrite find_similar_images_eq.
  destruct (negb (os_path_isdir w folder_path)); cbn [fst];
    [cbn; lia|].
  destruct (os_listdir w folder_path) as [all_files|e]; cbn [fst];
    [|cbn; lia].
  destruct (scan_trace_log w folder_path hash_size similarity_threshold true
              all_files) as [Ho Hc].
  rewrite Ho, Hc. clear Ho Hc. unfold scan_trace.
  destruct (collect_image_files folder_path all_files) as [|p files];
    [cbn; lia|].
  set (image_files := p :: files).
  destruct (hashes_of w hash_size image_files) as [|kv d]; [cbn; lia|].
  cbn [dict_is_empty dict_keys map].
  set (x := kv.1). set (rest := map fst d). intros Hlt.
  destruct (hash_trace_last_event (Z.of_nat (length image_files)) image_files)
    as (pre & Hpre); [discriminate|].
  set (N := Z.of_nat (length image_files)) in *.
  set (P := Z.of_nat (length (all_pairs (x :: rest)))) in *.
  cbn [rows_trace notify].
  rewrite !progress_events_app, Hpre.
  exists (progress_events [Progress 0 (N * 2) (MsgHashStart N)] ++ pre).
  eexists _, N, (N * 2), (N + P), _, _.
  split.
  - rewrite progress_events_single. cbn [app].
    rewrite <- !app_assoc. cbn [app].
    rewrite progress_events_Progress, Z.add_0_r. reflexivity.
  - unfold N, P, image_files in *. cbn [length] in Hlt |- *. lia.
Qed.

Lemma progress_fraction_drops_witness :
  (length (opens_of (find_similar_images demo_world "d" 8 2 true).1)
   < length (comparisons_of (find_similar_images demo_world "d" 8 2 true).1))%nat
  /\ exists pre post c t1 t2 m1 m2,
       progress_events (find_similar_images demo_world "d" 8 2 true).1
       = pre ++ (c, t1, m1) :: (c, t2, m2) :: post
       /\ 0 < c /\ t1 < t2.
Proof.
  assert (H : (length (opens_of (find_similar_images demo_world "d" 8 2 true).1)
               < length (comparisons_of
                           (find_similar_images demo_world "d" 8 2 true).1))%nat).
  { apply Nat.ltb_lt. vm_compute. reflexivity. }
  split; [exact H|].
  exact (progress_fraction_drops demo_world "d" 8 2 H).
Defined.

(** * Further properties of [ScanWorker] *)

Lemma signals_of_app (r1 r2 : list WorkerEvent) :
  signals_of (r1 ++ r2) = signals_of r1 ++ signals_of r2.
Proof. apply omap_app. Qed.

Lemma progress_signals_app (tr1 tr2 : list Action) :
  progress_signals (tr1 ++ tr2) = progress_signals tr1 ++ progress_signals tr2.
Proof. apply omap_app. Qed.

Lemma worker_steps_unstopped (tr : list Action) (now : nat) :
  signals_of (worker_steps None now tr) = progress_signals tr.
Proof.
  revert now. induction tr as [|a tr IH]; intros now; [reflexivity|].
  destruct a as [p|a b|c t m]; cbn [worker_steps is_running].
  - change (signals_of (Work (Open p) :: ?l)) with (signals_of l). apply IH.
  - change (signals_of (Work (Sub a b) :: ?l)) with (signals_of l). apply IH.
  - rewrite signals_of_app, IH. reflexivity.
Qed.

(** The signals of a worker that is never stopped: every call of the
    progress callback is forwarded in order, then [results] is emitted if
    and only if [find_similar_images] returned a mapping, and [finished] is
    emitted last; on the fatal path there is no [results] signal. *)
Theorem unstopped_worker_signals (w : World) (folder_path : string)
  (hash_size similarity_threshold : Z) :
  signals_of (ScanWorker_run w folder_path hash_size similarity_threshold None)
  = progress_signals
      (find_similar_images w folder_path hash_size similarity_threshold true).1
    ++ match (find_similar_images w folder_path hash_size
                similarity_threshold true).2 with
       | Some g => [SigResults g]
       | None => []
       end
    ++ [SigFinished].
Proof.
  unfold ScanWorker_run.
  destruct (find_similar_images w folder_path hash_size similarity_threshold
              true) as [tr res].
  cbn [fst snd is_running].
  rewrite !signals_of_app, worker_steps_unstopped.
  now destruct res.
Qed.

(** Whenever [stop()] lands, the signals the worker emits are an initial
    part of the signals it emits when it is never stopped: stopping removes
    signals from the end and changes or reorders none. *)
Theorem stop_truncates_signals (w : World) (folder_path : string)
  (hash_size similarity_threshold : Z) (stop_at : option nat) :
  signals_of (ScanWorker_run w folder_path hash_size similarity_threshold
                stop_at)
  `prefix_of`
  signals_of (ScanWorker_run w folder_path hash_size similarity_threshold None).
Proof.
  destruct stop_at as [t|]; [|reflexivity].
  unfold ScanWorker_run.
  destruct (find_similar_images w folder_path hash_size similarity_threshold
              true) as [tr res].
  cbn [is_running].
  rewrite !signals_of_app, worker_steps_unstopped, worker_steps_signals,
    Nat.sub_0_r.
  set (R := match res with Some g => [Emit (SigResults g)] | None => [] end).
  destruct (decide (t <= length tr)%nat) as [Hle|Hgt].
  - assert (H1 : (length tr <? t)%nat = false) by (apply Nat.ltb_nlt; lia).
    assert (H2 : (S (length tr) <? t)%nat = false) by (apply Nat.ltb_nlt; lia).
    rewrite H1, H2. cbn [signals_of omap app]. rewrite app_nil_r.
    rewrite <- (take_drop t tr) at 2. rewrite progress_signals_app.
    rewrite <- app_assoc. now apply prefix_app_r.
  - assert (H1 : (length tr <? t)%nat = true) by (apply Nat.ltb_lt; lia).
    rewrite H1, take_ge by lia.
    apply prefix_app, prefix_app.
    destruct (S (length tr) <? t)%nat; [reflexivity|apply prefix_nil].
Qed.

(** * The window: [DuplicateImageFinderApp]

    The handlers of the main window are state transformers on a record of
    the widget properties they read or write. A message box is modal and
    has no effect on the window beyond being shown: the boxes are logged in
    order. Tool tips, item flags and check states, which no handler reads,
    are left out of the tree items. *)

From Stdlib Require DecimalString.

(** [str(n)] of a Python integer, as an f-string prints it. *)
Definition py_str_int (z : Z) : string :=
  DecimalString.NilZero.string_of_int (Z.to_int z).

(** [needle in hay] on strings. *)
Fixpoint contains (needle hay : string) : bool :=
  String.prefix needle hay
  || match hay with
     | EmptyString => false
     | String _ hay' => contains needle hay'
     end.

(** The text of a progress message, as [find_similar_images] formats it. *)
Definition render (message : Message) : string :=
  match message with
  | MsgFolderNotFound folder_path =>
      "Erro: Pasta não encontrada em " +:+ folder_path
  | MsgListError e => "Erro ao listar diretório: " +:+ e
  | MsgNoSupported => "Nenhum arquivo de imagem suportado encontrado."
  | MsgHashStart total_images =>
      "Calculando hashes para " +:+ py_str_int total_images +:+ " imagens..."
  | MsgHashing processed_count total_images =>
      "Calculando hash: " +:+ py_str_int processed_count +:+ "/"
      +:+ py_str_int total_images
  | MsgNoneProcessed => "Nenhuma imagem pôde ser processada."
  | MsgComparing comparison_count total_comparisons_possible =>
      "Comparando pares: " +:+ py_str_int comparison_count +:+ "/"
      +:+ py_str_int total_comparisons_possible
  | MsgDone groups =>
      "Concluído. Encontrados " +:+ py_str_int groups
      +:+ " grupos de imagens similares."
  end.

(** [p[:i], p[i:]] for [i = p.rfind('/') + 1]. *)
Fixpoint split_last_sep (p : string) : string * string :=
  match p with
  | EmptyString => (EmptyString, EmptyString)
  | String c p' =>
      let '(head, tail) := split_last_sep p' in
      if negb (String.eqb head "") then (String c head, tail)
      else if Ascii.eqb c "/" then (String c EmptyString, tail)
      else (EmptyString, String c tail)
  end.

(** [s.rstrip('/')]. *)
Fixpoint rstrip_sep (s : string) : string :=
  match s with
  | EmptyString => EmptyString
  | String c s' =>
      let r := rstrip_sep s' in
      if (String.eqb r "" && Ascii.eqb c "/")%bool then EmptyString
      else String c r
  end.

(** ['/' * n]. *)
Fixpoint sep_times (n : nat) : string :=
  match n with
  | O => EmptyString
  | S n' => String "/" (sep_times n')
  end.

(** [os.path.basename] of [posixpath]. *)
Definition os_path_basename (p : string) : string := (split_last_sep p).2.

(** [os.path.dirname] of [posixpath]. *)
Definition os_path_dirname (p : string) : string :=
  let head := (split_last_sep p).1 in
  if (negb (String.eqb head "")
      && negb (String.eqb head (sep_times (String.length head))))%bool
  then rstrip_sep head
  else head.

(** A row of the results tree: its two columns and the dict stored under
    [UserRole]. *)
Record Item : Type := {
  text0 : string;
  text1 : string;
  data_is_group : bool;
  data_path : string
}.

(** A top-level item with its child rows. *)
Record GroupItem : Type := {
  header : Item;
  children : list Item
}.

Inductive Box : Type :=
| Information (title text : string)
| Critical (title text : string)
| Warning (title text : string)
| Question (title text : string).

Record Gui : Type := {
  selected_folder : string;
  status_text : string;        (* status_label.text() *)
  progress_value : Z;          (* progress_bar.value() *)
  progress_visible : bool;
  scan_button_text : string;
  browse_enabled : bool;
  results_tree : list GroupItem;
  scan_thread : bool;          (* self.scan_thread is not None *)
  boxes : list Box             (* the message boxes shown so far *)
}.

Definition set_status (s : string) (g : Gui) : Gui :=
  {| selected_folder := selected_folder g; status_text := s;
     progress_value := progress_value g;
     progress_visible := progress_visible g;
     scan_button_text := scan_button_text g;
     browse_enabled := browse_enabled g; results_tree := results_tree g;
     scan_thread := scan_thread g; boxes := boxes g |}.

Definition set_progress_value (v : Z) (g : Gui) : Gui :=
  {| selected_folder := selected_folder g; status_text := status_text g;
     progress_value := v; progress_visible := progress_visible g;
     scan_button_text := scan_button_text g;
     browse_enabled := browse_enabled g; results_tree := results_tree g;
     scan_thread := scan_thread g; boxes := boxes g |}.

Definition set_progress_visible (b : bool) (g : Gui) : Gui :=
  {| selected_folder := selected_folder g; status_text := status_text g;
     progress_value := progress_value g; progress_visible := b;
     scan_button_text := scan_button_text g;
     browse_enabled := browse_enabled g; results_tree := results_tree g;
     scan_thread := scan_thread g; boxes := boxes g |}.

Definition set_scan_button_text (s : string) (g : Gui) : Gui :=
  {| selected_folder := selected_folder g; status_text := status_text g;
     progress_value := progress_value g;
     progress_visible := progress_visible g; scan_button_text := s;
     browse_enabled := browse_enabled g; results_tree := results_tree g;
     scan_thread := scan_thread g; boxes := boxes g |}.

Definition set_browse_enabled (b : bool) (g : Gui) : Gui :=
  {| selected_folder := selected_folder g; status_text := status_text g;
     progress_value := progress_value g;
     progress_visible := progress_visible g;
     scan_button_text := scan_button_text g; browse_enabled := b;
     results_tree := results_tree g; scan_thread := scan_thread g;
     boxes := boxes g |}.

Definition set_results_tree (t : list GroupItem) (g : Gui) : Gui :=
  {| selected_folder := selected_folder g; status_text := status_text g;
     progress_value := progress_value g;
     progress_visible := progress_visible g;
     scan_button_text := scan_button_text g;
     browse_enabled := browse_enabled g; results_tree := t;
     scan_thread := scan_thread g; boxes := boxes g |}.

Definition set_scan_thread (b : bool) (g : Gui) : Gui :=
  {| selected_folder := selected_folder g; status_text := status_text g;
     progress_value := progress_value g;
     progress_visible := progress_visible g;
     scan_button_text := scan_button_text g;
     browse_enabled := browse_enabled g; results_tree := results_tree g;
     scan_thread := b; boxes := boxes g |}.

Definition show_box (b : Box) (g : Gui) : Gui :=
  {| selected_folder := selected_folder g; status_text := status_text g;
     progress_value := progress_value g;
     progress_visible := progress_visible g;
     scan_button_text := scan_button_text g;
     browse_enabled := browse_enabled g; results_tree := results_tree g;
     scan_thread := scan_thread g; boxes := boxes g ++ [b] |}.

(** What [start_scan] asks of the worker thread. The worker is always made
    with the defaults of [ScanWorker.__init__]: hash size 8, threshold 5. *)
Inductive Command : Type :=
| CmdNone
| CmdStop
| CmdStart (folder_path : string) (hash_size similarity_threshold : Z).

(** [scan_finished]. *)
Definition scan_finished (g : Gui) : Gui :=
  let g := set_scan_button_text "Iniciar Verificação" g in
  let g := set_browse_enabled true g in
  let g := set_progress_visible false g in
  let g :=
    if negb (contains "Erro:" (status_text g))
    then
      if (negb (0 <? length (results_tree g))%nat
          && negb (contains "Nenhum grupo" (status_text g)))%bool
      then set_status "Pronto. Selecione uma pasta ou inicie a verificação." g
      else g
    else g in
  set_scan_thread false g.

(** [show_error]. *)
Definition show_error (g : Gui) (error_message : string) : Gui :=
  let g := set_status ("Erro: " +:+ error_message) g in
  let g := show_box (Critical "Erro" error_message) g in
  scan_finished g.

(** One round of the loop of [display_results] over the items of the
    dict: the top-level item of the group and one child per path. *)
Definition display_group (st : list GroupItem * Z)
  (entry : string * list string) : list GroupItem * Z :=
  let '(tree, group_count) := st in
  let '(representative_path, group_paths) := entry in
  let group_item :=
    {| text0 := "Grupo " +:+ py_str_int group_count +:+ " ("
                +:+ py_str_int (Z.of_nat (length group_paths)) +:+ " imagens)";
       text1 := os_path_dirname representative_path;
       data_is_group := true;
       data_path := os_path_dirname representative_path |} in
  let child img_path :=
    {| text0 := os_path_basename img_path;
       text1 := img_path;
       data_is_group := false;
       data_path := img_path |} in
  (tree ++ [{| header := group_item; children := map child group_paths |}],
   group_count + 1).

(** [display_results]; [similar_groups] holds the items of the dict in
    the order [dict.items()] yields them. *)
Definition display_results (g : Gui) (similar_groups : list (string * list string))
  : Gui :=
  let g := set_results_tree [] g in
  match similar_groups with
  | [] =>
      let g := set_status "Nenhum grupo de imagens similares encontrado." g in
      show_box (Information "Concluído"
                  "Nenhum grupo de imagens similares foi encontrado na pasta selecionada.")
               g
  | _ :: _ =>
      let n := py_str_int (Z.of_nat (length similar_groups)) in
      let g :=
        set_status ("Encontrados " +:+ n +:+ " grupos de imagens similares.") g in
      let g :=
        set_results_tree
          (foldl display_group (results_tree g, 1) similar_groups).1 g in
      show_box (Information "Concluído"
                  ("Verificação concluída. " +:+ n
                   +:+ " grupos de imagens similares encontrados."))
               g
  end.

(** [start_scan]. [thread_running] is [self.scan_thread.isRunning()] and
    [reply_yes] the answer to the question box, when they are asked for. *)
Definition start_scan (g : Gui) (thread_running reply_yes : bool) : Gui * Command :=
  if String.eqb (selected_folder g) ""
  then (show_box (Warning "Aviso" "Por favor, selecione uma pasta primeiro.") g,
        CmdNone)
  else if (scan_thread g && thread_running)%bool
  then
    let g := show_box (Question "Verificação em Andamento"
                         "Uma verificação já está em andamento. Deseja pará-la?")
                      g in
    if reply_yes
    then
      let g := set_scan_button_text "Iniciar Verificação" g in
      let g := set_progress_visible false g in
      let g := set_status "Verificação cancelada." g in
      (g, CmdStop)
    else (g, CmdNone)
  else
    let g := set_results_tree [] g in
    let g := set_progress_value 0 g in
    let g := set_progress_visible true g in
    let g := set_status "Iniciando verificação..." g in
    let g := set_scan_button_text "Parar Verificação" g in
    let g := set_browse_enabled false g in
    let g := set_scan_thread true g in
    (g, CmdStart (selected_folder g) 8 5).

(** The folder that [open_image_location] hands to the system opener for
    a double-clicked row, [None] when it returns before opening. *)
Definition open_image_location (item : Item) : option string :=
  let path_to_open := data_path item in
  if String.eqb path_to_open "" then None
  else if negb (data_is_group item)
  then Some (os_path_dirname path_to_open)
  else Some path_to_open.

Section Window.

(** [int((current_step / total_steps) * 100)] is computed in floating
    point; the handlers are stated for whatever it yields. *)
Variable percentage : Z -> Z -> Z.

(** [update_progress]. *)
Definition update_progress (g : Gui) (current_step total_steps : Z)
  (message : string) : Gui :=
  let g :=
    if 0 <? total_steps
    then set_progress_value (percentage current_step total_steps) g
    else g in
  set_status message g.

End Window.

(** ** What the status label shows when a scan ends *)

Lemma contains_cons (needle : string) (c : ascii) (hay : string) :
  contains needle (String c hay)
  = (String.prefix needle (String c hay) || contains needle hay)%bool.
Proof. reflexivity. Qed.

Lemma contains_prefix (needle hay : string) :
  String.prefix needle hay = true -> contains needle hay = true.
Proof. intros H. destruct hay; cbn [contains]; now rewrite H. Qed.

Lemma scan_finished_keeps_error (g : Gui) :
  contains "Erro:" (status_text g) = true ->
  status_text (scan_finished g) = status_text g.
Proof. intros H. unfold scan_finished. cbn. now rewrite H. Qed.

Lemma scan_finished_keeps_results (g : Gui) :
  results_tree g <> [] -> status_text (scan_finished g) = status_text g.
Proof.
  intros H. unfold scan_finished. cbn.
  destruct (results_tree g) as [|x t]; [congruence|].
  cbn. now destruct (contains "Erro:" (status_text g)).
Qed.

(** The message reported when the folder does not exist starts with
    "Erro:" and is still in the status label after [update_progress] and
    [scan_finished] have run, for every folder name. *)
Theorem folder_not_found_status_stays (percentage : Z -> Z -> Z) (g : Gui)
  (folder_path : string) :
  status_text
    (scan_finished
       (update_progress percentage g 0 1
          (render (MsgFolderNotFound folder_path))))
  = render (MsgFolderNotFound folder_path).
Proof.
  rewrite scan_finished_keeps_error; [reflexivity|].
  apply contains_prefix. reflexivity.
Qed.

Lemma listing_message_needles (e : string) :
  contains "Erro:" (render (MsgListError e)) = contains "Erro:" e
  /\ contains "Nenhum grupo" (render (MsgListError e))
     = contains "Nenhum grupo" e.
Proof.
  unfold render. split.
  - cbn [String.append]. repeat rewrite contains_cons.
    cbn [String.prefix]. reflexivity.
  - cbn [String.append]. repeat rewrite contains_cons.
    cbn [String.prefix]. reflexivity.
Qed.

(** The message reported when the listing fails starts with "Erro " and
    not with "Erro:". After a fresh start of a scan (the tree is cleared),
    [update_progress] with that message followed by [scan_finished] leaves
    the idle text in the status label, unless the system's error text
    itself holds "Erro:" or "Nenhum grupo": the listing error is not kept
    on screen. *)
Theorem listing_error_status_replaced (percentage : Z -> Z -> Z) (g : Gui)
  (reply_yes : bool) (e : string) :
  selected_folder g <> ""%string ->
  contains "Erro:" e = false ->
  contains "Nenhum grupo" e = false ->
  status_text
    (scan_finished
       (update_progress percentage (start_scan g false reply_yes).1 0 1
          (render (MsgListError e))))
  = "Pronto. Selecione uma pasta ou inicie a verificação."%string.
Proof.
  intros Hsel He1 He2.
  destruct (listing_message_needles e) as [H1 H2].
  unfold start_scan.
  destruct (String.eqb_spec (selected_folder g) "") as [Heq|_]; [congruence|].
  rewrite andb_false_r. cbn [fst].
  unfold scan_finished, update_progress. cbn -[contains render].
  now rewrite H1, H2, He1, He2.
Qed.

Definition demo_gui : Gui :=
  {| selected_folder := "d"; status_text := "";
     progress_value := 0; progress_visible := false;
     scan_button_text := "Iniciar Verificação"; browse_enabled := true;
     results_tree := []; scan_thread := false; boxes := [] |}.

Lemma listing_error_status_replaced_witness :
  selected_folder demo_gui <> ""%string
  /\ status_text
       (scan_finished
          (update_progress (fun c t => (c * 100) `div` t)
             (start_scan demo_gui false false).1 0 1
             (render (MsgListError
                        "[Errno 13] Permission denied: 'd'"))))
     = "Pronto. Selecione uma pasta ou inicie a verificação."%string.
Proof.
  assert (H : selected_folder demo_gui <> ""%string) by discriminate.
  split; [exact H|].
  exact (listing_error_status_replaced (fun c t => (c * 100) `div` t)
           demo_gui false "[Errno 13] Permission denied: 'd'" H
           eq_refl eq_refl).
Defined.

(** The status text that [display_results] sets is still there after
    [scan_finished]: the text for an empty result holds "Nenhum grupo", and
    a non-empty result leaves a non-empty tree. *)
Theorem results_status_stays (g : Gui)
  (similar_groups : list (string * list string)) :
  status_text (scan_finished (display_results g similar_groups))
  = status_text (display_results g similar_groups).
Proof.
  destruct similar_groups as [|entry rest].
  - unfold display_results, scan_finished. cbn -[contains].
    reflexivity.
  - apply scan_finished_keeps_results.
    unfold display_results. cbn [results_tree show_box set_results_tree].
    cbn [foldl set_status results_tree]. 
    assert (H : forall l st, (foldl display_group st l).1 = [] -> st.1 = []).
    { induction l as [|x l IH]; intros st Hst; [exact Hst|].
      cbn [foldl] in Hst. apply IH in Hst.
      destruct st as [tree n], x as [k paths]. cbn in Hst.
      now apply app_eq_nil in Hst as [_ ?]. }
    intros Hnil. apply H in Hnil.
    destruct entry as [k paths]. cbn in Hnil. discriminate.
Qed.

(** ** The rows of the results tree *)

Lemma contains_sep_cons (c : ascii) (s : string) :
  contains "/" (String c s) = false ->
  Ascii.eqb c "/" = false /\ contains "/" s = false.
Proof.
  rewrite contains_cons. intros H. apply orb_false_elim in H.
  destruct H as [Hp Hc]. split; [|exact Hc].
  cbn [String.prefix] in Hp.
  destruct (Ascii.eqb_spec c "/") as [->|Hne]; [|reflexivity].
  destruct (ascii_dec "/" "/") as [_|Hn]; [|congruence].
  destruct s; discriminate.
Qed.

Lemma split_last_sep_no_sep (s : string) :
  contains "/" s = false -> split_last_sep s = (""%string, s).
Proof.
  induction s as [|c s IH]; intros H; [reflexivity|].
  apply contains_sep_cons in H. destruct H as [Hc Hs].
  cbn [split_last_sep]. rewrite (IH Hs). cbn. now rewrite Hc.
Qed.

Lemma split_last_sep_app (a b : string) :
  contains "/" b = false ->
  split_last_sep (a +:+ b)
  = ((split_last_sep a).1, (split_last_sep a).2 +:+ b).
Proof.
  intros Hb. induction a as [|c a IH].
  - simpl. now apply split_last_sep_no_sep.
  - change (String c a +:+ b) with (String c (a +:+ b)).
    cbn [split_last_sep]. rewrite IH.
    destruct (split_last_sep a) as [h t]. cbn [fst snd].
    destruct (String.eqb h ""); cbn [negb]; [|reflexivity].
    destruct (Ascii.eqb c "/"); reflexivity.
Qed.

Lemma split_last_sep_trailing (a : string) :
  split_last_sep (a +:+ "/") = (a +:+ "/", ""%string).
Proof.
  induction a as [|c a IH]; [reflexivity|].
  change (String c a +:+ "/") with (String c (a +:+ "/")).
  cbn [split_last_sep]. rewrite IH.
  assert (H : String.eqb (a +:+ "/") "" = false) by (now destruct a).
  now rewrite H.
Qed.

Lemma str_app_assoc (a b c : string) : (a +:+ b) +:+ c = a +:+ (b +:+ c).
Proof.
  induction a as [|x a IH]; [reflexivity|].
  change (String x ((a +:+ b) +:+ c) = String x (a +:+ (b +:+ c))).
  now f_equal.
Qed.

(** What [os.path.join] puts before a name that holds no separator. *)
Definition join_prefix (folder_path : string) : string :=
  if (String.eqb folder_path "" || endswith folder_path "/")%bool
  then folder_path
  else folder_path +:+ "/".

Lemma os_path_join_no_sep (folder_path filename : string) :
  contains "/" filename = false ->
  os_path_join folder_path filename = join_prefix folder_path +:+ filename.
Proof.
  intros H. unfold os_path_join, join_prefix, startswith.
  assert (Hp : String.prefix "/" filename = false).
  { destruct filename as [|c s]; [reflexivity|].
    rewrite contains_cons in H. now apply orb_false_elim in H as [? _]. }
  rewrite Hp.
  destruct (String.eqb folder_path "" || endswith folder_path "/")%bool;
    [reflexivity|].
  now rewrite str_app_assoc.
Qed.

Lemma join_prefix_tail (folder_path : string) :
  (split_last_sep (join_prefix folder_path)).2 = ""%string.
Proof.
  unfold join_prefix.
  destruct (String.eqb_spec folder_path "") as [->|Hne]; [reflexivity|].
  cbn [orb].
  destruct (endswith folder_path "/") eqn:E.
  - apply endswith_spec in E. destruct E as (pre & ->).
    now rewrite split_last_sep_trailing.
  - now rewrite split_last_sep_trailing.
Qed.

(** The file name of a joined path is the directory entry it was joined
    from, and its directory does not depend on the entry. *)
Lemma join_basename_dirname (folder_path filename : string) :
  contains "/" filename = false ->
  os_path_basename (os_path_join folder_path filename) = filename
  /\ os_path_dirname (os_path_join folder_path filename)
     = os_path_dirname (join_prefix folder_path).
Proof.
  intros H. rewrite (os_path_join_no_sep _ _ H).
  unfold os_path_basename, os_path_dirname.
  rewrite (split_last_sep_app _ _ H), join_prefix_tail. cbn [fst snd].
  split; reflexivity.
Qed.

Lemma display_rows_elem_of (l : list (string * list string))
  (tree : list GroupItem) (n : Z) (grp : GroupItem) :
  grp ∈ (foldl display_group (tree, n) l).1 ->
  grp ∈ tree
  \/ exists k paths,
       (k, paths) ∈ l
       /\ data_path (header grp) = os_path_dirname k
       /\ children grp
          = map (fun img_path =>
                   {| text0 := os_path_basename img_path; text1 := img_path;
                      data_is_group := false; data_path := img_path |}) paths.
Proof.
  revert tree n. induction l as [|[k paths] l IH]; intros tree n H.
  - now left.
  - cbn [foldl display_group] in H. apply IH in H.
    destruct H as [H|(k' & paths' & Hin & Hrest)].
    + apply elem_of_app in H. destruct H as [H|H]; [now left|].
      apply list_elem_of_singleton in H. subst grp. right.
      exists k, paths. split; [now left|]. now split.
    + right. exists k', paths'. split; [now right|exact Hrest].
Qed.

(** When the paths of the groups are the joined paths of non-empty entry
    names without a separator, as a directory listing yields them, every
    child row shows the entry name in its first column, and a double click
    on it opens the folder stored in the header of its group. *)
Theorem rows_show_names_and_open_folder (g : Gui)
  (similar_groups : list (string * list string)) (folder_path : string)
  (grp : GroupItem) (c : Item) :
  (forall k paths p,
      (k, paths) ∈ similar_groups -> p ∈ k :: paths ->
      exists filename,
        filename <> ""%string
        /\ contains "/" filename = false
        /\ p = os_path_join folder_path filename) ->
  grp ∈ results_tree (display_results g similar_groups) ->
  c ∈ children grp ->
  (exists filename,
      data_path c = os_path_join folder_path filename
      /\ text0 c = filename)
  /\ open_image_location c = Some (data_path (header grp)).
Proof.
  intros Hpaths Hgrp Hc.
  assert (Hin : grp ∈ (foldl display_group ([], 1) similar_groups).1).
  { destruct similar_groups as [|x l]; [inversion Hgrp|exact Hgrp]. }
  apply display_rows_elem_of in Hin.
  destruct Hin as [Hin|(k & paths & Hk & Hdir & Hch)]; [inversion Hin|].
  rewrite Hch in Hc. apply list_elem_of_fmap in Hc.
  destruct Hc as (p & -> & Hp).
  destruct (Hpaths k paths p Hk ltac:(now right)) as (n & Hn & Hsep & ->).
  destruct (Hpaths k paths k Hk ltac:(now left)) as (nk & _ & Hsepk & Hkeq).
  destruct (join_basename_dirname folder_path n Hsep) as [Hb Hd].
  destruct (join_basename_dirname folder_path nk Hsepk) as [_ Hdk].
  split.
  - exists n. cbn [data_path text0]. now split.
  - unfold open_image_location. cbn [data_path data_is_group negb].
    assert (Hne : String.eqb (os_path_join folder_path n) "" = false).
    { rewrite (os_path_join_no_sep _ _ Hsep). apply String.eqb_neq.
      intros Heq. destruct (join_prefix folder_path); destruct n;
        try discriminate; congruence. }
    rewrite Hne, Hdir, Hkeq, Hd, Hdk. reflexivity.
Qed.

Lemma rows_show_names_and_open_folder_witness :
  (forall k paths p,
      (k, paths) ∈ [("d/a.png", ["d/a.png"; "d/b.jpg"])]%string ->
      p ∈ k :: paths ->
      exists filename,
        filename <> ""%string
        /\ contains "/" filename = false
        /\ p = os_path_join "d" filename)
  /\ open_image_location
       {| text0 := "b.jpg"; text1 := "d/b.jpg"; data_is_group := false;
          data_path := "d/b.jpg" |}
     = Some "d"%string.
Proof.
  assert (H : forall k paths p,
            (k, paths) ∈ [("d/a.png", ["d/a.png"; "d/b.jpg"])]%string ->
            p ∈ k :: paths ->
            exists filename,
              filename <> ""%string
              /\ contains "/" filename = false
              /\ p = os_path_join "d" filename).
  { intros k paths p Hk Hp. apply list_elem_of_singleton in Hk.
    injection Hk as -> ->.
    rewrite !elem_of_cons, elem_of_nil in Hp.
    destruct Hp as [-> | [-> | [-> | []]]].
    - exists "a.png"%string. split; [discriminate|]. now split.
    - exists "a.png"%string. split; [discriminate|]. now split.
    - exists "b.jpg"%string. split; [discriminate|]. now split. }
  split; [exact H|].
  refine (proj2 (rows_show_names_and_open_folder demo_gui
                   [("d/a.png", ["d/a.png"; "d/b.jpg"])]%string "d"
                   {| header := {| text0 := "Grupo 1 (2 imagens)"; text1 := "d";
                                   data_is_group := true; data_path := "d" |};
                      children :=
                        [{| text0 := "a.png"; text1 := "d/a.png";
                            data_is_group := false; data_path := "d/a.png" |};
                         {| text0 := "b.jpg"; text1 := "d/b.jpg";
                            data_is_group := false; data_path := "d/b.jpg" |}] |}
                   _ H _ _)).
  - vm_compute. now left.
  - right. now left.
Defined.

(** ** The worker's signals, delivered to the window *)

(** The controls that [update_progress] leaves alone. *)
Definition same_controls (g g' : Gui) : Prop :=
  selected_folder g' = selected_folder g
  /\ progress_visible g' = progress_visible g
  /\ scan_button_text g' = scan_button_text g
  /\ browse_enabled g' = browse_enabled g
  /\ results_tree g' = results_tree g
  /\ scan_thread g' = scan_thread g
  /\ boxes g' = boxes g.

Lemma same_controls_refl (g : Gui) : same_controls g g.
Proof. now repeat split. Qed.

Lemma same_controls_trans (g1 g2 g3 : Gui) :
  same_controls g1 g2 -> same_controls g2 g3 -> same_controls g1 g3.
Proof.
  unfold same_controls. intros (?&?&?&?&?&?&?) (?&?&?&?&?&?&?).
  repeat split; congruence.
Qed.

Lemma display_rows_length (l : list (string * list string))
  (tree : list GroupItem) (n : Z) :
  length (foldl display_group (tree, n) l).1 = (length tree + length l)%nat.
Proof.
  revert tree n. induction l as [|[k paths] l IH]; intros tree n.
  - cbn. lia.
  - cbn [foldl display_group]. rewrite IH, length_app. cbn [length]. lia.
Qed.

Section Connections.

(** [int((current_step / total_steps) * 100)], computed in floating
    point. *)
Variable percentage : Z -> Z -> Z.

(** The items of a returned dict in the order [dict.items()] yields
    them; the finite-map model of the result does not fix that order. *)
Variable items_of : gmap string (list string) -> list (string * list string).

(** The connections made in [start_scan]: [progress] to
    [update_progress], [results] to [display_results], [finished] to
    [scan_finished]. *)
Definition deliver (g : Gui) (s : Signal) : Gui :=
  match s with
  | SigProgress current total message =>
      update_progress percentage g current total (render message)
  | SigResults similar_groups => display_results g (items_of similar_groups)
  | SigFinished => scan_finished g
  end.

Lemma deliver_progress_controls (tr : list Action) (g : Gui) :
  same_controls g (foldl deliver g (progress_signals tr)).
Proof.
  revert g. induction tr as [|a tr IH]; intros g; [apply same_controls_refl|].
  destruct a as [p|a b|c t m]; try apply IH.
  change (progress_signals (Progress c t m :: tr))
    with (SigProgress c t m :: progress_signals tr).
  cbn [foldl]. eapply same_controls_trans; [|apply IH].
  unfold deliver, update_progress.
  destruct (0 <? t); now repeat split.
Qed.

Lemma deliver_prefix_controls (tr : list Action) (g : Gui)
  (s1 s2 : list Signal) :
  progress_signals tr = s1 ++ s2 -> same_controls g (foldl deliver g s1).
Proof.
  revert g s1. induction tr as [|a tr IH]; intros g s1 H.
  - symmetry in H. apply app_eq_nil in H as [-> _]. apply same_controls_refl.
  - destruct a as [p|a b|c t m]; try (now apply IH).
    change (progress_signals (Progress c t m :: tr))
      with (SigProgress c t m :: progress_signals tr) in H.
    destruct s1 as [|s s1]; [apply same_controls_refl|].
    injection H as <- H. cbn [foldl].
    eapply same_controls_trans; [|apply (IH _ _ H)].
    unfold deliver, update_progress.
    destruct (0 <? t); now repeat split.
Qed.

End Connections.

Definition is_progress_signal (s : Signal) : Prop :=
  match s with
  | SigProgress _ _ _ => True
  | _ => False
  end.

Lemma progress_signals_all_progress (tr : list Action) :
  Forall is_progress_signal (progress_signals tr).
Proof.
  induction tr as [|a tr IH]; [constructor|].
  destruct a as [p|a b|c t m]; try exact IH.
  constructor; [exact I|exact IH].
Qed.

Lemma deliver_progress_only (percentage : Z -> Z -> Z)
  (items_of : gmap string (list string) -> list (string * list string))
  (ss : list Signal) (g : Gui) :
  Forall is_progress_signal ss ->
  same_controls g (foldl (deliver percentage items_of) g ss).
Proof.
  revert g. induction ss as [|s ss IH]; intros g H; [apply same_controls_refl|].
  apply Forall_cons in H. destruct H as [Hs Hss].
  destruct s as [c t m|d|]; try contradiction.
  cbn [foldl]. eapply same_controls_trans; [|apply (IH _ Hss)].
  unfold deliver, update_progress.
  destruct (0 <? t); now repeat split.
Qed.

Lemma scan_finished_controls (g : Gui) :
  scan_button_text (scan_finished g) = "Iniciar Verificação"%string
  /\ browse_enabled (scan_finished g) = true
  /\ progress_visible (scan_finished g) = false
  /\ scan_thread (scan_finished g) = false
  /\ results_tree (scan_finished g) = results_tree g.
Proof.
  unfold scan_finished.
  split; [|split; [|split; [|split]]];
    repeat match goal with
           | |- context [if ?b then _ else _] => destruct b
           end; reflexivity.
Qed.

Lemma display_results_status (g : Gui)
  (similar_groups : list (string * list string)) :
  status_text (display_results g similar_groups)
  = match similar_groups with
    | [] => "Nenhum grupo de imagens similares encontrado."%string
    | _ :: _ =>
        "Encontrados " +:+ py_str_int (Z.of_nat (length similar_groups))
        +:+ " grupos de imagens similares."
    end
  /\ length (results_tree (display_results g similar_groups))
     = length similar_groups.
Proof.
  destruct similar_groups as [|entry rest]; [now split|].
  unfold display_results.
  cbn [status_text results_tree show_box set_results_tree set_status].
  split; [reflexivity|]. now rewrite display_rows_length.
Qed.

(** A scan that is never stopped and returns a mapping [m] leaves the
    window as follows, whatever the progress events were: the tree has one
    top-level item per group, the status label reads "Nenhum grupo de
    imagens similares encontrado." when [m] is empty and "Encontrados n
    grupos de imagens similares." otherwise, the scan button is back to its
    start text, the browse button is enabled, the progress bar is hidden
    and the thread reference is cleared. In particular the texts that
    [find_similar_images] reports for an empty result do not stay in the
    status label. *)
Theorem completed_scan_window (percentage : Z -> Z -> Z)
  (items_of : gmap string (list string) -> list (string * list string))
  (g : Gui) (w : World) (folder_path : string)
  (hash_size similarity_threshold : Z) (m : gmap string (list string)) :
  (forall d, items_of d ≡ₚ map_to_list d) ->
  (find_similar_images w folder_path hash_size similarity_threshold true).2
  = Some m ->
  let final :=
    foldl (deliver percentage items_of) g
      (signals_of (ScanWorker_run w folder_path hash_size
                     similarity_threshold None)) in
  status_text final
  = (if decide (m = ∅)
     then "Nenhum grupo de imagens similares encontrado."%string
     else "Encontrados " +:+ py_str_int (Z.of_nat (size m))
          +:+ " grupos de imagens similares.")
  /\ length (results_tree final) = size m
  /\ scan_button_text final = "Iniciar Verificação"%string
  /\ browse_enabled final = true
  /\ progress_visible final = false
  /\ scan_thread final = false.
Proof.
  intros Hitems Hres. cbv zeta. unfold ScanWorker_run.
  destruct (find_similar_images w folder_path hash_size similarity_threshold
              true) as [tr res].
  cbn [snd] in Hres. subst res. cbn [is_running].
  rewrite !signals_of_app, worker_steps_unstopped.
  change (signals_of [Emit (SigResults m)]) with [SigResults m].
  change (signals_of [Emit SigFinished]) with [SigFinished].
  rewrite !foldl_app. cbn [foldl deliver].
  set (gP := foldl (deliver percentage items_of) g (progress_signals tr)).
  destruct (scan_finished_controls (display_results gP (items_of m)))
    as (Hb & Hbr & Hpv & Hth & Htree).
  destruct (display_results_status gP (items_of m)) as [Hst Hlen].
  assert (Hn : length (items_of m) = size m).
  { rewrite (Permutation_length (Hitems m)). apply length_map_to_list. }
  split; [|split; [|now repeat split]].
  - rewrite results_status_stays, Hst.
    destruct (items_of m) as [|x l] eqn:E.
    + assert (m = ∅) as ->.
      { apply map_to_list_empty_iff. apply Permutation_nil_r.
        rewrite <- E. symmetry. apply Hitems. }
      now rewrite decide_True.
    + rewrite decide_False; [now rewrite Hn|].
      intros ->. cbn in Hn. rewrite map_size_empty in Hn. discriminate.
  - now rewrite Htree, Hlen.
Qed.

Lemma completed_scan_window_witness :
  (find_similar_images demo_world "d" 8 5 true).2 = Some demo_groups
  /\ status_text
       (foldl (deliver (fun c t => (c * 100) `div` t) map_to_list) demo_gui
          (signals_of (ScanWorker_run demo_world "d" 8 5 None)))
     = "Encontrados 1 grupos de imagens similares."%string.
Proof.
  assert (H : (find_similar_images demo_world "d" 8 5 true).2
              = Some demo_groups) by (vm_compute; reflexivity).
  split; [exact H|].
  exact (proj1 (completed_scan_window (fun c t => (c * 100) `div` t)
                  map_to_list demo_gui demo_world "d" 8 5 demo_groups
                  (fun d => reflexivity _) H)).
Defined.

(** A scan of a path that is not a directory, never stopped, ends with
    the error text in the status label and the controls reset; the tree is
    not touched. *)
Theorem missing_folder_window (percentage : Z -> Z -> Z)
  (items_of : gmap string (list string) -> list (string * list string))
  (g : Gui) (w : World) (folder_path : string)
  (hash_size similarity_threshold : Z) :
  os_path_isdir w folder_path = false ->
  let final :=
    foldl (deliver percentage items_of) g
      (signals_of (ScanWorker_run w folder_path hash_size
                     similarity_threshold None)) in
  status_text final = ("Erro: Pasta não encontrada em " +:+ folder_path)%string
  /\ results_tree final = results_tree g
  /\ scan_button_text final = "Iniciar Verificação"%string
  /\ browse_enabled final = true
  /\ progress_visible final = false
  /\ scan_thread final = false.
Proof.
  intros Hdir. cbv zeta. unfold ScanWorker_run, find_similar_images.
  rewrite Hdir. cbn [negb notify length worker_steps is_running app].
  change (signals_of [Emit (SigProgress 0 1 (MsgFolderNotFound folder_path));
                      Emit SigFinished])
    with [SigProgress 0 1 (MsgFolderNotFound folder_path); SigFinished].
  cbn [foldl deliver].
  destruct (scan_finished_controls
              (update_progress percentage g 0 1
                 (render (MsgFolderNotFound folder_path))))
    as (Hb & Hbr & Hpv & Hth & Htree).
  split; [apply folder_not_found_status_stays|].
  split; [now rewrite Htree|]. now repeat split.
Qed.

Lemma missing_folder_window_witness :
  os_path_isdir demo_world "nowhere" = false
  /\ status_text
       (foldl (deliver (fun c t => (c * 100) `div` t) map_to_list) demo_gui
          (signals_of (ScanWorker_run demo_world "nowhere" 8 5 None)))
     = "Erro: Pasta não encontrada em nowhere"%string.
Proof.
  split; [reflexivity|].
  exact (proj1 (missing_folder_window (fun c t => (c * 100) `div` t)
                  map_to_list demo_gui demo_world "nowhere" 8 5 eq_refl)).
Defined.

(** A scan of a folder whose listing raises [OSError], started from the
    window and never stopped, ends with the idle text in the status label:
    the error text "Erro ao listar diretório: ..." that the progress event
    put there is replaced when [finished] arrives, as long as the system's
    error text holds neither "Erro:" nor "Nenhum grupo". *)
Theorem unlistable_folder_window (percentage : Z -> Z -> Z)
  (items_of : gmap string (list string) -> list (string * list string))
  (g : Gui) (w : World) (reply_yes : bool) (e : string)
  (hash_size similarity_threshold : Z) :
  selected_folder g <> ""%string ->
  os_path_isdir w (selected_folder g) = true ->
  os_listdir w (selected_folder g) = ListOSError e ->
  contains "Erro:" e = false ->
  contains "Nenhum grupo" e = false ->
  status_text
    (foldl (deliver percentage items_of) (start_scan g false reply_yes).1
       (signals_of (ScanWorker_run w (selected_folder g) hash_size
                      similarity_threshold None)))
  = "Pronto. Selecione uma pasta ou inicie a verificação."%string.
Proof.
  intros Hsel Hdir Hl He1 He2. unfold ScanWorker_run, find_similar_images.
  rewrite Hdir, Hl. cbn [negb notify length worker_steps is_running app].
  change (signals_of [Emit (SigProgress 0 1 (MsgListError e));
                      Emit SigFinished])
    with [SigProgress 0 1 (MsgListError e); SigFinished].
  cbn [foldl deliver].
  now apply listing_error_status_replaced.
Qed.

Definition locked_gui : Gui :=
  {| selected_folder := "d"; status_text := "";
     progress_value := 0; progress_visible := false;
     scan_button_text := "Iniciar Verificação"; browse_enabled := true;
     results_tree := []; scan_thread := false; boxes := [] |}.

Lemma unlistable_folder_window_witness :
  os_listdir locked_world (selected_folder locked_gui)
  = ListOSError "Permission denied"
  /\ status_text
       (foldl (deliver (fun c t => (c * 100) `div` t) map_to_list)
          (start_scan locked_gui false false).1
          (signals_of (ScanWorker_run locked_world (selected_folder locked_gui)
                         8 5 None)))
     = "Pronto. Selecione uma pasta ou inicie a verificação."%string.
Proof.
  split; [reflexivity|].
  exact (unlistable_folder_window (fun c t => (c * 100) `div` t) map_to_list
           locked_gui locked_world false "Permission denied" 8 5
           ltac:(discriminate) eq_refl eq_refl eq_refl eq_refl).
Defined.

(** A scan started from the window and then cancelled from the window
    while [find_similar_images] is running: whichever of the worker's
    signals reach the window before the click on the scan button ([s1]) and
    whichever after it ([s2]), the second call of [start_scan] asks the
    worker to stop, and once all signals are delivered the scan button
    shows its start text again while the browse button is still disabled
    and the thread reference is still set: a stopped [run] emits no
    [finished], so none of the signals it emits reaches [scan_finished]. *)
Theorem cancelled_scan_window (percentage : Z -> Z -> Z)
  (items_of : gmap string (list string) -> list (string * list string))
  (g : Gui) (w : World) (reply_yes : bool)
  (hash_size similarity_threshold : Z) (t : nat) (s1 s2 : list Signal) :
  selected_folder g <> ""%string ->
  (t <= length (find_similar_images w (selected_folder g) hash_size
                  similarity_threshold true).1)%nat ->
  signals_of (ScanWorker_run w (selected_folder g) hash_size
                similarity_threshold (Some t))
  = s1 ++ s2 ->
  let started := (start_scan g false reply_yes).1 in
  let cancelled :=
    start_scan (foldl (deliver percentage items_of) started s1) true true in
  let final := foldl (deliver percentage items_of) cancelled.1 s2 in
  cancelled.2 = CmdStop
  /\ scan_button_text final = "Iniciar Verificação"%string
  /\ browse_enabled final = false
  /\ scan_thread final = true.
Proof.
  intros Hsel Ht Hsig. cbv zeta.
  assert (Hall : Forall is_progress_signal (s1 ++ s2)).
  { rewrite <- Hsig. unfold ScanWorker_run.
    destruct (find_similar_images w (selected_folder g) hash_size
                similarity_threshold true) as [tr res].
    cbn [fst] in Ht.
    assert (H1 : is_running (Some t) (length tr) = false)
      by (unfold is_running; apply Nat.ltb_nlt; lia).
    assert (H2 : is_running (Some t) (S (length tr)) = false)
      by (unfold is_running; apply Nat.ltb_nlt; lia).
    rewrite H1, H2, !app_nil_r, worker_steps_signals.
    apply progress_signals_all_progress. }
  apply Forall_app in Hall. destruct Hall as [Hs1 Hs2].
  set (started := (start_scan g false reply_yes).1).
  assert (Hstarted : selected_folder started = selected_folder g
                     /\ browse_enabled started = false
                     /\ scan_thread started = true).
  { unfold started, start_scan.
    destruct (String.eqb_spec (selected_folder g) "") as [Heq|_]; [congruence|].
    rewrite andb_false_r. now repeat split. }
  destruct Hstarted as (Hf & Hb & Hth).
  destruct (deliver_progress_only percentage items_of s1 started Hs1)
    as (Hf1 & _ & _ & Hb1 & _ & Hth1 & _).
  set (g1 := foldl (deliver percentage items_of) started s1) in *.
  assert (Hcancel : (start_scan g1 true true).2 = CmdStop
                    /\ scan_button_text (start_scan g1 true true).1
                       = "Iniciar Verificação"%string
                    /\ browse_enabled (start_scan g1 true true).1 = false
                    /\ scan_thread (start_scan g1 true true).1 = true).
  { unfold start_scan.
    destruct (String.eqb_spec (selected_folder g1) "") as [Heq|_]; [congruence|].
    rewrite Hth1, Hth. cbn. rewrite Hb1, Hb, Hth1, Hth. now repeat split. }
  destruct Hcancel as (Hcmd & Hbt & Hbr & Hthr).
  destruct (deliver_progress_only percentage items_of s2
              (start_scan g1 true true).1 Hs2)
    as (_ & _ & Hbt2 & Hb2 & _ & Hth2 & _).
  split; [exact Hcmd|]. split; [congruence|]. split; congruence.
Qed.

Lemma cancelled_scan_window_witness :
  signals_of (ScanWorker_run demo_world (selected_folder demo_gui) 8 2
                (Some 3%nat))
  = [SigProgress 0 10 (MsgHashStart 5)] ++ [SigProgress 1 10 (MsgHashing 1 5)]
  /\ browse_enabled
       (foldl (deliver (fun c t => (c * 100) `div` t) map_to_list)
          (start_scan
             (foldl (deliver (fun c t => (c * 100) `div` t) map_to_list)
                (start_scan demo_gui false false).1
                [SigProgress 0 10 (MsgHashStart 5)])
             true true).1
          [SigProgress 1 10 (MsgHashing 1 5)])
     = false.
Proof.
  assert (H : signals_of (ScanWorker_run demo_world (selected_folder demo_gui)
                            8 2 (Some 3%nat))
              = [SigProgress 0 10 (MsgHashStart 5)]
                  ++ [SigProgress 1 10 (MsgHashing 1 5)])
    by (vm_compute; reflexivity).
  split; [exact H|].
  assert (Ht : (3 <= length (find_similar_images demo_world
                               (selected_folder demo_gui) 8 2 true).1)%nat).
  { apply Nat.leb_le. vm_compute. reflexivity. }
  exact (proj1 (proj2 (proj2
           (cancelled_scan_window (fun c t => (c * 100) `div` t) map_to_list
              demo_gui demo_world false 8 2 3 _ _ ltac:(discriminate) Ht H)))).
Defined.

(** [show_error] followed by [scan_finished], the order in which the
    [error] and [finished] signals of a failing [run] arrive: the status
    label keeps "Erro: " followed by the message through both resets, one
    critical box is shown, and the controls are back in their idle
    state. *)
Theorem error_status_survives_reset (g : Gui) (error_message : string) :
  let final := scan_finished (show_error g error_message) in
  status_text (show_error g error_message)
  = ("Erro: " +:+ error_message)%string
  /\ status_text final = ("Erro: " +:+ error_message)%string
  /\ boxes final = boxes g ++ [Critical "Erro" error_message]
  /\ results_tree final = results_tree g
  /\ browse_enabled final = true
  /\ scan_thread final = false.
Proof.
  cbv zeta.
  assert (Hc : contains "Erro:" ("Erro: " +:+ error_message) = true)
    by (apply contains_prefix; reflexivity).
  assert (H1 : status_text (show_error g error_message)
               = ("Erro: " +:+ error_message)%string).
  { unfold show_error. now rewrite scan_finished_keeps_error. }
  assert (Hb : forall h, boxes (scan_finished h) = boxes h).
  { intros h. unfold scan_finished.
    repeat match goal with
           | |- context [if ?b then _ else _] => destruct b
           end; reflexivity. }
  split; [exact H1|].
  split; [rewrite scan_finished_keeps_error; rewrite H1; [reflexivity|exact Hc]|].
  split; [rewrite Hb; unfold show_error; now rewrite Hb|].
  destruct (scan_finished_controls (show_error g error_message))
    as (_ & Hbr & _ & Hth & Htree).
  split; [|now split].
  rewrite Htree. unfold show_error.
  now destruct (scan_finished_controls
                  (show_box (Critical "Erro" error_message)
                     (set_status ("Erro: " +:+ error_message) g)))
    as (_ & _ & _ & _ & ->).
Qed.
